(** * FROST-Ed25519: round state machine, key generation round 2 and
      signing round 1

    A shallow embedding of the Go sources

      - [pkg/frost/party] (the party identifier [ID]),
      - [pkg/rounds/base.go] (the round life cycle [BaseRound]),
      - [pkg/rounds/base_round.go], [pkg/state/base_round.go],
      - [pkg/frost/keygen/round2.go],
      - [pkg/frost/sign/round1.go] (both revisions of the file),

    together with the properties that the protocol description states
    about them.

    Conventions.  A [w]-bit unsigned integer is a [Z] in [[0, 2^w)]; a byte
    is a [Z] in [[0, 256)] and a byte slice is a [list Z].  A Go [map] is a
    [gmap]; the order in which [range] visits its keys is an explicit
    argument of the embedded function (Go leaves that order unspecified).
    A call either returns or panics: see [outcome]. *)

From Stdlib Require Import ZArith List Lia String Ascii Permutation.
From stdpp Require Import base option list gmap strings pretty.

Local Open Scope Z_scope.
#[local] Set Warnings "-clear-no-such-hyp".

(** ** Go calls: return or panic *)

Inductive outcome (A : Type) : Type :=
| Return (a : A)
| Panic (reason : string).
Arguments Return {A} a.
Arguments Panic {A} reason.

Definition outcome_bind {A B} (f : A → outcome B) (m : outcome A) : outcome B :=
  match m with
  | Return a => f a
  | Panic r => Panic r
  end.

#[global] Instance outcome_mret : MRet outcome := @Return.
#[global] Instance outcome_mbind : MBind outcome := @outcome_bind.

Definition returns {A} (m : outcome A) : Prop := ∃ a, m = Return a.

(** [for _, k := range ks { body }] over a slice, or over the keys of a map
    in the order [ks] in which the run-time happens to visit them. *)
Fixpoint for_range {K S} (body : K → S → outcome S) (ks : list K) (s : S)
  : outcome S :=
  match ks with
  | [] => Return s
  | k :: ks' => s' ← body k s; for_range body ks' s'
  end.

(** ** Bytes and fixed-width integers *)

Definition uint8 (x : Z) : Z := Z.land x 255.
Definition uint16 (x : Z) : Z := Z.land x 65535.
Definition uint32 (x : Z) : Z := Z.land x 4294967295.

Definition is_uint16 (x : Z) : Prop := 0 ≤ x < 65536.
Definition is_uint32 (x : Z) : Prop := 0 ≤ x < 4294967296.

(** The integer a little-endian byte string denotes. *)
Fixpoint le_value (bs : list Z) : Z :=
  match bs with
  | [] => 0
  | b :: bs' => b + 256 * le_value bs'
  end.

(** [encoding/binary]: [LittleEndian.PutUint16(b, v)] writes [b[0]] and
    [b[1]], and panics on a slice shorter than two bytes. *)
Definition LittleEndian_PutUint16 (b : list Z) (v : Z) : outcome (list Z) :=
  if decide (length b < 2)%nat then Panic "index out of range"
  else Return (<[1%nat := uint8 (Z.shiftr v 8)]> (<[0%nat := uint8 v]> b)).

(** [BigEndian.PutUint32(IDBuffer[:], v)] on the 4-byte array [IDBuffer]:
    the content of the array afterwards. *)
Definition BigEndian_PutUint32 (v : Z) : list Z :=
  [uint8 (Z.shiftr v 24); uint8 (Z.shiftr v 16); uint8 (Z.shiftr v 8); uint8 v].

(** [BigEndian.Uint16(b)] reads [b[0]] and [b[1]], and panics on a slice
    shorter than two bytes. *)
Definition BigEndian_Uint16 (b : list Z) : outcome Z :=
  match b with
  | b0 :: b1 :: _ =>
      Return (Z.lor (uint16 b1) (uint16 (Z.shiftl (uint16 b0) 8)))
  | _ => Panic "index out of range"
  end.

(** [[]byte("...")] of an ASCII string literal. *)
Definition bytes_of_string (s : string) : list Z :=
  map (λ a, Z.of_nat (nat_of_ascii a)) (list_ascii_of_string s).

(** ** The group library [filippo.io/edwards25519]

    Scalars are computed with: a scalar is its canonical representative in
    [[0, ell)]. *)

Module edwards25519.

(** The order of the prime-order subgroup. *)
Definition ell : Z := 2 ^ 252 + 27742317777372353535851937790883648493.

Definition Scalar : Type := Z.

Definition NewScalar : Scalar := 0.
Definition Add (x y : Scalar) : Scalar := (x + y) mod ell.
Definition Multiply (x y : Scalar) : Scalar := (x * y) mod ell.
(** [s.MultiplyAdd(x, y, z)] sets [s = x * y + z mod ell]. *)
Definition MultiplyAdd (x y z : Scalar) : Scalar := (x * y + z) mod ell.

(** [s.SetUniformBytes(x)]: [x] is 64 bytes, reduced modulo [ell]; any
    other length panics. *)
Definition SetUniformBytes (x : list Z) : outcome Scalar :=
  if decide (length x = 64%nat) then Return (le_value x mod ell)
  else Panic "edwards25519: invalid SetUniformBytes input length".

(** [s.SetCanonicalBytes(x)]: [x] is the 32-byte little-endian encoding of
    a scalar below [ell]; otherwise an error is returned. *)
Definition SetCanonicalBytes (x : list Z) : Scalar + string :=
  if decide (length x ≠ 32%nat) then inr "invalid scalar length"
  else if decide (le_value x < ell) then inl (le_value x)
  else inr "invalid scalar encoding".

(** Points: the library's group of curve points, with the operations the
    protocol code calls.  [Point_Bytes] is the canonical 32-byte
    encoding, a function of the group element. *)
Class Curve : Type := {
  Point : Type;
  Point_eq_dec :: EqDecision Point;
  NewIdentityPoint : Point;
  Point_Add : Point → Point → Point;
  ScalarMult : Scalar → Point → Point;
  ScalarBaseMult : Scalar → Point;
  Point_Bytes : Point → list Z;
  Point_Add_comm : ∀ p q, Point_Add p q = Point_Add q p;
  Point_Add_assoc : ∀ p q r,
    Point_Add p (Point_Add q r) = Point_Add (Point_Add p q) r;
}.

(** [p.Equal(q)] returns 1 when the points are equal and 0 otherwise. *)
Definition Point_Equal `{Curve} (p q : Point) : Z :=
  if decide (p = q) then 1 else 0.

End edwards25519.

(** [crypto/sha512]: the digest of any input is 64 bytes long. *)
Class Sha512 : Type := {
  sha512_Sum : list Z → list Z;
  sha512_Sum_length : ∀ m, length (sha512_Sum m) = 64%nat;
}.

(** ** The library [strconv], base 10 *)

Module strconv.

Inductive num_err : Type := ErrSyntax | ErrRange.

(** [*NumError]: the function that failed, its input, and why. *)
Record NumError : Type := { Func : string; Num : string; Err : num_err }.

Definition syntaxError (fn str : string) : NumError :=
  {| Func := fn; Num := str; Err := ErrSyntax |}.
Definition rangeError (fn str : string) : NumError :=
  {| Func := fn; Num := str; Err := ErrRange |}.

(** [FormatUint(i, 10)]: the decimal digits of [i], without leading
    zeros. *)
Definition FormatUint (i : Z) : string := pretty (Z.to_N i).

(** The value of a decimal digit; a letter is a digit of a base above
    10, hence refused like any other character. *)
Definition digit (c : ascii) : option Z :=
  let code := Z.of_nat (nat_of_ascii c) in
  if (48 <=? code) && (code <=? 57) then Some (code - 48) else None.

(** The loop of [ParseUint] over the bytes of the input: [n] is the value
    read so far; on a value above [maxVal] the loop returns [maxVal] and a
    range error. *)
Fixpoint ParseUint_loop (maxVal : Z) (cs : list ascii) (n : Z)
  : Z * option num_err :=
  match cs with
  | [] => (n, None)
  | c :: cs' =>
      match digit c with
      | None => (0, Some ErrSyntax)
      | Some d =>
          if decide (maxVal < n * 10 + d) then (maxVal, Some ErrRange)
          else ParseUint_loop maxVal cs' (n * 10 + d)
      end
  end.

(** [ParseUint(s, 10, bitSize)], for [bitSize] from 1 to 64. *)
Definition ParseUint (s : string) (bitSize : Z) : Z * option NumError :=
  match list_ascii_of_string s with
  | [] => (0, Some (syntaxError "ParseUint" s))
  | cs =>
      match ParseUint_loop (Z.shiftl 1 bitSize - 1) cs 0 with
      | (n, None) => (n, None)
      | (n, Some ErrSyntax) => (n, Some (syntaxError "ParseUint" s))
      | (n, Some ErrRange) => (n, Some (rangeError "ParseUint" s))
      end
  end.

(** [Atoi(s)] on a 64-bit platform: an optional sign, then decimal
    digits; a value outside [int] is an error. *)
Definition Atoi (s : string) : Z * option NumError :=
  let cs := list_ascii_of_string s in
  let neg := match cs with "-"%char :: _ => true | _ => false end in
  let ds :=
    match cs with
    | "-"%char :: r => r
    | "+"%char :: r => r
    | _ => cs
    end in
  match ds with
  | [] => (0, Some (syntaxError "Atoi" s))
  | _ =>
      match ParseUint_loop (Z.shiftl 1 64 - 1) ds 0 with
      | (_, Some ErrSyntax) => (0, Some (syntaxError "Atoi" s))
      | (un, _) =>
          let cutoff := Z.shiftl 1 63 in
          if negb neg && bool_decide (cutoff ≤ un) then
            (cutoff - 1, Some (rangeError "Atoi" s))
          else if neg && bool_decide (cutoff < un) then
            (- cutoff, Some (rangeError "Atoi" s))
          else (if neg then - un else un, None)
      end
  end.

End strconv.

(** ** Package [party]: identifiers *)

(** ** Package [math/rand], as far as package [party] calls it *)

Module rand.


End rand.

Module party.
Import edwards25519.

(** [ByteSize] is the number of bytes required to store an ID or Size. *)
Definition ByteSize : Z := 2.
(** [MAX] is the maximum integer that can represent a party. *)
Definition MAX : Z := Z.shiftl 1 (ByteSize * 8) - 1.

(** [type ID uint16] *)
Definition ID : Type := Z.

(** The 32 bytes [setScalar] hands to [SetCanonicalBytes]. *)
Definition scalarBytes (p : ID) : outcome (list Z) :=
  LittleEndian_PutUint16 (replicate 32 0) (uint16 p).

Definition setScalar (p : ID) : outcome Scalar :=
  bytes ← scalarBytes p;
  match SetCanonicalBytes bytes with
  | inr err =>
      Panic ("edwards25519: failed to set uint32 Scalar: " +:+ err)
  | inl s => Return s
  end.

Definition Scalar (p : ID) : outcome edwards25519.Scalar := setScalar p.

(** [p.Bytes()]: two bytes, big-endian. *)
Definition Bytes (p : ID) : list Z :=
  [uint8 (Z.shiftr (uint16 p) 8); uint8 (uint16 p)].

(** Modelled from the spec: the party set of package [party], whose source
    is absent; "ordered, duplicate-free set of PartyIDs" with the operations
    [contains], [size] and [range].  [slice] lists the members in order. *)
Record Set_ : Type := { slice : list ID }.

Definition Contains (s : Set_) (id : ID) : bool := bool_decide (id ∈ slice s).
(** [N] is the number of members. *)
Definition N (s : Set_) : Z := Z.of_nat (length (slice s)).

(** [p.String()]: the ID in base 10. *)
Definition String (p : ID) : string := strconv.FormatUint (uint16 p).

(** [FromBytes(b)] reads the first [ByteSize] bytes of [b]. *)
Definition FromBytes (b : list Z) : outcome ID :=
  v ← BigEndian_Uint16 b; Return (uint16 v).

(** [IDFromString(str)]: the ID written in base 10, or 0 and the error of
    [ParseUint]. *)
Definition IDFromString (str : string) : ID * option strconv.NumError :=
  match strconv.ParseUint str 16 with
  | (_, Some err) => (0, Some err)
  | (p, None) => (uint16 p, None)
  end.



End party.

(** ** Command [keygen] *)

Module cmd_keygen.

Definition maxN : Z := 100.

(** What [main] writes to the standard output: an error ([fmt.Println]) or
    the usage line, which names the program by [os.Args[0]]. *)
Inductive output : Type :=
| Println (err : strconv.NumError)
| Printf_usage (arg0 : string).

(** [usage()]; indexing an empty [os.Args] panics. *)
Definition usage (Args : list string) : outcome (list output) :=
  match Args with
  | arg0 :: _ => Return [Printf_usage arg0]
  | [] => Panic "index out of range"
  end.

(** The loop [for id := 0; id < n; id++] with [count] iterations left. *)
Fixpoint append_IDs (count : nat) (id : Z) (partyIDs : list party.ID)
  : list party.ID :=
  match count with
  | O => partyIDs
  | S count' => append_IDs count' (id + 1) (partyIDs ++ [uint16 (42 + id)])
  end.

(** [main()]: what it prints and, when it gets there, the slice
    [partyIDs] it builds.  [make] with a negative capacity panics. *)
Definition main (Args : list string)
  : outcome (list output * option (list party.ID)) :=
  match Args with
  | [_; a1; a2] =>
      match strconv.Atoi a1 with
      | (_, Some err) =>
          out ← usage Args; Return (Println err :: out, None)
      | (t, None) =>
          match strconv.Atoi a2 with
          | (_, Some err) =>
              out ← usage Args; Return (Println err :: out, None)
          | (n, None) =>
              if bool_decide (maxN < n) || bool_decide (n ≤ t) then
                out ← usage Args; Return (out, None)
              else if decide (n < 0) then
                Panic "makeslice: cap out of range"
              else Return ([], Some (append_IDs (Z.to_nat n) 0 []))
          end
      end
  | _ => out ← usage Args; Return (out, None)
  end.

End cmd_keygen.

(** ** Go errors *)

(** An [error] value: [errors.New], or what [fmt.Errorf] builds, which
    wraps the operand of [%w] when there is one. *)
Inductive error : Type :=
| errorString (s : string)
| wrapError (msg : string) (err : error).

(** [err.Error()] *)
Definition Error (e : error) : string :=
  match e with
  | errorString s => s
  | wrapError msg _ => msg
  end.

(** [errors.Unwrap(err)] *)
Definition Unwrap (e : error) : option error :=
  match e with
  | errorString _ => None
  | wrapError _ err => Some err
  end.

Definition errors_New (text : string) : error := errorString text.

(** [fmt.Errorf(prefix + "abort: party %d: %w", culprit, err)].  A nil
    operand of [%w] is printed as a bad verb and nothing is wrapped. *)
Definition Errorf_abort (prefix : string) (culprit : Z) (err : option error)
  : error :=
  match err with
  | Some e =>
      wrapError (prefix +:+ "abort: party " +:+ pretty culprit +:+ ": "
                 +:+ Error e) e
  | None =>
      errorString (prefix +:+ "abort: party " +:+ pretty culprit +:+ ": "
                   +:+ "%!w(<nil>)")
  end.

(** ** Package [messages] *)

Module messages.
Import edwards25519.

(** Modelled from the spec: the four message variants of the wire codec
    ([KeyGen1], [KeyGen2], [Sign1], [Sign2]); the package source is absent.
    Only the fields the rounds read are kept. *)
Inductive MessageType : Type :=
| MessageTypeKeyGen1
| MessageTypeKeyGen2
| MessageTypeSign1
| MessageTypeSign2.

#[global] Instance MessageType_eq_dec : EqDecision MessageType.
Proof. solve_decision. Defined.

Record KeyGen2Payload : Type := { Share : Scalar }.
Record Sign1Payload `{Curve} : Type := { Di : Point; Ei : Point }.
Record Sign2Payload : Type := { Zi : Scalar }.

(** A payload pointer is nil ([None]) unless the message is of that
    variant. *)
Record Message `{Curve} : Type := {
  Type_ : MessageType;
  From : Z;
  KeyGen2 : option KeyGen2Payload;
  Sign1 : option Sign1Payload;
  Sign2 : option Sign2Payload;
}.

Definition NewSign2 `{Curve} (from : Z) (z : Scalar) : Message :=
  {| Type_ := MessageTypeSign2; From := from; KeyGen2 := None;
     Sign1 := None; Sign2 := Some {| Zi := z |} |}.

(** The message queue, whose source is absent: the operations
    [BaseRound] calls, taken as an interface. *)
Class QueueAPI (Msg : Type) : Type := {
  Queue : Type;
  NewMessageQueue : Z → gmap Z bool → list MessageType → Queue + error;
  ReceivedAll : Queue → bool;
  NextRound : Queue → Queue;
  Store : Queue → Msg → Queue * option error;
  Messages : Queue → gmap Z Msg;
}.

(** Modelled from the spec: "a round-scoped mailbox storing at most one
    message per peer per round"; [store] fails with [UnknownSender],
    [WrongType] or [Duplicate], [receivedAll] is "true once a message is
    present for every expected peer", [nextRound] "discards the current
    round's entries".  The accepted types are those of the rounds in order:
    the head is the current round's, a message of a later one is buffered,
    anything else is of the wrong type. *)
Record Mailbox (Msg : Type) : Type := {
  peers : gmap Z bool;
  accepted : list MessageType;
  current : gmap Z Msg;
  future : list Msg;
}.
Arguments peers {Msg} _.
Arguments accepted {Msg} _.
Arguments current {Msg} _.
Arguments future {Msg} _.

Section Mailbox.
Context {Msg : Type} (type_of : Msg → MessageType) (from : Msg → Z).

Definition Mailbox_new (self : Z) (others : gmap Z bool)
    (types : list MessageType) : Mailbox Msg + error :=
  inl {| peers := others; accepted := types; current := ∅; future := [] |}.

Definition Mailbox_receivedAll (q : Mailbox Msg) : bool :=
  bool_decide (map_Forall (λ id _, is_Some (current q !! id)) (peers q)).

Definition Mailbox_store (q : Mailbox Msg) (m : Msg)
  : Mailbox Msg * option error :=
  match peers q !! from m with
  | None => (q, Some (errors_New "UnknownSender"))
  | Some _ =>
      match accepted q with
      | [] => (q, Some (errors_New "WrongType"))
      | t :: later =>
          if decide (type_of m = t) then
            match current q !! from m with
            | Some _ => (q, Some (errors_New "Duplicate"))
            | None =>
                ({| peers := peers q; accepted := accepted q;
                    current := <[from m := m]> (current q);
                    future := future q |}, None)
            end
          else if bool_decide (type_of m ∈ later) then
            ({| peers := peers q; accepted := accepted q;
                current := current q; future := future q ++ [m] |}, None)
          else (q, Some (errors_New "WrongType"))
      end
  end.

Definition Mailbox_refill (t : MessageType) (ms : list Msg)
  : gmap Z Msg * list Msg :=
  foldl (λ acc m,
           if decide (type_of m = t) then
             match acc.1 !! from m with
             | None => (<[from m := m]> acc.1, acc.2)
             | Some _ => acc
             end
           else (acc.1, acc.2 ++ [m]))
        (∅, []) ms.

Definition Mailbox_nextRound (q : Mailbox Msg) : Mailbox Msg :=
  match tail (accepted q) with
  | [] => {| peers := peers q; accepted := []; current := ∅; future := [] |}
  | t :: later =>
      let r := Mailbox_refill t (future q) in
      {| peers := peers q; accepted := t :: later;
         current := r.1; future := r.2 |}
  end.

Definition MailboxQueue : QueueAPI Msg := {|
  Queue := Mailbox Msg;
  NewMessageQueue := Mailbox_new;
  ReceivedAll := Mailbox_receivedAll;
  NextRound := Mailbox_nextRound;
  Store := Mailbox_store;
  Messages := current;
|}.

End Mailbox.

End messages.

(** ** Package [rounds], file [base.go]: the round life cycle *)

Module rounds.
Import messages.

(** [type RoundState uint8], the constants being [1 << iota]. *)
Definition RoundState : Type := Z.
Definition ProcessMessages : RoundState := Z.shiftl 1 0.
Definition ProcessRound : RoundState := Z.shiftl 1 1.
Definition GenerateMessages : RoundState := Z.shiftl 1 2.
Definition NextRound : RoundState := Z.shiftl 1 3.
Definition Finished : RoundState := Z.shiftl 1 4.
Definition Abort_ : RoundState := Z.shiftl 1 5.

(** A channel of [struct{}] that is only ever closed. *)
Inductive chan : Type := ChanOpen | ChanClosed.

(** What a method leaves behind: it returned a value, or it panicked (the
    receiver keeps the writes made before the panic). *)
Inductive exit (A : Type) : Type :=
| Returned (a : A)
| Panicked (reason : string).
Arguments Returned {A} a.
Arguments Panicked {A} reason.

Section BaseRound.
Context {Msg : Type} `{Q : QueueAPI Msg}.

Record BaseRound : Type := {
  AllPartyIDs : list Z;
  OtherPartyIDs : gmap Z bool;
  finalError : option error;
  messages : Queue;
  roundNumber : Z;
  done : chan;
  selfPartyID : Z;
  state : RoundState;
  isProcessingStep : bool;
}.

Definition set_state (s : RoundState) (b : BaseRound) : BaseRound :=
  {| AllPartyIDs := AllPartyIDs b; OtherPartyIDs := OtherPartyIDs b;
     finalError := finalError b; messages := messages b;
     roundNumber := roundNumber b; done := done b;
     selfPartyID := selfPartyID b; state := s;
     isProcessingStep := isProcessingStep b |}.

Definition set_finalError (e : option error) (b : BaseRound) : BaseRound :=
  {| AllPartyIDs := AllPartyIDs b; OtherPartyIDs := OtherPartyIDs b;
     finalError := e; messages := messages b;
     roundNumber := roundNumber b; done := done b;
     selfPartyID := selfPartyID b; state := state b;
     isProcessingStep := isProcessingStep b |}.

Definition set_messages (q : Queue) (b : BaseRound) : BaseRound :=
  {| AllPartyIDs := AllPartyIDs b; OtherPartyIDs := OtherPartyIDs b;
     finalError := finalError b; messages := q;
     roundNumber := roundNumber b; done := done b;
     selfPartyID := selfPartyID b; state := state b;
     isProcessingStep := isProcessingStep b |}.

Definition set_roundNumber (n : Z) (b : BaseRound) : BaseRound :=
  {| AllPartyIDs := AllPartyIDs b; OtherPartyIDs := OtherPartyIDs b;
     finalError := finalError b; messages := messages b;
     roundNumber := n; done := done b;
     selfPartyID := selfPartyID b; state := state b;
     isProcessingStep := isProcessingStep b |}.

Definition set_done (c : chan) (b : BaseRound) : BaseRound :=
  {| AllPartyIDs := AllPartyIDs b; OtherPartyIDs := OtherPartyIDs b;
     finalError := finalError b; messages := messages b;
     roundNumber := roundNumber b; done := c;
     selfPartyID := selfPartyID b; state := state b;
     isProcessingStep := isProcessingStep b |}.

Definition set_isProcessingStep (p : bool) (b : BaseRound) : BaseRound :=
  {| AllPartyIDs := AllPartyIDs b; OtherPartyIDs := OtherPartyIDs b;
     finalError := finalError b; messages := messages b;
     roundNumber := roundNumber b; done := done b;
     selfPartyID := selfPartyID b; state := state b;
     isProcessingStep := p |}.

(** [close(b.done)]: closing a closed channel panics. *)
Definition close_done (b : BaseRound) : BaseRound * exit unit :=
  match done b with
  | ChanOpen => (set_done ChanClosed b, Returned ())
  | ChanClosed => (b, Panicked "close of closed channel")
  end.

(** The loop of [NewBaseRound] over [allPartyIDs]; the accumulator is
    [(foundSelfIDInAll, finalAllPartyIDs, otherPartyIDs)]. *)
Fixpoint collectPartyIDs (selfPartyID : Z) (allPartyIDs : list Z)
    (foundSelfIDInAll : bool) (finalAllPartyIDs : list Z)
    (otherPartyIDs : gmap Z bool) : (bool * list Z * gmap Z bool) + error :=
  match allPartyIDs with
  | [] => inl (foundSelfIDInAll, finalAllPartyIDs, otherPartyIDs)
  | id :: rest =>
      if decide (id = 0) then
        inr (errors_New "IDs in allPartyIDs cannot be 0")
      else if bool_decide (id = selfPartyID) && negb foundSelfIDInAll then
        collectPartyIDs selfPartyID rest true (finalAllPartyIDs ++ [id])
                        otherPartyIDs
      else
        match otherPartyIDs !! id with
        | Some _ =>
            collectPartyIDs selfPartyID rest foundSelfIDInAll
                            finalAllPartyIDs otherPartyIDs
        | None =>
            collectPartyIDs selfPartyID rest foundSelfIDInAll
                            (finalAllPartyIDs ++ [id])
                            (<[id := true]> otherPartyIDs)
        end
  end.

Definition NewBaseRound (selfPartyID : Z) (allPartyIDs : list Z)
    (acceptedTypes : list MessageType) : BaseRound + error :=
  if decide (selfPartyID = 0) then inr (errors_New "selfPartyID cannot be 0")
  else
    match collectPartyIDs selfPartyID allPartyIDs false [] ∅ with
    | inr err => inr err
    | inl (foundSelfIDInAll, finalAllPartyIDs, otherPartyIDs) =>
        if negb foundSelfIDInAll then
          inr (errors_New "selfPartyID must be included in allPartyIDs")
        else
          match NewMessageQueue selfPartyID otherPartyIDs acceptedTypes with
          | inr err => inr err
          | inl q =>
              inl {| AllPartyIDs := finalAllPartyIDs;
                     OtherPartyIDs := otherPartyIDs;
                     finalError := None;
                     messages := q;
                     roundNumber := 0;
                     done := ChanOpen;
                     selfPartyID := selfPartyID;
                     state := ProcessRound;
                     isProcessingStep := false |}
          end
    end.

(** [b.roundNumber++] on an [int]. *)
Definition int_incr (n : Z) : Z := (n + 1 + 2 ^ 63) mod 2 ^ 64 - 2 ^ 63.

Definition PrepareNextRound (b : BaseRound) : BaseRound * bool :=
  if decide (state b = NextRound) then
    (set_roundNumber (int_incr (roundNumber b)) (set_state ProcessMessages b),
     true)
  else (b, false).

Definition Abort (culprit : Z) (err : option error) (b : BaseRound)
  : BaseRound * exit unit :=
  let b := set_state Abort_ b in
  match finalError b with
  | None =>
      close_done (set_finalError (Some (Errorf_abort "" culprit err)) b)
  | Some old =>
      (set_finalError
         (Some (Errorf_abort (Error old +:+ ", ") culprit err)) b,
       Returned ())
  end.

Definition Finish (b : BaseRound) : BaseRound * exit unit :=
  if bool_decide (state b = Abort_) || bool_decide (state b = Finished) then
    (b, Returned ())
  else close_done (set_state Finished b).

(** [<-b.done] blocks while the channel is open: [None] is "still
    blocked", [Some e] is "returned [e]". *)
Definition WaitForFinish (b : BaseRound) : option (option error) :=
  match done b with
  | ChanOpen => None
  | ChanClosed => Some (finalError b)
  end.

Definition CanProcessMessages (b : BaseRound) : BaseRound * bool :=
  if isProcessingStep b then (b, false)
  else if bool_decide (state b = ProcessMessages) && ReceivedAll (messages b)
  then (set_isProcessingStep true b, true)
  else (b, false).

Definition CanProcessRound (b : BaseRound) : BaseRound * bool :=
  if isProcessingStep b then (b, false)
  else if bool_decide (state b = ProcessRound)
  then (set_isProcessingStep true b, true)
  else (b, false).

Definition CanGenerateMessages (b : BaseRound) : BaseRound * bool :=
  if isProcessingStep b then (b, false)
  else if bool_decide (state b = GenerateMessages)
  then (set_isProcessingStep true b, true)
  else (b, false).

(** [b.state <<= 1] on a [uint8]. *)
Definition shl1 (s : RoundState) : RoundState := uint8 (Z.shiftl s 1).

Definition NextStep (b : BaseRound) : BaseRound :=
  if decide (state b = ProcessMessages) then
    set_messages (messages.NextRound (messages b))
      (set_state (shl1 (state b)) (set_isProcessingStep false b))
  else if bool_decide (state b = ProcessRound)
          || bool_decide (state b = GenerateMessages) then
    set_state (shl1 (state b)) (set_isProcessingStep false b)
  else b.

Definition ID (b : BaseRound) : Z := selfPartyID b.
Definition RoundNumber (b : BaseRound) : Z := roundNumber b.
Definition N (b : BaseRound) : Z := uint32 (Z.of_nat (length (AllPartyIDs b))).

Definition StoreMessage (message : Msg) (b : BaseRound)
  : BaseRound * option error :=
  let (q, err) := Store (messages b) message in (set_messages q b, err).

Definition Messages (b : BaseRound) : gmap Z Msg :=
  messages.Messages (messages b).

(** *** Sequences of calls

    A caller drives a [BaseRound] through its methods.  [call] names a
    method call with its arguments, [reply] is what the call gave back, and
    [run] executes calls one after the other on the receiver (a panic that
    the caller recovers from leaves the receiver as it was when the panic
    was raised). *)
Inductive call : Type :=
| CallPrepareNextRound
| CallAbort (culprit : Z) (err : option error)
| CallFinish
| CallCanProcessMessages
| CallCanProcessRound
| CallCanGenerateMessages
| CallNextStep
| CallStoreMessage (message : Msg).

Inductive reply : Type :=
| ReplyBool (v : bool)
| ReplyError (err : option error)
| ReplyDone
| ReplyPanic (reason : string).

Definition reply_of_exit (x : exit unit) : reply :=
  match x with
  | Returned _ => ReplyDone
  | Panicked reason => ReplyPanic reason
  end.

Definition exec (c : call) (b : BaseRound) : BaseRound * reply :=
  match c with
  | CallPrepareNextRound =>
      ((PrepareNextRound b).1, ReplyBool (PrepareNextRound b).2)
  | CallAbort culprit err =>
      ((Abort culprit err b).1, reply_of_exit (Abort culprit err b).2)
  | CallFinish => ((Finish b).1, reply_of_exit (Finish b).2)
  | CallCanProcessMessages =>
      ((CanProcessMessages b).1, ReplyBool (CanProcessMessages b).2)
  | CallCanProcessRound =>
      ((CanProcessRound b).1, ReplyBool (CanProcessRound b).2)
  | CallCanGenerateMessages =>
      ((CanGenerateMessages b).1, ReplyBool (CanGenerateMessages b).2)
  | CallNextStep => (NextStep b, ReplyDone)
  | CallStoreMessage message =>
      ((StoreMessage message b).1, ReplyError (StoreMessage message b).2)
  end.

(** The receiver after each call, with the call and its reply, in order. *)
Fixpoint run (cs : list call) (b : BaseRound)
  : list (call * BaseRound * reply) :=
  match cs with
  | [] => []
  | c :: cs' => (c, (exec c b).1, (exec c b).2) :: run cs' (exec c b).1
  end.

(** The receiver after all the calls. *)
Definition after (cs : list call) (b : BaseRound) : BaseRound :=
  foldl (λ b c, (exec c b).1) b cs.

(** Is this one of the three predicates that reserve a step? *)
Definition is_Can (c : call) : bool :=
  match c with
  | CallCanProcessMessages | CallCanProcessRound | CallCanGenerateMessages =>
      true
  | _ => false
  end.

(** The first [Abort] among the calls, if any. *)
Fixpoint first_Abort (cs : list call) : option (Z * option error) :=
  match cs with
  | [] => None
  | CallAbort culprit err :: _ => Some (culprit, err)
  | _ :: cs' => first_Abort cs'
  end.

End BaseRound.

End rounds.

(** ** Package [rounds], file [base_round.go] *)

Module rounds_base_round.

Record BaseRound : Type := {
  selfID : party.ID;
  partySet : party.Set_;
}.

Definition NewBaseRound (selfID : party.ID) (partySet : party.Set_)
  : BaseRound + error :=
  if negb (party.Contains partySet selfID) then
    inr (errors_New "partySet should contain selfID")
  else inl {| selfID := selfID; partySet := partySet |}.

Definition SelfID (r : BaseRound) : party.ID := selfID r.
Definition Set_ (r : BaseRound) : party.Set_ := partySet r.

End rounds_base_round.

(** ** Package [state], file [base_round.go] *)

Module state.

(** Modelled from the spec: the error "naming" a culprit that
    [state.NewError] builds; its source is absent. *)
Record Error : Type := { Culprit : party.ID; Err : error }.
Definition NewError (culprit : party.ID) (err : error) : Error :=
  {| Culprit := culprit; Err := err |}.

Record BaseRound : Type := {
  selfID : party.ID;
  partySet : party.Set_;
}.

Definition NewBaseRound (selfID : party.ID) (partySet : party.Set_)
  : BaseRound + error :=
  if negb (party.Contains partySet selfID) then
    inr (errors_New "partySet should contain selfID")
  else inl {| selfID := selfID; partySet := partySet |}.

Definition ProcessMessage {Msg : Type} (r : BaseRound) (msg : Msg)
  : option Error := None.

Definition SelfID (r : BaseRound) : party.ID := selfID r.
Definition Set_ (r : BaseRound) : party.Set_ := partySet r.

End state.

(** ** Package [polynomial]: commitments *)

Module polynomial.
Import edwards25519.

Section Exponent.
Context `{Curve}.

(** Modelled from the spec: the exponent (commitment) polynomial
    "[A₀, …, Aₜ]", with "evalExp(commitment, x) → Point: Horner's rule on
    exponent polynomial", the constant term "CSum[0]" and "sumExp(list):
    coefficient-wise sum of commitment polynomials"; the package source is
    absent. *)
Record Exponent : Type := { coefficients : list Point }.

(** Horner's rule, from the highest coefficient down:
    [result = [x]result + Aᵢ]. *)
Definition Evaluate (p : Exponent) (x : Scalar) : Point :=
  foldr (λ A result, Point_Add (ScalarMult x result) A) NewIdentityPoint
        (coefficients p).

(** The constant term [A₀]; indexing an empty coefficient slice panics. *)
Definition Constant (p : Exponent) : outcome Point :=
  match coefficients p with
  | A0 :: _ => Return A0
  | [] => Panic "index out of range"
  end.

(** Coefficient-wise sum of two commitment polynomials; the longer one's
    remaining coefficients are kept. *)
Fixpoint add_coefficients (a b : list Point) : list Point :=
  match a, b with
  | [], _ => b
  | _, [] => a
  | x :: a', y :: b' => Point_Add x y :: add_coefficients a' b'
  end.


End Exponent.

End polynomial.

(** ** Package [eddsa]: the outputs of key generation *)

Module eddsa.
Import edwards25519.

Section Outputs.
Context `{Curve}.

(** Modelled from the spec: "PublicKey aggregate — {shares: map PartyID →
    Point, groupKey: Point, threshold: t}" and "SecretShare — {ownerID,
    value: Scalar}", with their constructors; the package source is
    absent. *)
Record Public : Type := {
  Shares : gmap party.ID Point;
  Threshold : party.ID;
  GroupKey : Point;
}.

Definition NewPublic (shares : gmap party.ID Point) (threshold : party.ID)
    (groupKey : Point) : Public :=
  {| Shares := shares; Threshold := threshold; GroupKey := groupKey |}.

Record SecretShare : Type := { ID : party.ID; Secret : Scalar }.

Definition NewSecretShare (id : party.ID) (secret : Scalar) : SecretShare :=
  {| ID := id; Secret := secret |}.

(** Modelled from the spec: the Ed25519 challenge "c := SetUniformBytes(
    SHA-512( R_compressed ‖ Y_compressed ‖ M ) )" that
    [eddsa.ComputeChallenge(message, Y, R)] computes; the helper's source
    is absent. *)
Definition ComputeChallenge `{Sha512} (message : list Z) (Y R : Point)
  : outcome Scalar :=
  SetUniformBytes (sha512_Sum (Point_Bytes R ++ Point_Bytes Y ++ message)).

End Outputs.

End eddsa.

(** ** Package [keygen], file [round2.go] *)

Module keygen.
Import edwards25519.

Section Round2.
Context `{Curve}.

Record Output : Type := {
  Public : option eddsa.Public;
  SecretKey : option eddsa.SecretShare;
}.

(** The fields of the round that [round2.go] uses. *)
Record round2 : Type := {
  BaseRound : state.BaseRound;
  Threshold : party.ID;
  Secret : Scalar;
  Commitments : gmap party.ID polynomial.Exponent;
  CommitmentsSum : polynomial.Exponent;
  Output_ : Output;
}.

Definition set_Secret (s : Scalar) (round : round2) : round2 :=
  {| BaseRound := BaseRound round; Threshold := Threshold round;
     Secret := s; Commitments := Commitments round;
     CommitmentsSum := CommitmentsSum round; Output_ := Output_ round |}.

Definition set_Output (o : Output) (round : round2) : round2 :=
  {| BaseRound := BaseRound round; Threshold := Threshold round;
     Secret := Secret round; Commitments := Commitments round;
     CommitmentsSum := CommitmentsSum round; Output_ := o |}.

Definition set_Share (s : Scalar) (msg : messages.Message)
  : messages.Message :=
  {| messages.Type_ := messages.Type_ msg;
     messages.From := messages.From msg;
     messages.KeyGen2 := Some {| messages.Share := s |};
     messages.Sign1 := messages.Sign1 msg;
     messages.Sign2 := messages.Sign2 msg |}.

(** [ProcessMessage] returns the round, the message (whose share it
    overwrites) and the error. *)
Definition ProcessMessage (round : round2) (msg : messages.Message)
  : outcome (round2 * messages.Message * option state.Error) :=
  match messages.KeyGen2 msg with
  | None => Panic "nil pointer dereference"
  | Some payload =>
      let computedShareExp := ScalarBaseMult (messages.Share payload) in
      let id := messages.From msg in
      x ← party.Scalar (state.SelfID (BaseRound round));
      match Commitments round !! id with
      | None => Panic "nil pointer dereference"
      | Some commitment =>
          let shareExp := polynomial.Evaluate commitment x in
          if decide (Point_Equal computedShareExp shareExp ≠ 1) then
            Return (round, msg,
                    Some (state.NewError id
                            (errors_New "VSS failed to validate")))
          else
            let round := set_Secret
                           (Add (Secret round) (messages.Share payload))
                           round in
            Return (round, set_Share NewScalar msg, None)
      end
  end.

(** One iteration of [for id := range round.Set().Range()]. *)
Definition share_step (round : round2) (id : party.ID)
    (shares : gmap party.ID Point) : outcome (gmap party.ID Point) :=
  x ← party.Scalar id;
  Return (<[id := polynomial.Evaluate (CommitmentsSum round) x]> shares).

(** [GenerateMessages]; [order] is the order in which the [range] loop
    visits the members of the set. *)
Definition GenerateMessages (order : list party.ID) (round : round2)
  : outcome (round2 * list messages.Message * option state.Error) :=
  shares ← for_range (share_step round) order ∅;
  groupKey ← polynomial.Constant (CommitmentsSum round);
  let public := eddsa.NewPublic shares (Threshold round) groupKey in
  let secretKey :=
    eddsa.NewSecretShare (state.SelfID (BaseRound round)) (Secret round) in
  Return (set_Output {| Public := Some public; SecretKey := Some secretKey |}
                     round,
          [], None).

Definition MessageType (round : round2) : messages.MessageType :=
  messages.MessageTypeKeyGen2.

End Round2.

End keygen.

(** ** Package [frost]: sentinel errors *)

Module frost.

(** Modelled from the spec: the programmer-misuse errors "RoundProcessed"
    and "RoundNotProcessed"; the declarations are absent from the source,
    only their names are known. *)
Definition ErrRoundProcessed : error := errors_New "RoundProcessed".
Definition ErrRoundNotProcessed : error := errors_New "RoundNotProcessed".

End frost.

(** ** Package [sign], file [round1.go] *)

Module sign.
Import edwards25519.

Section Round1.
Context `{Curve} `{Sha512}.

(** The signer state per peer, in the local view. *)
Record Party : Type := {
  Lagrange : Scalar;
  Pi : Scalar;
  Zi : Scalar;
  Di : Point;
  Ei : Point;
  Ri : Point;
}.

Definition set_Di_Ei (D E : Point) (party : Party) : Party :=
  {| Lagrange := Lagrange party; Pi := Pi party; Zi := Zi party;
     Di := D; Ei := E; Ri := Ri party |}.

Definition set_Pi_Ri (rho : Scalar) (Rp : Point) (party : Party) : Party :=
  {| Lagrange := Lagrange party; Pi := rho; Zi := Zi party;
     Di := Di party; Ei := Ei party; Ri := Rp |}.

Definition set_Zi (z : Scalar) (party : Party) : Party :=
  {| Lagrange := Lagrange party; Pi := Pi party; Zi := z;
     Di := Di party; Ei := Ei party; Ri := Ri party |}.

(** The fields of [base] that [round1.go] uses; a pointer that the
    constructor sets ([Secret]) is held by value, and every ID of
    [Parties] has a [Party] object of its own. *)
Record base : Type := {
  PartySelf : Z;
  AllParties : list Z;
  Parties : gmap Z Party;
  Secret : Scalar;
  Y : Point;
  R : Point;
  C : Scalar;
  d : Scalar;
  e : Scalar;
  Message : list Z;
  msgs1 : gmap Z messages.Sign1Payload;
  readyForNextRound : bool;
}.

(** The loop of [CanProcess] over [round.Parties]: [false] when the loop
    returns [false], [true] when it runs to its end. *)
Fixpoint CanProcess_loop (round : base) (order : list Z) : bool :=
  match order with
  | [] => true
  | id :: rest =>
      if decide (id = PartySelf round) then CanProcess_loop round rest
      else
        match msgs1 round !! id with
        | None => false
        | Some _ => CanProcess_loop round rest
        end
  end.

Definition CanProcess (order : list Z) (round : base) : bool :=
  if readyForNextRound round then false
  else if decide (Z.of_nat (size (msgs1 round))
                  = Z.of_nat (length (AllParties round)) - 1)
  then (if CanProcess_loop round order then true else false)
  else true.

(** One iteration of the loop of [ProcessMessages]; the state is
    [(round.Parties, round.msgs1)].  [range] only yields keys of the map. *)
Definition ProcessMessages_step (self : Z) (id : Z)
    (st : gmap Z Party * gmap Z messages.Sign1Payload)
  : outcome (gmap Z Party * gmap Z messages.Sign1Payload) :=
  match st.1 !! id with
  | None => Return st
  | Some party =>
      if decide (id ≠ self) then
        match st.2 !! id with
        | None => Panic "nil pointer dereference"
        | Some m =>
            Return (<[id := set_Di_Ei (messages.Di m) (messages.Ei m) party]>
                      st.1,
                    delete id st.2)
        end
      else Return st
  end.

Definition with_Parties_msgs1 (ps : gmap Z Party)
    (ms : gmap Z messages.Sign1Payload) (round : base) : base :=
  {| PartySelf := PartySelf round; AllParties := AllParties round;
     Parties := ps; Secret := Secret round; Y := Y round; R := R round;
     C := C round; d := d round; e := e round; Message := Message round;
     msgs1 := ms; readyForNextRound := readyForNextRound round |}.

Definition ProcessMessages (order : list Z) (round : base)
  : outcome (base * option error) :=
  st ← for_range (ProcessMessages_step (PartySelf round)) order
                 (Parties round, msgs1 round);
  Return (with_Parties_msgs1 st.1 st.2 round, None).

(** One iteration of the loop that fills [buffer] with the triples
    [(i, D_i, E_i)]; looking up an absent party yields a nil pointer. *)
Definition B_step (parties : gmap Z Party) (id : Z) (buffer : list Z)
  : outcome (list Z) :=
  match parties !! id with
  | None => Panic "nil pointer dereference"
  | Some party =>
      Return (buffer ++ BigEndian_PutUint32 id
                     ++ Point_Bytes (Di party) ++ Point_Bytes (Ei party))
  end.

Definition compute_B (allParties : list Z) (parties : gmap Z Party)
  : outcome (list Z) :=
  for_range (B_step parties) allParties [].

(** What is written to the hash [h] for party [id]. *)
Definition rho_input (message B : list Z) (id : Z) : list Z :=
  bytes_of_string "FROST-SHA512" ++ BigEndian_PutUint32 id ++ message ++ B.

(** One iteration of the loop over [round.Parties]; the state is
    [(round.Parties, round.R)]. *)
Definition rho_step (message B : list Z) (id : Z)
    (st : gmap Z Party * Point) : outcome (gmap Z Party * Point) :=
  match st.1 !! id with
  | None => Return st
  | Some party =>
      rho ← SetUniformBytes (sha512_Sum (rho_input message B id));
      let Rp := ScalarMult rho (Ei party) in
      let Rp := Point_Add Rp (Di party) in
      Return (<[id := set_Pi_Ri rho Rp party]> st.1, Point_Add st.2 Rp)
  end.

(** [z = d + (e • ρ) + 𝛌 • s • c], as the four calls compute it. *)
Definition compute_z (selfParty : Party) (secret c e d : Scalar) : Scalar :=
  let z := Multiply (Lagrange selfParty) secret in
  let z := Multiply z c in
  let z := MultiplyAdd e (Pi selfParty) z in
  Add z d.

Definition finish_round (ps : gmap Z Party) (Rsum : Point) (c : Scalar)
    (round : base) : base :=
  {| PartySelf := PartySelf round; AllParties := AllParties round;
     Parties := ps; Secret := Secret round; Y := Y round; R := Rsum;
     C := c; d := d round; e := e round; Message := Message round;
     msgs1 := msgs1 round; readyForNextRound := true |}.

(** [ProcessRound]; [order1] and [order2] are the orders in which the two
    loops over the map [round.Parties] visit its keys. *)
Definition ProcessRound (order1 order2 : list Z) (round : base)
  : outcome (base * list messages.Message * option error) :=
  if readyForNextRound round then Return (round, [], Some frost.ErrRoundProcessed)
  else
    r ← ProcessMessages order1 round;
    match r.2 with
    | Some err => Return (r.1, [], Some err)
    | None =>
        let round := r.1 in
        B ← compute_B (AllParties round) (Parties round);
        st ← for_range (rho_step (Message round) B) order2
                       (Parties round, NewIdentityPoint);
        match st.1 !! PartySelf round with
        | None => Panic "nil pointer dereference"
        | Some selfParty =>
            c ← eddsa.ComputeChallenge (Message round) (Y round) st.2;
            let z := compute_z selfParty (Secret round) c (e round) (d round) in
            let ps := <[PartySelf round := set_Zi z selfParty]> st.1 in
            let msg := messages.NewSign2 (PartySelf round) z in
            Return (finish_round ps st.2 c round, [msg], None)
        end
    end.

Definition set_readyForNextRound (v : bool) (round : base) : base :=
  {| PartySelf := PartySelf round; AllParties := AllParties round;
     Parties := Parties round; Secret := Secret round; Y := Y round;
     R := R round; C := C round; d := d round; e := e round;
     Message := Message round; msgs1 := msgs1 round;
     readyForNextRound := v |}.

(** [NextRound]: the round to continue with, and whether it is [round2]. *)
Definition NextRound (round : base) : base * bool :=
  if readyForNextRound round then (set_readyForNextRound false round, true)
  else (round, false).

End Round1.

End sign.

(** ** Package [sign], the revision of [round1.go] that reads the message
    queue *)

Module sign_queue.
Import edwards25519 sign.

Section Round1.
Context `{Curve} `{Sha512} `{Q : messages.QueueAPI messages.Message}.

(** The fields of [base] that this revision uses. *)
Record base : Type := {
  PartySelf : Z;
  AllParties : list Z;
  Parties : gmap Z Party;
  Secret : Scalar;
  Y : Point;
  R : Point;
  C : Scalar;
  d : Scalar;
  e : Scalar;
  Message : list Z;
  messages_ : messages.Queue;
  messagesProcessed : bool;
  roundProcessed : bool;
}.

Definition with_Parties (ps : gmap Z Party) (round : base) : base :=
  {| PartySelf := PartySelf round; AllParties := AllParties round;
     Parties := ps; Secret := Secret round; Y := Y round; R := R round;
     C := C round; d := d round; e := e round; Message := Message round;
     messages_ := messages_ round;
     messagesProcessed := messagesProcessed round;
     roundProcessed := roundProcessed round |}.

Definition with_flags (q : messages.Queue) (mp rp : bool) (round : base)
  : base :=
  {| PartySelf := PartySelf round; AllParties := AllParties round;
     Parties := Parties round; Secret := Secret round; Y := Y round;
     R := R round; C := C round; d := d round; e := e round;
     Message := Message round; messages_ := q;
     messagesProcessed := mp; roundProcessed := rp |}.

(** One iteration of the loop of [ProcessMessages] over
    [round.AllParties]. *)
Definition ProcessMessages_step (self : Z)
    (msgs : gmap Z messages.Message) (id : Z) (ps : gmap Z Party)
  : outcome (gmap Z Party) :=
  if decide (id = self) then Return ps
  else
    match ps !! id, msgs !! id with
    | Some party, Some m =>
        match messages.Sign1 m with
        | Some s =>
            Return (<[id := set_Di_Ei (messages.Di s) (messages.Ei s) party]>
                      ps)
        | None => Panic "nil pointer dereference"
        end
    | _, _ => Panic "nil pointer dereference"
    end.

Definition ProcessMessages (round : base) : outcome (base * option error) :=
  if messagesProcessed round then Return (round, None)
  else
    let msgs := messages.Messages (messages_ round) in
    ps ← for_range (ProcessMessages_step (PartySelf round) msgs)
                   (AllParties round) (Parties round);
    Return (with_flags (messages.NextRound (messages_ round)) true
                       (roundProcessed round) (with_Parties ps round),
            None).

Definition finish_round (ps : gmap Z Party) (Rsum : Point) (c : Scalar)
    (round : base) : base :=
  {| PartySelf := PartySelf round; AllParties := AllParties round;
     Parties := ps; Secret := Secret round; Y := Y round; R := Rsum;
     C := c; d := d round; e := e round; Message := Message round;
     messages_ := messages_ round;
     messagesProcessed := messagesProcessed round;
     roundProcessed := true |}.

(** [ProcessRound]; [order] is the order in which the loop over the map
    [round.Parties] visits its keys. *)
Definition ProcessRound (order : list Z) (round : base)
  : outcome (base * option error) :=
  if roundProcessed round then Return (round, Some frost.ErrRoundProcessed)
  else
    B ← compute_B (AllParties round) (Parties round);
    st ← for_range (rho_step (Message round) B) order
                   (Parties round, NewIdentityPoint);
    c ← eddsa.ComputeChallenge (Message round) (Y round) st.2;
    match st.1 !! PartySelf round with
    | None => Panic "nil pointer dereference"
    | Some selfParty =>
        let z := compute_z selfParty (Secret round) c (e round) (d round) in
        let ps := <[PartySelf round := set_Zi z selfParty]> st.1 in
        Return (finish_round ps st.2 c round, None)
    end.

Definition GenerateMessages (round : base)
  : outcome (list messages.Message * option error) :=
  if negb (roundProcessed round && messagesProcessed round) then
    Return ([], Some frost.ErrRoundNotProcessed)
  else
    match Parties round !! PartySelf round with
    | None => Panic "nil pointer dereference"
    | Some selfParty =>
        Return ([messages.NewSign2 (PartySelf round) (Zi selfParty)], None)
    end.

(** [NextRound]: the round to continue with, and whether it is [round2]. *)
Definition NextRound (round : base) : base * bool :=
  if roundProcessed round && messagesProcessed round then
    (with_flags (messages_ round) false false round, true)
  else (round, false).

End Round1.

End sign_queue.

(** ** A concrete group and digest to run the code on

    The prime-order subgroup is cyclic of order [ell]: a point is
    represented by its discrete logarithm to the base point, so that
    [[s]B] is [s] and adding points adds logarithms.  The digest pads or
    cuts its input to 64 bytes; it stands in for SHA-512 where a concrete
    run is evaluated. *)

Module DLog.
Import edwards25519.

Definition add (p q : Z) : Z := (p + q) mod ell.
Definition mult (s p : Z) : Z := (s * p) mod ell.
Definition base_mult (s : Z) : Z := s mod ell.

(** 32 bytes, little-endian. *)
Fixpoint le_bytes (n : nat) (v : Z) : list Z :=
  match n with
  | O => []
  | S n' => v mod 256 :: le_bytes n' (v / 256)
  end.

Lemma add_comm p q : add p q = add q p.
Proof. unfold add. by rewrite Z.add_comm. Qed.

Lemma add_assoc p q r : add p (add q r) = add (add p q) r.
Proof.
  unfold add.
  rewrite Z.add_mod_idemp_r, Z.add_mod_idemp_l by done.
  by rewrite Z.add_assoc.
Qed.

#[export] Instance curve : Curve := {|
  Point := Z;
  Point_eq_dec := Z.eq_dec;
  NewIdentityPoint := 0;
  Point_Add := add;
  ScalarMult := mult;
  ScalarBaseMult := base_mult;
  Point_Bytes := le_bytes 32;
  Point_Add_comm := add_comm;
  Point_Add_assoc := add_assoc;
|}.

Definition pad64 (m : list Z) : list Z := take 64 (m ++ replicate 64 0).

Lemma pad64_length m : length (pad64 m) = 64%nat.
Proof.
  unfold pad64. rewrite length_take, length_app, length_replicate. lia.
Qed.

#[export] Instance digest : Sha512 := {|
  sha512_Sum := pad64;
  sha512_Sum_length := pad64_length;
|}.

End DLog.

(** * Vocabulary of the statements *)

(** ** Errors and the round life cycle *)

(** The text of the operand of [%w]. *)
Definition operand_text (err : option error) : string :=
  match err with
  | Some e => Error e
  | None => "%!w(<nil>)"
  end.

(** [e2] keeps the text of [e1] and may add to it. *)
Definition extends (e1 e2 : error) : Prop :=
  ∃ suffix, Error e2 = Error e1 +:+ suffix.

(** The call failed. *)
Definition failed {A} (r : A + error) : Prop := ∃ err, r = inr err.

Section RoundsVocabulary.
Import rounds.
Context {Msg : Type} `{Q : messages.QueueAPI Msg}.

(** The channel [done] is closed as soon as the state is [Abort] or
    [Finished], or an error is recorded. *)
Definition done_inv (b : BaseRound) : Prop :=
  state b = Abort_ ∨ state b = Finished ∨ finalError b ≠ None →
  done b = ChanClosed.

End RoundsVocabulary.

(** ** Signing, round 1 *)

Section SignVocabulary.
Import edwards25519 sign.
Context `{Curve} `{Sha512}.

(** The scalar [SetUniformBytes] makes of a digest. *)
Definition hash_to_scalar (input : list Z) : Scalar :=
  le_value (sha512_Sum input) mod ell.

(** [ρᵢ], as a function of the message, of [B] and of the ID. *)
Definition rho (message B : list Z) (id : Z) : Scalar :=
  hash_to_scalar (rho_input message B id).

(** The party [id] after its iteration of the loop. *)
Definition bind_party (message B : list Z) (id : Z) (party : Party) : Party :=
  set_Pi_Ri (rho message B id)
    (Point_Add (ScalarMult (rho message B id) (Ei party)) (Di party)) party.

(** The triple [(i, D_i, E_i)] as bytes. *)
Definition triple (parties : gmap Z Party) (id : Z) : list Z :=
  match parties !! id with
  | Some party =>
      BigEndian_PutUint32 id ++ Point_Bytes (Di party) ++ Point_Bytes (Ei party)
  | None => []
  end.

(** [Σ] of a list of points. *)
Definition sum_points (ps : list Point) : Point :=
  foldr Point_Add NewIdentityPoint ps.

(** [Rᵢ] as stored for party [id], the identity for an absent party. *)
Definition Ri_of (parties : gmap Z Party) (id : Z) : Point :=
  match parties !! id with
  | Some party => Ri party
  | None => NewIdentityPoint
  end.

(** All the parties after the loop over the map. *)
Definition bound_parties (message B : list Z) (parties : gmap Z Party)
  : gmap Z Party :=
  map_imap (λ id party, Some (bind_party message B id party)) parties.

(** The parties, [R] and [c] at the end of [ProcessRound], in closed
    form. *)
Definition round1_B (all : list Z) (parties : gmap Z Party) : list Z :=
  concat (triple parties <$> all).

Definition round1_R (all : list Z) (parties : gmap Z Party)
    (message : list Z) : Point :=
  sum_points
    (Ri_of (bound_parties message (round1_B all parties) parties)
     <$> (map_to_list parties).*1).

Definition round1_c (all : list Z) (parties : gmap Z Party)
    (message : list Z) (Ykey : Point) : Scalar :=
  hash_to_scalar (Point_Bytes (round1_R all parties message)
                  ++ Point_Bytes Ykey ++ message).

Definition round1_parties (all : list Z) (parties : gmap Z Party)
    (message : list Z) (Ykey : Point) (self : Z) (secret e_ d_ : Scalar)
  : gmap Z Party :=
  let ps := bound_parties message (round1_B all parties) parties in
  match ps !! self with
  | Some selfParty =>
      <[self := set_Zi (compute_z selfParty secret
                          (round1_c all parties message Ykey) e_ d_)
                       selfParty]> ps
  | None => ps
  end.

(** The statement of round 1.  From the signer list [all], the parties
    [parties] with their nonce points, the message, the group key [Ykey],
    the local ID [self] and the local secrets, the round computes the
    parties [parties'], the point [R'] and the challenge [c'] such that:
    [B] is the concatenation over [all], in its order, of
    [ID_i (4 bytes, big-endian) ‖ D_i ‖ E_i]; for every party [i],
    [ρ_i = SetUniformBytes(SHA-512("FROST-SHA512" ‖ ID_i ‖ M ‖ B))] and
    [R_i = D_i + [ρ_i]E_i]; [R'] is the sum of the [R_i] over the parties;
    [c'] is the challenge of [(R', Y, M)]; and the response of [self] is
    [d + ρ_self·e + λ_self·s·c'] modulo [ell]. *)
Definition round1_computes (all : list Z) (parties : gmap Z Party)
    (message : list Z) (Ykey : Point) (self : Z) (secret e_ d_ : Scalar)
    (parties' : gmap Z Party) (R' : Point) (c' : Scalar) : Prop :=
  let B := concat (triple parties <$> all) in
  compute_B all parties = Return B
  ∧ (∀ i party,
       parties !! i = Some party →
       ∃ party',
         parties' !! i = Some party'
         ∧ SetUniformBytes
             (sha512_Sum (bytes_of_string "FROST-SHA512"
                          ++ BigEndian_PutUint32 i ++ message ++ B))
           = Return (Pi party')
         ∧ Ri party' = Point_Add (Di party) (ScalarMult (Pi party') (Ei party))
         ∧ Di party' = Di party ∧ Ei party' = Ei party
         ∧ Lagrange party' = Lagrange party)
  ∧ (∀ i, parties !! i = None → parties' !! i = None)
  ∧ (∀ ids, NoDup ids → (∀ i, i ∈ ids ↔ is_Some (parties !! i)) →
            R' = sum_points (Ri_of parties' <$> ids))
  ∧ eddsa.ComputeChallenge message Ykey R' = Return c'
  ∧ ∃ self',
      parties' !! self = Some self'
      ∧ Zi self'
        = (d_ + Pi self' * e_ + Lagrange self' * secret * c') mod ell.

(** Party [i] after [ProcessMessages]: a peer takes the nonce points of
    its [Sign1] message, the local party keeps its own. *)
Definition receive (self : Z) (ms : gmap Z messages.Sign1Payload) (i : Z)
    (party : Party) : Party :=
  if decide (i = self) then party
  else
    match ms !! i with
    | Some m => set_Di_Ei (messages.Di m) (messages.Ei m) party
    | None => party
    end.

Definition received_parties (round : base) : gmap Z Party :=
  map_imap (λ i party, Some (receive (PartySelf round) (msgs1 round) i party))
           (Parties round).

(** The messages left: those of the peers have been deleted. *)
Definition remaining_msgs1 (round : base) : gmap Z messages.Sign1Payload :=
  filter (λ kv, Parties round !! kv.1 = None ∨ kv.1 = PartySelf round)
         (msgs1 round).

(** [Zᵢ] as stored for party [id]. *)
Definition Zi_of (parties : gmap Z Party) (id : Z) : Scalar :=
  match parties !! id with
  | Some party => Zi party
  | None => NewScalar
  end.

(** The nonce points [(D_i, E_i)] of party [i], when there is one. *)
Definition nonce_points (parties : gmap Z Party) (i : Z)
  : option (Point * Point) :=
  (λ party, (Di party, Ei party)) <$> parties !! i.

End SignVocabulary.

Section RunsVocabulary.
Import edwards25519.
Context `{Curve} `{Sha512} `{Q : messages.QueueAPI messages.Message}.

(** A round that [ProcessRound] can process, with the order in which the
    loop over the map of parties visits its keys. *)
Definition queue_round_ready (order : list Z) (round : sign_queue.base)
  : Prop :=
  sign_queue.roundProcessed round = false
  ∧ order ≡ₚ (map_to_list (sign_queue.Parties round)).*1
  ∧ (∀ i, i ∈ sign_queue.AllParties round →
          is_Some (sign_queue.Parties round !! i))
  ∧ is_Some (sign_queue.Parties round !! sign_queue.PartySelf round).

(** The same for [round1.go], which loops twice over the map and takes the
    peers' nonce points from their messages. *)
Definition direct_round_ready (order1 order2 : list Z) (round : sign.base)
  : Prop :=
  sign.readyForNextRound round = false
  ∧ order1 ≡ₚ (map_to_list (sign.Parties round)).*1
  ∧ order2 ≡ₚ (map_to_list (sign.Parties round)).*1
  ∧ (∀ i, i ∈ sign.AllParties round → is_Some (sign.Parties round !! i))
  ∧ is_Some (sign.Parties round !! sign.PartySelf round)
  ∧ (∀ i, is_Some (sign.Parties round !! i) → i ≠ sign.PartySelf round →
          is_Some (sign.msgs1 round !! i)).

End RunsVocabulary.

(** ** Concrete runs on the group [DLog] *)

(** The mailbox of [messages.Message] values over the group [DLog]. *)
Definition DLog_queue : messages.QueueAPI (@messages.Message DLog.curve) :=
  messages.MailboxQueue messages.Type_ messages.From.

Section Examples.
#[local] Existing Instance DLog.curve.
#[local] Existing Instance DLog.digest.
#[local] Existing Instance DLog_queue.

(** A run on the group [DLog]: party 1 holds its own commitment
    [[7]B, [4]B] and the commitment [[5]B, [3]B] of party 2, that is of
    the polynomial [5 + 3x], whose share for party 1 is 8. *)
Definition example_round2 : keygen.round2 (H := DLog.curve) :=
  {| keygen.BaseRound :=
       {| state.selfID := 1; state.partySet := {| party.slice := [1; 2] |} |};
     keygen.Threshold := 1;
     keygen.Secret := 11;
     keygen.Commitments :=
       <[1 := {| polynomial.coefficients := [7; 4] |}]>
         {[ 2 := {| polynomial.coefficients := [5; 3] |} ]};
     keygen.CommitmentsSum := {| polynomial.coefficients := [12; 7] |};
     keygen.Output_ := {| keygen.Public := None; keygen.SecretKey := None |}
  |}.


Definition example_KeyGen2 (share : Z) : messages.Message (H := DLog.curve) :=
  {| messages.Type_ := messages.MessageTypeKeyGen2;
     messages.From := 2;
     messages.KeyGen2 := Some {| messages.Share := share |};
     messages.Sign1 := None;
     messages.Sign2 := None |}.

Definition example_party1 : sign.Party :=
  {| sign.Lagrange := 2; sign.Pi := 0; sign.Zi := 0;
     sign.Di := 10; sign.Ei := 20; sign.Ri := 0 |}.

Definition example_party2 : sign.Party :=
  {| sign.Lagrange := edwards25519.ell - 1; sign.Pi := 0; sign.Zi := 0;
     sign.Di := 30; sign.Ei := 40; sign.Ri := 0 |}.

Definition example_parties : gmap Z sign.Party :=
  <[1 := example_party1]> {[ 2 := example_party2 ]}.

(** The local party is 1, its nonces are [d = 5] and [e = 6], the message
    is "hi". *)
Definition example_sign_queue : sign_queue.base :=
  {| sign_queue.PartySelf := 1;
     sign_queue.AllParties := [1; 2];
     sign_queue.Parties := example_parties;
     sign_queue.Secret := 7;
     sign_queue.Y := 99;
     sign_queue.R := 0;
     sign_queue.C := 0;
     sign_queue.d := 5;
     sign_queue.e := 6;
     sign_queue.Message := [104; 105];
     sign_queue.messages_ :=
       {| messages.peers := {[ 2 := true ]}; messages.accepted := [];
          messages.current := ∅; messages.future := [] |};
     sign_queue.messagesProcessed := true;
     sign_queue.roundProcessed := false |}.

(** The same session in [round1.go], with the [Sign1] messages in
    [msgs1]: both peers' when [received] is [true], none otherwise. *)
Definition example_sign (received : bool) : sign.base :=
  {| sign.PartySelf := 1;
     sign.AllParties := [1; 2; 3];
     sign.Parties := <[3 := example_party2]> example_parties;
     sign.Secret := 7;
     sign.Y := 99;
     sign.R := 0;
     sign.C := 0;
     sign.d := 5;
     sign.e := 6;
     sign.Message := [104; 105];
     sign.msgs1 :=
       if received then
         <[2 := {| messages.Di := 30; messages.Ei := 40 |}]>
           {[ 3 := {| messages.Di := 50; messages.Ei := 60 |} ]}
       else ∅;
     sign.readyForNextRound := false |}.

(** The session of the example as party 2 sees it: its own secrets, and
    the same nonce points. *)
Definition example_parties_of_2 : gmap Z sign.Party :=
  <[1 := {| sign.Lagrange := 2; sign.Pi := 3; sign.Zi := 4;
            sign.Di := 10; sign.Ei := 20; sign.Ri := 5 |}]>
    {[ 2 := example_party2 ]}.

Definition example_sign_queue_of_2 : sign_queue.base :=
  {| sign_queue.PartySelf := 2;
     sign_queue.AllParties := [1; 2];
     sign_queue.Parties := example_parties_of_2;
     sign_queue.Secret := 8;
     sign_queue.Y := 99;
     sign_queue.R := 0;
     sign_queue.C := 0;
     sign_queue.d := 9;
     sign_queue.e := 11;
     sign_queue.Message := [104; 105];
     sign_queue.messages_ :=
       {| messages.peers := {[ 1 := true ]}; messages.accepted := [];
          messages.current := ∅; messages.future := [] |};
     sign_queue.messagesProcessed := true;
     sign_queue.roundProcessed := false |}.

End Examples.

(** ** Further vocabulary: the round life cycle *)

Section LifeCycleVocabulary.
Import rounds.
Context {Msg : Type} `{Q : messages.QueueAPI Msg}.

(** The state is one of the six named states. *)
Definition named_state (s : RoundState) : Prop :=
  s = ProcessMessages ∨ s = ProcessRound ∨ s = GenerateMessages
  ∨ s = NextRound ∨ s = Finished ∨ s = Abort_.

(** The round is over: finished or aborted. *)
Definition terminal (b : BaseRound) : Prop :=
  state b = Finished ∨ state b = Abort_.

(** What holds of every round that the methods are called on after
    [NewBaseRound]: the state is a named one, and [done] is closed exactly
    when the round is over. *)
Definition life_cycle_inv (b : BaseRound) : Prop :=
  named_state (state b)
  ∧ (done b = ChanClosed ↔ terminal b)
  ∧ (finalError b ≠ None → state b = Abort_).

(** A call of [PrepareNextRound] that answered [true]. *)
Definition is_advance (x : @call Msg * BaseRound * reply) : bool :=
  match x.1.1, x.2 with
  | CallPrepareNextRound, ReplyBool true => true
  | _, _ => false
  end.

(** The state in which a predicate grants its step. *)
Definition state_of_Can (c : @call Msg) : RoundState :=
  match c with
  | CallCanProcessMessages => ProcessMessages
  | CallCanProcessRound => ProcessRound
  | _ => GenerateMessages
  end.

End LifeCycleVocabulary.

(** ** Further examples on the group [DLog] *)

Section FurtherExamples.
#[local] Existing Instance DLog.curve.
#[local] Existing Instance DLog.digest.
#[local] Existing Instance DLog_queue.

(** A session of two signers in [round1.go] in which the nonce points of
    the local party 1 are those of its nonces, [D₁ = [5]B] and
    [E₁ = [6]B], and the [Sign1] message of party 2 has arrived. *)
Definition example_signer_party : sign.Party :=
  {| sign.Lagrange := 2; sign.Pi := 0; sign.Zi := 0;
     sign.Di := 5; sign.Ei := 6; sign.Ri := 0 |}.

Definition example_signer : sign.base :=
  {| sign.PartySelf := 1;
     sign.AllParties := [1; 2];
     sign.Parties :=
       <[1 := example_signer_party]> {[ 2 := example_party2 ]};
     sign.Secret := 7;
     sign.Y := 99;
     sign.R := 0;
     sign.C := 0;
     sign.d := 5;
     sign.e := 6;
     sign.Message := [104; 105];
     sign.msgs1 := {[ 2 := {| messages.Di := 30; messages.Ei := 40 |} ]};
     sign.readyForNextRound := false |}.

(** The session of [example_sign_queue] before the messages are
    processed: the queue holds the [Sign1] message of party 2. *)
Definition example_Sign1_payload : messages.Sign1Payload :=
  {| messages.Di := 31; messages.Ei := 41 |}.

Definition example_Sign1 : messages.Message :=
  {| messages.Type_ := messages.MessageTypeSign1;
     messages.From := 2;
     messages.KeyGen2 := None;
     messages.Sign1 := Some example_Sign1_payload;
     messages.Sign2 := None |}.

Definition example_sign_queue_start : sign_queue.base :=
  {| sign_queue.PartySelf := 1;
     sign_queue.AllParties := [1; 2];
     sign_queue.Parties := example_parties;
     sign_queue.Secret := 7;
     sign_queue.Y := 99;
     sign_queue.R := 0;
     sign_queue.C := 0;
     sign_queue.d := 5;
     sign_queue.e := 6;
     sign_queue.Message := [104; 105];
     sign_queue.messages_ :=
       {| messages.peers := {[ 2 := true ]};
          messages.accepted :=
            [messages.MessageTypeSign1; messages.MessageTypeSign2];
          messages.current := {[ 2 := example_Sign1 ]};
          messages.future := [] |};
     sign_queue.messagesProcessed := false;
     sign_queue.roundProcessed := false |}.

End FurtherExamples.

(** ** Further vocabulary: key generation, round 2 *)

Section KeygenVocabulary.
Import edwards25519.
Context `{Curve}.

(** The share that a [KeyGen2] message carries. *)
Definition share_of (msg : messages.Message) : Scalar :=
  match messages.KeyGen2 msg with
  | Some payload => messages.Share payload
  | None => NewScalar
  end.

(** The message is a [KeyGen2] message whose share passes the check of
    [ProcessMessage] in [round]. *)
Definition valid_share (round : keygen.round2) (msg : messages.Message)
  : Prop :=
  ∃ payload commitment,
    messages.KeyGen2 msg = Some payload
    ∧ keygen.Commitments round !! messages.From msg = Some commitment
    ∧ ScalarBaseMult (messages.Share payload)
      = polynomial.Evaluate commitment
          (state.SelfID (keygen.BaseRound round)).

(** [ProcessMessage] called on the messages of a list in turn, up to the
    first one that is refused: the round and the messages after the
    calls, and the error of the refusal. *)
Fixpoint process_shares (round : keygen.round2)
    (msgs : list messages.Message)
  : outcome (keygen.round2 * list messages.Message * option state.Error) :=
  match msgs with
  | [] => Return (round, [], None)
  | msg :: rest =>
      r ← keygen.ProcessMessage round msg;
      match r.2 with
      | Some err => Return (r.1.1, r.1.2 :: rest, Some err)
      | None =>
          r' ← process_shares r.1.1 rest;
          Return (r'.1.1, r.1.2 :: r'.1.2, r'.2)
      end
  end.

End KeygenVocabulary.


(** ** Further vocabulary: lists of IDs *)

(** How many times [id] occurs in [ids]. *)
Definition occurrences (id : Z) (ids : list Z) : nat :=
  length (filter (λ x, x = id) ids).

(** What the loop has built once it has read the IDs [read]. *)
Definition collected (self : Z) (read : list Z)
    (st : bool * list Z * gmap Z bool) : Prop :=
  st.1.1 = bool_decide (self ∈ read)
  ∧ (st.1.2 `sublist_of` read)
  ∧ (∀ id, occurrences id st.1.2
           = if decide (id = self) then Nat.min 2 (occurrences id read)
             else Nat.min 1 (occurrences id read))
  ∧ (∀ id, st.2 !! id
           = if decide ((id ≠ self ∧ id ∈ read)
                        ∨ (id = self ∧ (2 ≤ occurrences self read)%nat))
             then Some true else None)
  ∧ length st.1.2
    = (size st.2 + if st.1.1 then 1 else 0)%nat.

(** * Properties *)

Section PartyFacts.
Import edwards25519 party.

Lemma uint8_mod x : uint8 x = x mod 256.
Proof. unfold uint8. change 255 with (Z.ones 8). by rewrite Z.land_ones. Qed.

Lemma uint16_id x : is_uint16 x → uint16 x = x.
Proof.
  intros Hx. unfold uint16. change 65535 with (Z.ones 16).
  rewrite Z.land_ones by lia. apply Z.mod_small. exact Hx.
Qed.

Lemma scalarBytes_eq (p : ID) :
  is_uint16 p →
  scalarBytes p = Return (p mod 256 :: p / 256 :: replicate 30 0).
Proof.
  intros Hp. unfold scalarBytes. rewrite (uint16_id p Hp).
  unfold LittleEndian_PutUint16. simpl.
  rewrite !uint8_mod, Z.shiftr_div_pow2 by lia.
  change (2 ^ 8) with 256.
  rewrite (Z.mod_small (p / 256)); [done|].
  unfold is_uint16 in Hp. split; [apply Z.div_pos; lia|].
  apply Z.div_lt_upper_bound; lia.
Qed.

Lemma le_value_scalarBytes (p : ID) :
  le_value (p mod 256 :: p / 256 :: replicate 30 0) = p.
Proof. simpl. pose proof (Z.div_mod p 256). lia. Qed.

Lemma ell_above_uint16 (p : ID) : is_uint16 p → p < ell.
Proof.
  unfold is_uint16, ell. intros Hp.
  assert (0 < 2 ^ 252) by (apply Z.pow_pos_nonneg; lia). lia.
Qed.

Lemma SetCanonicalBytes_scalarBytes (p : ID) :
  is_uint16 p →
  SetCanonicalBytes (p mod 256 :: p / 256 :: replicate 30 0) = inl p.
Proof.
  intros Hp. unfold SetCanonicalBytes. rewrite le_value_scalarBytes.
  destruct (decide _) as [Hlen|_]; [by simpl in Hlen|].
  rewrite decide_True; [done|]. by apply ell_above_uint16.
Qed.

(** [setScalar] returns, and the scalar is the ID. *)
Lemma setScalar_returns (p : ID) : is_uint16 p → setScalar p = Return p.
Proof.
  intros Hp. unfold setScalar. rewrite (scalarBytes_eq p Hp).
  change (mbind ?f (Return ?x)) with (f x). cbv beta.
  by rewrite SetCanonicalBytes_scalarBytes.
Qed.

Lemma Scalar_returns (p : ID) : is_uint16 p → party.Scalar p = Return p.
Proof. apply setScalar_returns. Qed.

End PartyFacts.

(** C10.  For every party ID (an unsigned 16-bit integer) the 32 bytes that
    [setScalar] builds are the little-endian encoding of the ID itself,
    zero padded, which is below the group order; hence [SetCanonicalBytes]
    accepts them, the panic branch is not taken, and [ID.Scalar] returns
    the scalar whose value is the ID. *)
Theorem C10_ID_Scalar_total (p : party.ID) :
  is_uint16 p →
  (∃ bytes, party.scalarBytes p = Return bytes
            ∧ length bytes = 32%nat
            ∧ le_value bytes = p
            ∧ le_value bytes < edwards25519.ell
            ∧ edwards25519.SetCanonicalBytes bytes = inl p)
  ∧ party.setScalar p = Return p
  ∧ party.Scalar p = Return p.
Proof.
  intros Hp. split; [|split].
  - eexists. split; [by apply scalarBytes_eq|].
    rewrite le_value_scalarBytes.
    split; [done|]. split; [done|].
    split; [by apply ell_above_uint16|].
    by apply SetCanonicalBytes_scalarBytes.
  - by apply setScalar_returns.
  - by apply Scalar_returns.
Qed.

Lemma C10_ID_Scalar_total_witness :
  party.Scalar 65535 = Return 65535.
Proof.
  apply (C10_ID_Scalar_total 65535). unfold is_uint16. lia.
Defined.

(** ** The round life cycle of [base.go] *)

Section RoundsFacts.
Import rounds.
Context {Msg : Type} `{Q : messages.QueueAPI Msg}.

Lemma close_done_closed (b : BaseRound) : done (close_done b).1 = ChanClosed.
Proof. unfold close_done. by destruct (done b) eqn:E. Qed.

Lemma close_done_state (b : BaseRound) : state (close_done b).1 = state b.
Proof. unfold close_done. by destruct (done b). Qed.

Lemma close_done_finalError (b : BaseRound) :
  finalError (close_done b).1 = finalError b.
Proof. unfold close_done. by destruct (done b). Qed.

Lemma Abort_state culprit err (b : BaseRound) :
  state (Abort culprit err b).1 = Abort_.
Proof.
  unfold Abort. cbn [finalError set_state].
  destruct (finalError b); [done|]. by rewrite close_done_state.
Qed.

(** In state [Abort] no call changes the state, and the three predicates
    answer [false]. *)
Lemma exec_in_Abort (c : call) (b : BaseRound) :
  state b = Abort_ →
  state (exec c b).1 = Abort_
  ∧ (is_Can c = true → (exec c b).2 = ReplyBool false).
Proof.
  intros Hb. destruct c; cbn [exec is_Can fst snd].
  - unfold PrepareNextRound. rewrite Hb. by split.
  - split; [apply Abort_state|done].
  - unfold Finish. rewrite Hb. by split.
  - unfold CanProcessMessages. rewrite Hb.
    destruct (isProcessingStep b); by split.
  - unfold CanProcessRound. rewrite Hb.
    destruct (isProcessingStep b); by split.
  - unfold CanGenerateMessages. rewrite Hb.
    destruct (isProcessingStep b); by split.
  - unfold NextStep. rewrite Hb. by split.
  - unfold StoreMessage. destruct (messages.Store _ _). by split.
Qed.

Lemma run_in_Abort (cs : list call) (b : BaseRound) :
  state b = Abort_ →
  Forall (λ x, state x.1.2 = Abort_
               ∧ (is_Can x.1.1 = true → x.2 = ReplyBool false))
         (run cs b)
  ∧ state (after cs b) = Abort_.
Proof.
  revert b. induction cs as [|c cs IH]; intros b Hb.
  - by split.
  - cbn [run after foldl].
    destruct (exec_in_Abort c b Hb) as [Hs Hr].
    destruct (IH _ Hs) as [IH1 IH2].
    split; [|exact IH2].
    constructor; [by split|exact IH1].
Qed.

End RoundsFacts.

(** C5.  Abort is sticky.  Whatever the receiver was, after [Abort] the
    state is [Abort]; and for every sequence of later calls, after each of
    them the state is still [Abort] (so [NextStep] leaves it there and
    [Finish] does not move it to [Finished]), and every call of
    [CanProcessMessages], [CanProcessRound] and [CanGenerateMessages]
    answers [false]. *)
Theorem C5_abort_is_sticky {Msg : Type} `{Q : messages.QueueAPI Msg}
    (b : rounds.BaseRound) (culprit : Z) (err : option error)
    (cs : list rounds.call) :
  rounds.state (rounds.Abort culprit err b).1 = rounds.Abort_
  ∧ Forall (λ x, rounds.state x.1.2 = rounds.Abort_
                 ∧ (rounds.is_Can x.1.1 = true → x.2 = rounds.ReplyBool false))
           (rounds.run cs (rounds.Abort culprit err b).1)
  ∧ rounds.state (rounds.after cs (rounds.Abort culprit err b).1)
    = rounds.Abort_
  ∧ rounds.state (rounds.NextStep (rounds.Abort culprit err b).1)
    = rounds.Abort_
  ∧ rounds.state (rounds.Finish (rounds.Abort culprit err b).1).1
    = rounds.Abort_
  ∧ rounds.Abort_ = 32 ∧ rounds.Finished = 16.
Proof.
  pose proof (Abort_state culprit err b) as Hb.
  destruct (run_in_Abort cs _ Hb) as [Hrun Hafter].
  repeat split; try done.
  - apply (exec_in_Abort rounds.CallNextStep _ Hb).
  - apply (exec_in_Abort rounds.CallFinish _ Hb).
Qed.

(** ** The recorded error *)

Lemma string_append_assoc (s1 s2 s3 : string) :
  (s1 +:+ s2) +:+ s3 = s1 +:+ s2 +:+ s3.
Proof.
  induction s1 as [|a s1 IH]; [done|].
  change (String a ((s1 +:+ s2) +:+ s3) = String a (s1 +:+ s2 +:+ s3)).
  by rewrite IH.
Qed.

Lemma string_append_empty_r (s : string) : s +:+ EmptyString = s.
Proof.
  induction s as [|a s IH]; [done|].
  change (String a (s +:+ EmptyString) = String a s). by rewrite IH.
Qed.

Lemma Error_Errorf_abort prefix culprit err :
  Error (Errorf_abort prefix culprit err)
  = prefix +:+ "abort: party " +:+ pretty culprit +:+ ": "
    +:+ operand_text err.
Proof. by destruct err. Qed.

Section RoundsErrors.
Import rounds.
Context {Msg : Type} `{Q : messages.QueueAPI Msg}.

Lemma extends_refl e : extends e e.
Proof.
  exists EmptyString. by rewrite string_append_empty_r.
Qed.

Lemma extends_trans e1 e2 e3 : extends e1 e2 → extends e2 e3 → extends e1 e3.
Proof.
  intros [s1 H1] [s2 H2]. exists (s1 +:+ s2).
  by rewrite H2, H1, string_append_assoc.
Qed.

Lemma Abort_first culprit err (b : BaseRound) :
  finalError b = None →
  finalError (Abort culprit err b).1 = Some (Errorf_abort "" culprit err).
Proof.
  intros Hb. unfold Abort. cbn [finalError set_state]. rewrite Hb.
  by rewrite close_done_finalError.
Qed.

Lemma Abort_later culprit err (b : BaseRound) old :
  finalError b = Some old →
  finalError (Abort culprit err b).1
  = Some (Errorf_abort (Error old +:+ ", ") culprit err).
Proof. intros Hb. unfold Abort. cbn [finalError set_state]. by rewrite Hb. Qed.

Lemma Abort_later_extends culprit err old :
  extends old (Errorf_abort (Error old +:+ ", ") culprit err).
Proof.
  exists (", abort: party " +:+ pretty culprit +:+ ": " +:+ operand_text err).
  by rewrite Error_Errorf_abort, string_append_assoc.
Qed.

Lemma NewBaseRound_fields self ids types (b : BaseRound) :
  NewBaseRound self ids types = inl b →
  finalError b = None ∧ done b = ChanOpen ∧ state b = ProcessRound
  ∧ isProcessingStep b = false ∧ selfPartyID b = self.
Proof.
  unfold NewBaseRound. intros Hb.
  destruct (decide (self = 0)); [done|].
  destruct (collectPartyIDs _ _ _ _ _) as [[[found all] others]|]; [|done].
  destruct (negb found); [done|].
  destruct (messages.NewMessageQueue _ _ _); [|done].
  by injection Hb as <-.
Qed.

Lemma NewBaseRound_done_inv self ids types (b : BaseRound) :
  NewBaseRound self ids types = inl b → done_inv b.
Proof.
  intros Hb. destruct (NewBaseRound_fields _ _ _ _ Hb) as (He & _ & Hs & _).
  intros [H1|[H1|H1]]; [by rewrite Hs in H1..|done].
Qed.

Lemma shl1_cases s :
  s = ProcessMessages ∨ s = ProcessRound ∨ s = GenerateMessages →
  shl1 s ≠ Abort_ ∧ shl1 s ≠ Finished.
Proof. intros [-> | [-> | ->]]; by vm_compute. Qed.

Lemma exec_done_inv (c : call) (b : BaseRound) :
  done_inv b → done_inv (exec c b).1.
Proof.
  unfold done_inv. intros Hb. destruct c; cbn [exec fst].
  - unfold PrepareNextRound. destruct (decide _) as [Hs|Hs]; [|done].
    cbn. intros [H1|[H1|H1]]; [done..|]. apply Hb. by do 2 right.
  - intros _. unfold Abort. cbn [finalError set_state].
    destruct (finalError b) eqn:E.
    + cbn. apply Hb. do 2 right. done.
    + apply close_done_closed.
  - unfold Finish. destruct (_ || _); [done|].
    intros _. apply close_done_closed.
  - unfold CanProcessMessages.
    destruct (isProcessingStep b); [done|]. by destruct (_ && _).
  - unfold CanProcessRound.
    destruct (isProcessingStep b); [done|]. by destruct (bool_decide _).
  - unfold CanGenerateMessages.
    destruct (isProcessingStep b); [done|]. by destruct (bool_decide _).
  - unfold NextStep. destruct (decide _) as [Hs|Hs].
    + cbn. destruct (shl1_cases (state b)) as [H1 H2]; [by left|].
      intros [?|[?|?]]; [done..|]. apply Hb. by do 2 right.
    + destruct (_ || _) eqn:E; [|done].
      cbn. destruct (shl1_cases (state b)) as [H1 H2].
      { apply orb_true_iff in E as [E|E]; apply bool_decide_eq_true in E;
          auto. }
      intros [?|[?|?]]; [done..|]. apply Hb. by do 2 right.
  - unfold StoreMessage. by destruct (messages.Store _ _).
Qed.

(** A recorded error is never dropped: each call keeps its text and may
    only add to it. *)
Lemma exec_extends (c : call) (b : BaseRound) old :
  finalError b = Some old →
  ∃ new, finalError (exec c b).1 = Some new ∧ extends old new.
Proof.
  intros Hb.
  assert (Hkeep : ∀ b' : BaseRound, finalError b' = Some old →
            ∃ new, finalError b' = Some new ∧ extends old new).
  { intros b' H'. exists old. split; [done|apply extends_refl]. }
  destruct c; cbn [exec fst].
  - apply Hkeep. unfold PrepareNextRound. by destruct (decide _).
  - eexists. split; [by apply Abort_later|apply Abort_later_extends].
  - apply Hkeep. unfold Finish. destruct (_ || _); [done|].
    by rewrite close_done_finalError.
  - apply Hkeep. unfold CanProcessMessages.
    destruct (isProcessingStep b); [done|]. by destruct (_ && _).
  - apply Hkeep. unfold CanProcessRound.
    destruct (isProcessingStep b); [done|]. by destruct (bool_decide _).
  - apply Hkeep. unfold CanGenerateMessages.
    destruct (isProcessingStep b); [done|]. by destruct (bool_decide _).
  - apply Hkeep. unfold NextStep.
    destruct (decide _); [done|]. by destruct (_ || _).
  - apply Hkeep. unfold StoreMessage. by destruct (messages.Store _ _).
Qed.

Lemma after_extends (cs : list call) (b : BaseRound) old :
  done_inv b → finalError b = Some old →
  ∃ final, finalError (after cs b) = Some final ∧ extends old final
           ∧ WaitForFinish (after cs b) = Some (Some final).
Proof.
  revert b old. induction cs as [|c cs IH]; intros b old Hinv Hb.
  - exists old. split; [done|]. split; [apply extends_refl|].
    unfold WaitForFinish. cbn. rewrite Hinv, Hb; [done|].
    do 2 right. by rewrite Hb.
  - destruct (exec_extends c b old Hb) as (new & Hnew & Hext).
    destruct (IH _ new (exec_done_inv c b Hinv) Hnew)
      as (final & Hf & Hext' & Hw).
    exists final. split; [done|]. split; [|done].
    by eapply extends_trans.
Qed.

(** A call other than [Abort] records nothing. *)
Lemma exec_no_error (c : call) (b : BaseRound) :
  finalError b = None → (∀ culprit err, c ≠ CallAbort culprit err) →
  finalError (exec c b).1 = None.
Proof.
  intros Hb Hc. destruct c; cbn [exec fst].
  - unfold PrepareNextRound. by destruct (decide _).
  - by destruct (Hc culprit err).
  - unfold Finish. destruct (_ || _); [done|].
    by rewrite close_done_finalError.
  - unfold CanProcessMessages.
    destruct (isProcessingStep b); [done|]. by destruct (_ && _).
  - unfold CanProcessRound.
    destruct (isProcessingStep b); [done|]. by destruct (bool_decide _).
  - unfold CanGenerateMessages.
    destruct (isProcessingStep b); [done|]. by destruct (bool_decide _).
  - unfold NextStep. destruct (decide _); [done|]. by destruct (_ || _).
  - unfold StoreMessage. by destruct (messages.Store _ _).
Qed.

(** Once closed, [done] stays closed. *)
Lemma exec_done_closed (c : call) (b : BaseRound) :
  done b = ChanClosed → done (exec c b).1 = ChanClosed.
Proof.
  intros Hb. destruct c; cbn [exec fst].
  - unfold PrepareNextRound. by destruct (decide _).
  - unfold Abort. cbn [finalError set_state].
    destruct (finalError b); [done|]. apply close_done_closed.
  - unfold Finish. destruct (_ || _); [done|]. apply close_done_closed.
  - unfold CanProcessMessages.
    destruct (isProcessingStep b); [done|]. by destruct (_ && _).
  - unfold CanProcessRound.
    destruct (isProcessingStep b); [done|]. by destruct (bool_decide _).
  - unfold CanGenerateMessages.
    destruct (isProcessingStep b); [done|]. by destruct (bool_decide _).
  - unfold NextStep. destruct (decide _); [done|]. by destruct (_ || _).
  - unfold StoreMessage. by destruct (messages.Store _ _).
Qed.

Lemma Finish_closes (b : BaseRound) :
  done_inv b → done (Finish b).1 = ChanClosed.
Proof.
  intros Hinv. unfold Finish.
  destruct (bool_decide (state b = Abort_)) eqn:E1.
  { apply bool_decide_eq_true in E1. cbn. apply Hinv. by left. }
  destruct (bool_decide (state b = Finished)) eqn:E2.
  { apply bool_decide_eq_true in E2. cbn. apply Hinv. by (right; left). }
  apply close_done_closed.
Qed.

Lemma after_records (cs : list call) (b : BaseRound) :
  done_inv b → finalError b = None →
  match first_Abort cs with
  | Some (culprit, err) =>
      ∃ final, finalError (after cs b) = Some final
               ∧ extends (Errorf_abort "" culprit err) final
               ∧ WaitForFinish (after cs b) = Some (Some final)
  | None =>
      finalError (after cs b) = None
      ∧ (done b = ChanClosed ∨ CallFinish ∈ cs →
         WaitForFinish (after cs b) = Some None)
  end.
Proof.
  revert b. induction cs as [|c cs IH]; intros b Hinv Hb.
  - cbn. split; [done|]. intros [Hd|Hin]; [|by apply elem_of_nil in Hin].
    unfold WaitForFinish. by rewrite Hd, Hb.
  - assert (Hcase : (∃ culprit err, c = CallAbort culprit err)
                    ∨ (∀ culprit err, c ≠ CallAbort culprit err)).
    { destruct c; try (by right); left; eauto. }
    destruct Hcase as [(culprit & err & ->)|Hc'].
    + cbn [first_Abort].
      apply (after_extends cs (exec (CallAbort culprit err) b).1).
      * by apply exec_done_inv.
      * by apply Abort_first.
    + assert (first_Abort (c :: cs) = first_Abort cs) as ->.
      { destruct c; try done. by destruct (Hc' culprit err). }
      specialize (IH (exec c b).1 (exec_done_inv c b Hinv)
                     (exec_no_error c b Hb Hc')).
      change (after (c :: cs) b) with (after cs (exec c b).1).
      destruct (first_Abort cs) as [[culprit err]|]; [done|].
      destruct IH as [IH1 IH2]. split; [done|].
      intros [Hd|Hin]; apply IH2.
      * left. by apply exec_done_closed.
      * apply elem_of_cons in Hin as [<-|Hin]; [|by right].
        left. by apply Finish_closes.
Qed.

End RoundsErrors.

Lemma Unwrap_Errorf_abort prefix culprit err :
  Unwrap (Errorf_abort prefix culprit err) = err.
Proof. by destruct err. Qed.

(** C6.  On a [BaseRound] that [NewBaseRound] built, the first call of
    [Abort(culprit, err)] records the error "abort: party <culprit>: <err>"
    wrapping [err].  Whatever calls follow, later calls of [Abort]
    included, the recorded error keeps that text as its beginning (text is
    only added after it, so the first culprit stays the one named first),
    and [WaitForFinish] returns the recorded error.  When no [Abort] is
    called nothing is recorded, and once [Finish] has been called
    [WaitForFinish] returns nil. *)
Theorem C6_first_abort_is_kept {Msg : Type} `{Q : messages.QueueAPI Msg}
    (self : Z) (ids : list Z) (types : list messages.MessageType)
    (b0 : rounds.BaseRound) (cs : list rounds.call) :
  rounds.NewBaseRound self ids types = inl b0 →
  (∀ pre culprit err,
     rounds.first_Abort pre = None →
     rounds.finalError (rounds.Abort culprit err (rounds.after pre b0)).1
     = Some (Errorf_abort "" culprit err)
     ∧ Error (Errorf_abort "" culprit err)
       = "abort: party " +:+ pretty culprit +:+ ": " +:+ operand_text err
     ∧ Unwrap (Errorf_abort "" culprit err) = err)
  ∧ (∀ (b : rounds.BaseRound) old culprit err,
       rounds.finalError b = Some old →
       ∃ new, rounds.finalError (rounds.Abort culprit err b).1 = Some new
              ∧ Error new
                = Error old +:+ ", abort: party " +:+ pretty culprit +:+ ": "
                  +:+ operand_text err)
  ∧ match rounds.first_Abort cs with
    | Some (culprit, err) =>
        ∃ final,
          rounds.finalError (rounds.after cs b0) = Some final
          ∧ extends (Errorf_abort "" culprit err) final
          ∧ rounds.WaitForFinish (rounds.after cs b0) = Some (Some final)
    | None =>
        rounds.finalError (rounds.after cs b0) = None
        ∧ (rounds.CallFinish ∈ cs →
           rounds.WaitForFinish (rounds.after cs b0) = Some None)
    end.
Proof.
  intros Hnew.
  pose proof (NewBaseRound_done_inv _ _ _ _ Hnew) as Hinv.
  destruct (NewBaseRound_fields _ _ _ _ Hnew) as (Herr & _).
  split; [|split].
  - intros pre culprit err Hpre.
    pose proof (after_records pre b0 Hinv Herr) as Hrec.
    rewrite Hpre in Hrec. destruct Hrec as [Hrec _].
    split; [by apply Abort_first|].
    split; [apply Error_Errorf_abort|apply Unwrap_Errorf_abort].
  - intros b old culprit err Hb. eexists.
    split; [by apply Abort_later|].
    by rewrite Error_Errorf_abort, string_append_assoc.
  - pose proof (after_records cs b0 Hinv Herr) as Hrec.
    destruct (rounds.first_Abort cs) as [[culprit err]|]; [done|].
    destruct Hrec as [H1 H2]. split; [done|]. intros Hin. apply H2. by right.
Qed.

Lemma C6_first_abort_is_kept_witness :
  ∃ b0 final,
    rounds.NewBaseRound (Q := DLog_queue) 1 [1; 2; 3] [] = inl b0
    ∧ rounds.finalError
        (rounds.after [rounds.CallAbort 2 (Some (errors_New "bad share"));
                       rounds.CallFinish;
                       rounds.CallAbort 3 None] b0) = Some final
    ∧ extends (Errorf_abort "" 2 (Some (errors_New "bad share"))) final
    ∧ rounds.WaitForFinish
        (rounds.after [rounds.CallAbort 2 (Some (errors_New "bad share"));
                       rounds.CallFinish;
                       rounds.CallAbort 3 None] b0) = Some (Some final).
Proof.
  eexists.
  destruct (C6_first_abort_is_kept (Q := DLog_queue) 1 [1; 2; 3] [] _
              [rounds.CallAbort 2 (Some (errors_New "bad share"));
               rounds.CallFinish;
               rounds.CallAbort 3 None] eq_refl) as (_ & _ & final & H).
  exists final. split; [reflexivity|exact H].
Defined.

(** ** Building the party lists in [NewBaseRound] *)

Section PartyLists.
Import rounds.
Context {Msg : Type} `{Q : messages.QueueAPI Msg}.

Lemma collectPartyIDs_zero self ids found all others :
  0 ∈ ids →
  collectPartyIDs self ids found all others
  = inr (errors_New "IDs in allPartyIDs cannot be 0").
Proof.
  revert found all others.
  induction ids as [|id rest IH]; intros found all others Hin.
  - by apply elem_of_nil in Hin.
  - cbn [collectPartyIDs]. destruct (decide (id = 0)) as [->|Hid]; [done|].
    apply elem_of_cons in Hin as [Hin|Hin]; [done|].
    destruct (_ && _); [by apply IH|].
    destruct (others !! id); by apply IH.
Qed.

Lemma collectPartyIDs_nonzero self ids found all others :
  0 ∉ ids →
  ∃ all' others',
    collectPartyIDs self ids found all others
    = inl (found || bool_decide (self ∈ ids), all', others').
Proof.
  revert found all others.
  induction ids as [|id rest IH]; intros found all others Hin.
  - exists all, others. cbn. rewrite bool_decide_eq_false_2, orb_false_r;
      [done|]. apply not_elem_of_nil.
  - apply not_elem_of_cons in Hin as [Hid Hin].
    cbn [collectPartyIDs]. rewrite decide_False by done.
    destruct (bool_decide (id = self)) eqn:E1.
    + apply bool_decide_eq_true in E1 as ->.
      assert (bool_decide (self ∈ self :: rest) = true) as ->.
      { apply bool_decide_eq_true. by left. }
      destruct found; cbn [negb andb orb].
      * destruct (others !! self);
          [destruct (IH true all others Hin) as (a & o & ->)
          |destruct (IH true (all ++ [self]) (<[self:=true]> others) Hin)
             as (a & o & ->)]; cbn [orb]; eauto.
      * destruct (IH true (all ++ [self]) others Hin) as (a & o & ->).
        cbn [orb]. eauto.
    + apply bool_decide_eq_false in E1. cbn [andb].
      assert (bool_decide (self ∈ id :: rest) = bool_decide (self ∈ rest))
        as ->.
      { apply bool_decide_ext. rewrite elem_of_cons. naive_solver. }
      destruct (others !! id); apply IH; done.
Qed.

(** On a duplicate-free list every ID is kept, in order, and the IDs other
    than [self] are entered in the map. *)
Lemma collectPartyIDs_NoDup self ids found all others :
  NoDup ids → 0 ∉ ids →
  (∀ id, id ∈ ids → others !! id = None) →
  (found = true → self ∉ ids) →
  ∃ others',
    collectPartyIDs self ids found all others
    = inl (found || bool_decide (self ∈ ids), all ++ ids, others')
    ∧ ∀ id, others' !! id
            = if bool_decide (id ∈ ids ∧ id ≠ self) then Some true
              else others !! id.
Proof.
  revert found all others.
  induction ids as [|id rest IH]; intros found all others Hnd H0 Hnew Hself.
  - exists others. cbn. rewrite app_nil_r.
    rewrite bool_decide_eq_false_2, orb_false_r by apply not_elem_of_nil.
    split; [done|]. intros id. rewrite bool_decide_eq_false_2; [done|].
    intros [Hin _]. by apply elem_of_nil in Hin.
  - apply NoDup_cons in Hnd as [Hid Hnd].
    apply not_elem_of_cons in H0 as [Hz H0].
    cbn [collectPartyIDs]. rewrite decide_False by done.
    destruct (bool_decide (id = self)) eqn:E1.
    + apply bool_decide_eq_true in E1 as ->.
      destruct found.
      { exfalso. apply Hself; [done|]. by left. }
      cbn [negb andb orb].
      destruct (IH true (all ++ [self]) others Hnd H0) as (o & Ho & Hlook).
      { intros id Hin. apply Hnew. by right. }
      { done. }
      exists o. rewrite Ho. cbn [orb].
      rewrite (bool_decide_eq_true_2 (self ∈ self :: rest)) by by left.
      rewrite <- app_assoc. split; [done|].
      intros id. rewrite Hlook. apply (f_equal (λ b : bool, if b then _ else _)).
      apply bool_decide_ext. rewrite elem_of_cons. naive_solver.
    + apply bool_decide_eq_false in E1. cbn [andb].
      rewrite (Hnew id) by by left.
      destruct (IH found (all ++ [id]) (<[id:=true]> others) Hnd H0)
        as (o & Ho & Hlook).
      { intros id' Hin. rewrite lookup_insert_ne; [|by intros ->].
        apply Hnew. by right. }
      { intros Hf Hin. apply (Hself Hf). by right. }
      exists o. rewrite Ho.
      assert (bool_decide (self ∈ id :: rest) = bool_decide (self ∈ rest))
        as ->.
      { apply bool_decide_ext. rewrite elem_of_cons. naive_solver. }
      rewrite <- app_assoc. split; [done|].
      intros id'. rewrite Hlook.
      destruct (decide (id' = id)) as [->|Hne].
      * rewrite lookup_insert_eq.
        rewrite (bool_decide_eq_false_2 (id ∈ rest ∧ id ≠ self))
          by naive_solver.
        rewrite bool_decide_eq_true_2; [done|]. split; [by left|done].
      * rewrite lookup_insert_ne by done.
        apply (f_equal (λ b : bool, if b then _ else _)).
        apply bool_decide_ext. rewrite elem_of_cons. naive_solver.
Qed.

(** A repeated ID of a peer is skipped, not refused. *)
Lemma collectPartyIDs_repeated self id rest found all others v :
  id ≠ 0 → id ≠ self → others !! id = Some v →
  collectPartyIDs self (id :: rest) found all others
  = collectPartyIDs self rest found all others.
Proof.
  intros Hz Hs Hv. cbn [collectPartyIDs].
  rewrite decide_False by done.
  rewrite (bool_decide_eq_false_2 (id = self)) by done. cbn [andb].
  by rewrite Hv.
Qed.

(** When is [NewBaseRound] an error. *)
Lemma NewBaseRound_failed self ids types :
  failed (NewBaseRound self ids types)
  ↔ self = 0 ∨ 0 ∈ ids ∨ self ∉ ids
    ∨ ∃ all others,
        collectPartyIDs self ids false [] ∅ = inl (true, all, others)
        ∧ failed (messages.NewMessageQueue self others types).
Proof.
  unfold NewBaseRound, failed.
  destruct (decide (self = 0)) as [->|Hself]; [naive_solver|].
  destruct (decide (0 ∈ ids)) as [Hz|Hz].
  { rewrite (collectPartyIDs_zero _ _ _ _ _ Hz). naive_solver. }
  destruct (collectPartyIDs_nonzero self ids false [] ∅ Hz)
    as (all & others & Hc).
  rewrite Hc. cbn [orb].
  destruct (decide (self ∈ ids)) as [Hin|Hin].
  - rewrite bool_decide_eq_true_2 in Hc |- * by done. cbn [negb].
    destruct (messages.NewMessageQueue self others types) as [q|err] eqn:E.
    + split; [by intros [? ?]|].
      intros [?|[?|[?|(a & o & Ho & err & Herr)]]]; [done..|].
      injection Ho as <- <-. congruence.
    + split; [|by eauto]. intros _. do 3 right.
      exists all, others. split; [done|]. rewrite E. eauto.
  - rewrite bool_decide_eq_false_2 by done. cbn [negb].
    split; [|by eauto]. intros _. by do 2 right; left.
Qed.

(** What [NewBaseRound] builds from a duplicate-free list of non-zero IDs
    that contains [self]. *)
Lemma NewBaseRound_NoDup self ids types :
  NoDup ids → 0 ∉ ids → self ∈ ids →
  ∃ others,
    (∀ id, others !! id
           = if bool_decide (id ∈ ids ∧ id ≠ self) then Some true else None)
    ∧ NewBaseRound self ids types
      = match messages.NewMessageQueue self others types with
        | inr err => inr err
        | inl q =>
            inl {| AllPartyIDs := ids; OtherPartyIDs := others;
                   finalError := None; messages := q; roundNumber := 0;
                   done := ChanOpen; selfPartyID := self;
                   state := ProcessRound; isProcessingStep := false |}
        end.
Proof.
  intros Hnd Hz Hin.
  destruct (collectPartyIDs_NoDup self ids false [] ∅ Hnd Hz)
    as (others & Hc & Hlook); [by intros; apply lookup_empty|done|].
  exists others. split.
  { intros id. rewrite Hlook. by rewrite lookup_empty. }
  unfold NewBaseRound. rewrite decide_False.
  2:{ intros ->. done. }
  rewrite Hc. cbn [orb app]. by rewrite bool_decide_eq_true_2.
Qed.

End PartyLists.

(** C8 (as the code has it).  [NewBaseRound] of [base.go] returns an error
    exactly when [selfPartyID] is 0, or some ID of the list is 0, or
    [selfPartyID] is not in the list (the empty list is such a list), or
    the message queue cannot be built.  A repeated ID of a peer is skipped
    and is not an error, and no bound on the size of the list is checked.
    From a duplicate-free list of non-zero IDs that contains [selfPartyID],
    whatever its size, the round is built as soon as the queue is, with
    [AllPartyIDs] the list itself and [OtherPartyIDs] its IDs other than
    [selfPartyID].  [NewBaseRound] of [base_round.go], which is given a
    party set, returns an error exactly when the set does not contain
    [selfID]. *)
Theorem C8_NewBaseRound_party_lists {Msg : Type} `{Q : messages.QueueAPI Msg}
    (self : Z) (ids : list Z) (types : list messages.MessageType) :
  (failed (rounds.NewBaseRound self ids types)
   ↔ self = 0 ∨ 0 ∈ ids ∨ self ∉ ids
     ∨ ∃ all others,
         rounds.collectPartyIDs self ids false [] ∅ = inl (true, all, others)
         ∧ failed (messages.NewMessageQueue self others types))
  ∧ (∀ id rest found all others v,
       id ≠ 0 → id ≠ self → others !! id = Some v →
       rounds.collectPartyIDs self (id :: rest) found all others
       = rounds.collectPartyIDs self rest found all others)
  ∧ (NoDup ids → 0 ∉ ids → self ∈ ids →
     ∃ others,
       (∀ id, others !! id
              = if bool_decide (id ∈ ids ∧ id ≠ self) then Some true
                else None)
       ∧ rounds.NewBaseRound self ids types
         = match messages.NewMessageQueue self others types with
           | inr err => inr err
           | inl q =>
               inl {| rounds.AllPartyIDs := ids;
                      rounds.OtherPartyIDs := others;
                      rounds.finalError := None;
                      rounds.messages := q;
                      rounds.roundNumber := 0;
                      rounds.done := rounds.ChanOpen;
                      rounds.selfPartyID := self;
                      rounds.state := rounds.ProcessRound;
                      rounds.isProcessingStep := false |}
           end)
  ∧ (∀ (selfID : party.ID) (partySet : party.Set_),
       (failed (rounds_base_round.NewBaseRound selfID partySet)
        ↔ selfID ∉ party.slice partySet)
       ∧ (selfID ∈ party.slice partySet →
          rounds_base_round.NewBaseRound selfID partySet
          = inl {| rounds_base_round.selfID := selfID;
                   rounds_base_round.partySet := partySet |})).
Proof.
  split; [apply NewBaseRound_failed|]. split; [|split].
  - intros. by eapply collectPartyIDs_repeated.
  - apply NewBaseRound_NoDup.
  - intros selfID partySet.
    unfold rounds_base_round.NewBaseRound, party.Contains, failed.
    case_bool_decide as Hin; cbn [negb].
    + split; [|done]. split; [by intros [? ?]|done].
    + split; [|done]. split; [done|eauto].
Qed.

(** Against the refusals listed in C8: a list with a repeated ID is
    accepted (the repetition is dropped), a duplicate-free list of 65536
    non-zero IDs is accepted, and a non-empty duplicate-free list of
    non-zero IDs is refused when [selfPartyID] is not in it. *)
Lemma C8_counterexample :
  (∃ b, rounds.NewBaseRound (Q := DLog_queue) 1 [1; 2; 2] [] = inl b
        ∧ rounds.AllPartyIDs b = [1; 2])
  ∧ (∃ b, rounds.NewBaseRound (Q := DLog_queue) 1 (seqZ 1 65536) [] = inl b
          ∧ Z.of_nat (length (rounds.AllPartyIDs b)) = 65536)
  ∧ rounds.NewBaseRound (Q := DLog_queue) 1 [2; 3] []
    = inr (errors_New "selfPartyID must be included in allPartyIDs").
Proof.
  split; [|split].
  - eexists. split; reflexivity.
  - destruct (NewBaseRound_NoDup (Q := DLog_queue) 1 (seqZ 1 65536) [])
      as (others & _ & ->).
    + apply NoDup_seqZ.
    + rewrite elem_of_seqZ. lia.
    + rewrite elem_of_seqZ. lia.
    + eexists. split; [reflexivity|]. cbn [rounds.AllPartyIDs].
      rewrite length_seqZ. lia.
  - reflexivity.
Qed.

(** ** Key generation, round 2 *)

Section KeygenFacts.
Import edwards25519 keygen.
Context `{Curve}.

Lemma bind_Return {A B} (f : A → outcome B) (a : A) :
  mbind f (Return a) = f a.
Proof. done. Qed.

Lemma Point_Equal_1 (p q : Point) : Point_Equal p q = 1 ↔ p = q.
Proof. unfold Point_Equal. destruct (decide (p = q)); naive_solver. Qed.



End KeygenFacts.

(** C2.  [ProcessMessage] on a [KeyGen2] message from peer [j], whose
    commitment polynomial the round holds: the share [s] is accepted (no
    error) if and only if [[s]B] equals the evaluation of [j]'s commitment
    polynomial at the scalar of the local ID.  When accepted, [s] is added
    to the accumulated secret and the share in the message is overwritten
    with zero; otherwise the error names [j] as culprit and neither the
    round (its accumulated secret in particular) nor the message
    changes. *)
Theorem C2_ProcessMessage_VSS `{edwards25519.Curve}
    (round : keygen.round2) (msg : messages.Message)
    (payload : messages.KeyGen2Payload)
    (commitment : polynomial.Exponent) :
  is_uint16 (state.SelfID (keygen.BaseRound round)) →
  messages.KeyGen2 msg = Some payload →
  keygen.Commitments round !! messages.From msg = Some commitment →
  ∃ round' msg' err,
    keygen.ProcessMessage round msg = Return (round', msg', err)
    ∧ (err = None
       ↔ edwards25519.ScalarBaseMult (messages.Share payload)
         = polynomial.Evaluate commitment
             (state.SelfID (keygen.BaseRound round)))
    ∧ (err = None →
       keygen.Secret round'
       = edwards25519.Add (keygen.Secret round) (messages.Share payload)
       ∧ round' = keygen.set_Secret
                    (edwards25519.Add (keygen.Secret round)
                                      (messages.Share payload)) round
       ∧ messages.KeyGen2 msg'
         = Some {| messages.Share := edwards25519.NewScalar |}
       ∧ edwards25519.NewScalar = 0)
    ∧ (err ≠ None →
       err = Some (state.NewError (messages.From msg)
                     (errors_New "VSS failed to validate"))
       ∧ (state.Culprit <$> err) = Some (messages.From msg)
       ∧ keygen.Secret round' = keygen.Secret round
       ∧ round' = round ∧ msg' = msg).
Proof.
  intros Hself Hpayload Hcommit.
  unfold keygen.ProcessMessage. rewrite Hpayload.
  rewrite (Scalar_returns _ Hself), bind_Return, Hcommit.
  destruct (decide _) as [Hne|Heq].
  - eexists _, _, _. split; [done|].
    split; [|split]; [|done|done].
    split; [done|]. intros Heq. exfalso. apply Hne.
    by apply Point_Equal_1.
  - eexists _, _, _. split; [done|].
    split; [|split]; [|done|done].
    split; [|done]. intros _. apply Point_Equal_1.
    by destruct (decide (edwards25519.Point_Equal
                   (edwards25519.ScalarBaseMult (messages.Share payload))
                   (polynomial.Evaluate commitment
                      (state.SelfID (keygen.BaseRound round))) = 1)).
Qed.

Lemma C2_ProcessMessage_VSS_witness :
  ∃ round' msg',
    keygen.ProcessMessage example_round2 (example_KeyGen2 8)
    = Return (round', msg', None)
    ∧ keygen.Secret round' = 19
    ∧ messages.KeyGen2 msg' = Some {| messages.Share := 0 |}.
Proof.
  destruct (C2_ProcessMessage_VSS (H := DLog.curve)
              example_round2 (example_KeyGen2 8)
              {| messages.Share := 8 |}
              (@polynomial.Build_Exponent DLog.curve [5; 3]))
    as (round' & msg' & err & Hrun & Hiff & Hok & _).
  - unfold is_uint16. simpl. lia.
  - reflexivity.
  - reflexivity.
  - assert (err = None) as -> by (apply Hiff; reflexivity).
    destruct (Hok eq_refl) as (Hs & _ & Hm & _).
    exists round', msg'. split; [exact Hrun|]. split; [|exact Hm].
    rewrite Hs. reflexivity.
Defined.

Section KeygenOutput.
Import edwards25519 keygen.
Context `{Curve}.


Lemma add_coefficients_nil_r (a : list Point) :
  polynomial.add_coefficients a [] = a.
Proof. by destruct a. Qed.




End KeygenOutput.


Section KeygenOutputWitness.
#[local] Existing Instance DLog.curve.





End KeygenOutputWitness.

(** ** Signing, round 1: the pieces of [ProcessRound] *)

Section SignFacts.
Import edwards25519 sign.
Context `{Curve} `{Sha512}.

Lemma SetUniformBytes_digest (input : list Z) :
  SetUniformBytes (sha512_Sum input) = Return (hash_to_scalar input).
Proof.
  unfold SetUniformBytes. by rewrite decide_True by apply sha512_Sum_length.
Qed.

Lemma B_step_returns (parties : gmap Z Party) (id : Z) (buffer : list Z) :
  is_Some (parties !! id) →
  B_step parties id buffer = Return (buffer ++ triple parties id).
Proof. intros [party Hparty]. unfold B_step, triple. by rewrite Hparty. Qed.

Lemma for_range_B (parties : gmap Z Party) (all : list Z) (buffer : list Z) :
  (∀ id, id ∈ all → is_Some (parties !! id)) →
  for_range (B_step parties) all buffer
  = Return (buffer ++ concat (triple parties <$> all)).
Proof.
  revert buffer. induction all as [|id rest IH]; intros buffer Hall.
  - cbn. by rewrite app_nil_r.
  - cbn [for_range fmap list_fmap concat].
    rewrite B_step_returns, bind_Return by (apply Hall; by left).
    rewrite IH by (intros i Hi; apply Hall; by right).
    by rewrite <- !app_assoc.
Qed.

Lemma compute_B_returns (all : list Z) (parties : gmap Z Party) :
  (∀ id, id ∈ all → is_Some (parties !! id)) →
  compute_B all parties = Return (concat (triple parties <$> all)).
Proof. intros Hall. unfold compute_B. by rewrite for_range_B. Qed.

Lemma rho_step_returns message B id (st : gmap Z Party * Point) party :
  st.1 !! id = Some party →
  rho_step message B id st
  = Return (<[id := bind_party message B id party]> st.1,
            Point_Add st.2
              (Point_Add (ScalarMult (rho message B id) (Ei party))
                         (Di party))).
Proof.
  intros Hparty. unfold rho_step. rewrite Hparty.
  by rewrite SetUniformBytes_digest, bind_Return.
Qed.

(** The loop over the map, for any order that visits each key once. *)
Lemma rho_loop message B (order : list Z) (cur : gmap Z Party) (R0 : Point) :
  NoDup order →
  (∀ id, id ∈ order → is_Some (cur !! id)) →
  ∃ ps',
    for_range (rho_step message B) order (cur, R0)
    = Return (ps',
              foldl (λ acc id,
                       Point_Add acc (Ri_of (bind_party message B id <$> cur)
                                            id))
                    R0 order)
    ∧ ∀ i, ps' !! i
           = if bool_decide (i ∈ order)
             then bind_party message B i <$> cur !! i
             else cur !! i.
Proof.
  revert cur R0. induction order as [|id rest IH]; intros cur R0 Hnd Hin.
  - exists cur. split; [done|]. intros i.
    rewrite bool_decide_eq_false_2; [done|]. apply not_elem_of_nil.
  - apply NoDup_cons in Hnd as [Hid Hnd].
    destruct (Hin id) as [party Hparty]; [by left|].
    cbn [for_range foldl].
    rewrite (rho_step_returns message B id (cur, R0) party Hparty).
    rewrite bind_Return. cbn [fst snd].
    destruct (IH (<[id := bind_party message B id party]> cur)
                 (Point_Add R0
                    (Point_Add (ScalarMult (rho message B id) (Ei party))
                               (Di party))) Hnd)
      as (ps' & Hloop & Hlook).
    { intros i Hi. rewrite lookup_insert_ne by (by intros ->).
      apply Hin. by right. }
    exists ps'. split.
    + rewrite Hloop. f_equal. f_equal.
      assert (Ri_of (bind_party message B id <$> cur) id
              = Point_Add (ScalarMult (rho message B id) (Ei party))
                          (Di party)) as ->.
      { unfold Ri_of. by rewrite lookup_fmap, Hparty. }
      generalize (Point_Add R0
                    (Point_Add (ScalarMult (rho message B id) (Ei party))
                               (Di party))).
      clear Hloop Hlook IH Hnd.
      induction rest as [|j rest IH]; intros R1; [done|].
      cbn [foldl]. apply not_elem_of_cons in Hid as [Hne Hid].
      rewrite <- IH.
      * f_equal. f_equal. unfold Ri_of.
        rewrite !lookup_fmap, lookup_insert_ne by done. done.
      * done.
      * intros i Hi. apply Hin. apply elem_of_cons in Hi as [->|Hi].
        -- by left.
        -- right. by right.
    + intros i. rewrite Hlook.
      destruct (decide (i = id)) as [->|Hne].
      * rewrite bool_decide_eq_false_2 by done.
        rewrite bool_decide_eq_true_2 by by left.
        by rewrite lookup_insert_eq, Hparty.
      * rewrite lookup_insert_ne by done.
        apply (f_equal (λ b : bool, if b then _ else _)).
        apply bool_decide_ext. rewrite elem_of_cons. naive_solver.
Qed.

End SignFacts.

Section SignSums.
Import edwards25519 sign.
Context `{Curve} `{Sha512}.

Lemma foldr_add_shift (z a : Point) (l : list Point) :
  foldr Point_Add (Point_Add z a) l = Point_Add a (foldr Point_Add z l).
Proof.
  induction l as [|b l IH]; cbn [foldr].
  - apply Point_Add_comm.
  - rewrite IH, !Point_Add_assoc. f_equal. apply Point_Add_comm.
Qed.

(** Adding the points one after the other to the identity, as the loop
    does, gives their sum. *)
Lemma foldl_add_sum (f : Z → Point) (order : list Z) (z : Point) :
  foldl (λ acc id, Point_Add acc (f id)) z order
  = foldr Point_Add z (f <$> order).
Proof.
  revert z. induction order as [|id rest IH]; intros z; [done|].
  cbn [foldl fmap list_fmap foldr]. rewrite IH. apply foldr_add_shift.
Qed.

(** The sum does not depend on the order of the points. *)
Lemma sum_points_Permutation (l1 l2 : list Point) :
  l1 ≡ₚ l2 → sum_points l1 = sum_points l2.
Proof.
  unfold sum_points. induction 1 as [|a l1 l2 _ IH|a b l|l1 l2 l3 _ IH1 _ IH2].
  - done.
  - cbn [foldr]. by rewrite IH.
  - cbn [foldr]. rewrite !Point_Add_assoc. f_equal. apply Point_Add_comm.
  - by rewrite IH1.
Qed.

(** [z], as one expression modulo [ell]. *)
Lemma compute_z_eq (selfParty : Party) (secret c e d : Scalar) :
  compute_z selfParty secret c e d
  = (d + Pi selfParty * e + Lagrange selfParty * secret * c) mod ell.
Proof.
  unfold compute_z, Add, MultiplyAdd, Multiply.
  rewrite Z.mul_mod_idemp_l by done.
  rewrite Z.add_mod_idemp_r by done.
  rewrite Z.add_mod_idemp_l by done.
  f_equal. lia.
Qed.

Lemma lookup_bound_parties message B (parties : gmap Z Party) (i : Z) :
  bound_parties message B parties !! i
  = bind_party message B i <$> parties !! i.
Proof.
  unfold bound_parties. rewrite map_lookup_imap.
  by destruct (parties !! i).
Qed.

(** The loop over the whole map: every party is bound, and [R] is the sum
    of the [Rᵢ], whatever the order of the visit. *)
Lemma rho_loop_all message B (order : list Z) (parties : gmap Z Party) :
  NoDup order →
  (∀ id, id ∈ order ↔ is_Some (parties !! id)) →
  for_range (rho_step message B) order (parties, NewIdentityPoint)
  = Return (bound_parties message B parties,
            sum_points (Ri_of (bound_parties message B parties) <$> order)).
Proof.
  intros Hnd Hdom.
  destruct (rho_loop message B order parties NewIdentityPoint Hnd)
    as (ps' & -> & Hlook).
  { intros id Hid. by apply Hdom. }
  f_equal. f_equal.
  - apply map_eq. intros i. rewrite Hlook, lookup_bound_parties.
    case_bool_decide as Hi; [done|].
    destruct (parties !! i) eqn:E; [|done].
    exfalso. apply Hi, Hdom. by rewrite E.
  - rewrite foldl_add_sum. unfold sum_points. f_equal.
    apply list_fmap_ext. intros _ id _. unfold Ri_of.
    by rewrite lookup_fmap, lookup_bound_parties.
Qed.

End SignSums.

(** ** Signing, round 1: what [ProcessRound] computes *)

Section SignRound1.
Import edwards25519 sign.
Context `{Curve} `{Sha512}.

Lemma keys_order (parties : gmap Z Party) (order : list Z) :
  NoDup order → (∀ i, i ∈ order ↔ is_Some (parties !! i)) →
  order ≡ₚ (map_to_list parties).*1.
Proof.
  intros Hnd Hdom. apply NoDup_Permutation; [done| |].
  - apply NoDup_fst_map_to_list.
  - intros i. rewrite Hdom. rewrite list_elem_of_fmap. split.
    + intros [p Hp]. exists (i, p). split; [done|].
      by apply elem_of_map_to_list.
    + intros ([j p] & -> & Hp). apply elem_of_map_to_list in Hp. eauto.
Qed.

Lemma round1_R_order all (parties : gmap Z Party) message (ids : list Z) :
  NoDup ids → (∀ i, i ∈ ids ↔ is_Some (parties !! i)) →
  round1_R all parties message
  = sum_points
      (Ri_of (bound_parties message (round1_B all parties) parties) <$> ids).
Proof.
  intros Hnd Hdom. unfold round1_R. apply sum_points_Permutation.
  apply fmap_Permutation. symmetry. by apply keys_order.
Qed.

(** The closed form satisfies the statement of round 1. *)
Lemma round1_closed_form_computes all (parties : gmap Z Party) message Ykey
    self secret e_ d_ :
  (∀ i, i ∈ all → is_Some (parties !! i)) →
  is_Some (parties !! self) →
  round1_computes all parties message Ykey self secret e_ d_
    (round1_parties all parties message Ykey self secret e_ d_)
    (round1_R all parties message)
    (round1_c all parties message Ykey).
Proof.
  intros Hall [selfParty Hself]. unfold round1_computes. cbv zeta.
  fold (round1_B all parties).
  set (B := round1_B all parties).
  set (ps := bound_parties message B parties).
  assert (Hps : ∀ i, ps !! i = bind_party message B i <$> parties !! i)
    by apply lookup_bound_parties.
  assert (Hps_self : ps !! self = Some (bind_party message B self selfParty))
    by by rewrite Hps, Hself.
  assert (Hfinal : round1_parties all parties message Ykey self secret e_ d_
            = <[self := set_Zi (compute_z (bind_party message B self selfParty)
                                  secret (round1_c all parties message Ykey)
                                  e_ d_)
                               (bind_party message B self selfParty)]> ps).
  { unfold round1_parties. cbv zeta. fold B. fold ps. by rewrite Hps_self. }
  rewrite Hfinal.
  split; [by apply compute_B_returns|].
  split; [|split; [|split; [|split]]].
  - intros i party Hi. destruct (decide (i = self)) as [->|Hne].
    + rewrite lookup_insert_eq. eexists. split; [done|].
      assert (party = selfParty) as -> by congruence.
      cbn. split; [apply SetUniformBytes_digest|].
      split; [apply Point_Add_comm|done].
    + rewrite lookup_insert_ne by done. rewrite Hps, Hi.
      eexists. split; [done|].
      cbn. split; [apply SetUniformBytes_digest|].
      split; [apply Point_Add_comm|done].
  - intros i Hi. rewrite lookup_insert_ne by congruence.
    by rewrite Hps, Hi.
  - intros ids Hnd Hdom. rewrite (round1_R_order all parties message ids)
      by done.
    f_equal. apply list_fmap_ext. intros _ i _. unfold Ri_of. fold B. fold ps.
    destruct (decide (i = self)) as [->|Hne].
    + by rewrite lookup_insert_eq, Hps_self.
    + by rewrite lookup_insert_ne.
  - unfold eddsa.ComputeChallenge. apply SetUniformBytes_digest.
  - eexists. split; [apply lookup_insert_eq|].
    cbn [Zi set_Zi Pi Lagrange]. apply compute_z_eq.
Qed.

End SignRound1.

Section SignQueueRound1.
Import edwards25519 sign.
Context `{Curve} `{Sha512} `{Q : messages.QueueAPI messages.Message}.

(** The revision that reads the queue: [ProcessRound] returns, and what
    it leaves in the round. *)
Lemma sign_queue_ProcessRound_returns (order : list Z)
    (round : sign_queue.base) :
  sign_queue.roundProcessed round = false →
  NoDup order →
  (∀ i, i ∈ order ↔ is_Some (sign_queue.Parties round !! i)) →
  (∀ i, i ∈ sign_queue.AllParties round →
        is_Some (sign_queue.Parties round !! i)) →
  is_Some (sign_queue.Parties round !! sign_queue.PartySelf round) →
  sign_queue.ProcessRound order round
  = Return
      (sign_queue.finish_round
         (round1_parties (sign_queue.AllParties round)
            (sign_queue.Parties round) (sign_queue.Message round)
            (sign_queue.Y round) (sign_queue.PartySelf round)
            (sign_queue.Secret round) (sign_queue.e round)
            (sign_queue.d round))
         (round1_R (sign_queue.AllParties round) (sign_queue.Parties round)
            (sign_queue.Message round))
         (round1_c (sign_queue.AllParties round) (sign_queue.Parties round)
            (sign_queue.Message round) (sign_queue.Y round))
         round,
       None).
Proof.
  intros Hflag Hnd Hdom Hall [selfParty Hself].
  unfold sign_queue.ProcessRound. rewrite Hflag.
  rewrite (compute_B_returns _ _ Hall), bind_Return.
  rewrite (rho_loop_all _ _ order _ Hnd Hdom), bind_Return.
  cbn [fst snd].
  fold (round1_B (sign_queue.AllParties round) (sign_queue.Parties round)).
  rewrite <- (round1_R_order (sign_queue.AllParties round)
                (sign_queue.Parties round) (sign_queue.Message round) order
                Hnd Hdom).
  unfold eddsa.ComputeChallenge.
  rewrite SetUniformBytes_digest, bind_Return.
  fold (round1_c (sign_queue.AllParties round) (sign_queue.Parties round)
          (sign_queue.Message round) (sign_queue.Y round)).
  unfold round1_parties. cbv zeta.
  rewrite lookup_bound_parties, Hself. done.
Qed.

End SignQueueRound1.

Section SignDirectRound1.
Import edwards25519 sign.
Context `{Curve} `{Sha512}.

Lemma lookup_received_parties (round : base) (i : Z) :
  received_parties round !! i
  = receive (PartySelf round) (msgs1 round) i <$> Parties round !! i.
Proof.
  unfold received_parties. rewrite map_lookup_imap.
  by destruct (Parties round !! i).
Qed.

Lemma ProcessMessages_loop (self : Z) (order : list Z)
    (cur : gmap Z Party) (ms : gmap Z messages.Sign1Payload) :
  NoDup order →
  (∀ i, i ∈ order → is_Some (cur !! i)) →
  (∀ i, i ∈ order → i ≠ self → is_Some (ms !! i)) →
  ∃ ps' ms',
    for_range (ProcessMessages_step self) order (cur, ms) = Return (ps', ms')
    ∧ (∀ i, ps' !! i
            = if bool_decide (i ∈ order) then receive self ms i <$> cur !! i
              else cur !! i)
    ∧ (∀ i, ms' !! i
            = if bool_decide (i ∈ order ∧ i ≠ self) then None else ms !! i).
Proof.
  revert cur ms. induction order as [|id rest IH]; intros cur ms Hnd Hin Hms.
  - exists cur, ms. split; [done|]. split; intros i.
    + rewrite bool_decide_eq_false_2; [done|]. apply not_elem_of_nil.
    + rewrite bool_decide_eq_false_2; [done|].
      intros [Hi _]. by apply elem_of_nil in Hi.
  - apply NoDup_cons in Hnd as [Hid Hnd].
    destruct (Hin id) as [party Hparty]; [by left|].
    cbn [for_range].
    destruct (decide (id = self)) as [->|Hne].
    + assert (ProcessMessages_step self self (cur, ms) = Return (cur, ms))
        as ->.
      { unfold ProcessMessages_step. cbn [fst snd]. rewrite Hparty.
        by rewrite decide_False by (intros Hc; by apply Hc). }
      rewrite bind_Return.
      destruct (IH cur ms Hnd) as (ps' & ms' & Hloop & Hps & Hmsgs).
      { intros i Hi. apply Hin. by right. }
      { intros i Hi. apply Hms. by right. }
      exists ps', ms'. split; [done|]. split; intros i.
      * rewrite Hps. destruct (decide (i = self)) as [->|Hi].
        -- rewrite bool_decide_eq_false_2 by done.
           rewrite bool_decide_eq_true_2 by by left.
           rewrite Hparty. cbn. unfold receive. by rewrite decide_True.
        -- apply (f_equal (λ b : bool, if b then _ else _)).
           apply bool_decide_ext. rewrite elem_of_cons. naive_solver.
      * rewrite Hmsgs.
        apply (f_equal (λ b : bool, if b then _ else _)).
        apply bool_decide_ext. rewrite elem_of_cons. naive_solver.
    + destruct (Hms id) as [m Hm]; [by left|done|].
      assert (ProcessMessages_step self id (cur, ms)
              = Return (<[id := set_Di_Ei (messages.Di m) (messages.Ei m)
                                          party]> cur,
                        delete id ms)) as ->.
      { unfold ProcessMessages_step. cbn [fst snd]. rewrite Hparty.
        rewrite decide_True by done. by rewrite Hm. }
      rewrite bind_Return.
      destruct (IH (<[id := set_Di_Ei (messages.Di m) (messages.Ei m)
                                      party]> cur)
                   (delete id ms) Hnd)
        as (ps' & ms' & Hloop & Hps & Hmsgs).
      { intros i Hi. rewrite lookup_insert_ne by (by intros ->).
        apply Hin. by right. }
      { intros i Hi Hself. rewrite lookup_delete_ne by (by intros ->).
        apply Hms; [by right|done]. }
      exists ps', ms'. split; [done|]. split; intros i.
      * rewrite Hps. destruct (decide (i = id)) as [->|Hi].
        -- rewrite bool_decide_eq_false_2 by done.
           rewrite bool_decide_eq_true_2 by by left.
           rewrite lookup_insert_eq, Hparty. cbn. unfold receive.
           by rewrite decide_False, Hm by done.
        -- rewrite lookup_insert_ne by done.
           case_bool_decide as Hr.
           ++ rewrite bool_decide_eq_true_2 by by right.
              unfold receive. by rewrite lookup_delete_ne by done.
           ++ rewrite bool_decide_eq_false_2; [done|].
              rewrite elem_of_cons. naive_solver.
      * rewrite Hmsgs. destruct (decide (i = id)) as [->|Hi].
        -- rewrite bool_decide_eq_false_2 by naive_solver.
           rewrite bool_decide_eq_true_2; [|split; [by left|done]].
           apply lookup_delete_eq.
        -- rewrite lookup_delete_ne by done.
           apply (f_equal (λ b : bool, if b then _ else _)).
           apply bool_decide_ext. rewrite elem_of_cons. naive_solver.
Qed.

Lemma ProcessMessages_returns (order : list Z) (round : base) :
  NoDup order →
  (∀ i, i ∈ order ↔ is_Some (Parties round !! i)) →
  (∀ i, is_Some (Parties round !! i) → i ≠ PartySelf round →
        is_Some (msgs1 round !! i)) →
  ProcessMessages order round
  = Return (with_Parties_msgs1 (received_parties round)
              (remaining_msgs1 round) round, None).
Proof.
  intros Hnd Hdom Hms. unfold ProcessMessages.
  destruct (ProcessMessages_loop (PartySelf round) order (Parties round)
              (msgs1 round) Hnd)
    as (ps' & ms' & -> & Hps & Hmsgs).
  { intros i Hi. by apply Hdom. }
  { intros i Hi. apply Hms. by apply Hdom. }
  rewrite bind_Return. cbn [fst snd]. do 3 f_equal.
  - apply map_eq. intros i. rewrite Hps, lookup_received_parties.
    case_bool_decide as Hi; [done|].
    destruct (Parties round !! i) eqn:E; [|done].
    exfalso. apply Hi, Hdom. by rewrite E.
  - apply map_eq. intros i. rewrite Hmsgs. unfold remaining_msgs1.
    destruct (msgs1 round !! i) as [m|] eqn:E.
    + case_bool_decide as Hi.
      * symmetry. apply map_lookup_filter_None. right.
        intros m' Hm' [Hc|Hc]; cbn in Hc.
        -- destruct Hi as [Hi _]. apply Hdom in Hi as [p Hp]. congruence.
        -- by destruct Hi.
      * symmetry. apply map_lookup_filter_Some. split; [done|]. cbn.
        destruct (decide (i = PartySelf round)); [by right|]. left.
        destruct (Parties round !! i) eqn:E'; [|done].
        exfalso. apply Hi. split; [|done]. apply Hdom. by rewrite E'.
    + rewrite (proj2 (map_lookup_filter_None _ _ _)) by by left.
      by case_bool_decide.
Qed.

End SignDirectRound1.

Section SignDirectRound1Closed.
Import edwards25519 sign.
Context `{Curve} `{Sha512}.

(** An order of visit of the keys of a map: each key once. *)
Lemma order_keys {A} (m : gmap Z A) (order : list Z) :
  order ≡ₚ (map_to_list m).*1 →
  NoDup order ∧ ∀ i, i ∈ order ↔ is_Some (m !! i).
Proof.
  intros Hperm. split.
  - rewrite Hperm. apply NoDup_fst_map_to_list.
  - intros i. rewrite Hperm, list_elem_of_fmap. split.
    + intros ([j p] & -> & Hp). apply elem_of_map_to_list in Hp. eauto.
    + intros [p Hp]. exists (i, p). split; [done|].
      by apply elem_of_map_to_list.
Qed.

Lemma received_parties_is_Some (round : base) (i : Z) :
  is_Some (received_parties round !! i) ↔ is_Some (Parties round !! i).
Proof. rewrite lookup_received_parties. apply fmap_is_Some. Qed.

(** [round1.go]: [ProcessRound] returns, and what it leaves in the round
    and sends. *)
Lemma sign_ProcessRound_returns (order1 order2 : list Z) (round : base) :
  readyForNextRound round = false →
  order1 ≡ₚ (map_to_list (Parties round)).*1 →
  order2 ≡ₚ (map_to_list (Parties round)).*1 →
  (∀ i, i ∈ AllParties round → is_Some (Parties round !! i)) →
  is_Some (Parties round !! PartySelf round) →
  (∀ i, is_Some (Parties round !! i) → i ≠ PartySelf round →
        is_Some (msgs1 round !! i)) →
  ProcessRound order1 order2 round
  = Return
      (finish_round
         (round1_parties (AllParties round) (received_parties round)
            (Message round) (Y round) (PartySelf round) (Secret round)
            (e round) (d round))
         (round1_R (AllParties round) (received_parties round)
            (Message round))
         (round1_c (AllParties round) (received_parties round)
            (Message round) (Y round))
         (with_Parties_msgs1 (received_parties round)
            (remaining_msgs1 round) round),
       [messages.NewSign2 (PartySelf round)
          (Zi_of (round1_parties (AllParties round) (received_parties round)
                    (Message round) (Y round) (PartySelf round)
                    (Secret round) (e round) (d round))
                 (PartySelf round))],
       None).
Proof.
  intros Hflag Ho1 Ho2 Hall Hself Hms.
  destruct (order_keys _ _ Ho1) as [Hnd1 Hdom1].
  destruct (order_keys _ _ Ho2) as [Hnd2 Hdom2].
  unfold ProcessRound. rewrite Hflag.
  rewrite (ProcessMessages_returns order1 round Hnd1 Hdom1 Hms), bind_Return.
  cbn [fst snd with_Parties_msgs1 AllParties Parties Message PartySelf Y
       Secret e d].
  assert (Hall' : ∀ i, i ∈ AllParties round →
                       is_Some (received_parties round !! i)).
  { intros i Hi. apply received_parties_is_Some. by apply Hall. }
  assert (Hdom2' : ∀ i, i ∈ order2 ↔ is_Some (received_parties round !! i)).
  { intros i. by rewrite received_parties_is_Some. }
  apply received_parties_is_Some in Hself as [selfParty Hself].
  rewrite (compute_B_returns _ _ Hall'), bind_Return.
  rewrite (rho_loop_all _ _ order2 _ Hnd2 Hdom2'), bind_Return.
  cbn [fst snd].
  fold (round1_B (AllParties round) (received_parties round)).
  rewrite <- (round1_R_order (AllParties round) (received_parties round)
                (Message round) order2 Hnd2 Hdom2').
  rewrite lookup_bound_parties, Hself. cbn [fmap option_fmap option_map].
  unfold eddsa.ComputeChallenge.
  rewrite SetUniformBytes_digest, bind_Return.
  fold (round1_c (AllParties round) (received_parties round)
          (Message round) (Y round)).
  unfold round1_parties, Zi_of. cbv zeta.
  rewrite lookup_bound_parties, Hself. cbn [fmap option_fmap option_map].
  by rewrite lookup_insert_eq.
Qed.

End SignDirectRound1Closed.

(** C1.  Signing round 1, [ProcessRound], in both revisions of the file
    (the one that reads the message queue, and [round1.go], which first
    takes the peers' nonce points from their [Sign1] messages).  On a round
    not yet processed, whose signer list names parties of the map and whose
    map holds the local party, and for every order in which the loops over
    the map visit its keys, the call returns without error and has
    computed what [round1_computes] states: [B] is the concatenation over
    [AllParties], in its order, of [ID_i (4 bytes, big-endian) ‖ D_i ‖ E_i];
    for every party [i],
    [ρ_i = SetUniformBytes(SHA-512("FROST-SHA512" ‖ ID_i ‖ M ‖ B))] and
    [R_i = D_i + [ρ_i]E_i]; [R = Σ R_i]; [c] is the challenge of
    [(R, Y, M)]; and [z_self = d + ρ_self·e + λ_self·s_self·c]. *)
Theorem C1_round1_ProcessRound
    `{edwards25519.Curve} `{Sha512}
    `{Q : messages.QueueAPI messages.Message} :
  (∀ (order : list Z) (round : sign_queue.base),
     sign_queue.roundProcessed round = false →
     order ≡ₚ (map_to_list (sign_queue.Parties round)).*1 →
     (∀ i, i ∈ sign_queue.AllParties round →
           is_Some (sign_queue.Parties round !! i)) →
     is_Some (sign_queue.Parties round !! sign_queue.PartySelf round) →
     ∃ round',
       sign_queue.ProcessRound order round = Return (round', None)
       ∧ round1_computes (sign_queue.AllParties round)
           (sign_queue.Parties round) (sign_queue.Message round)
           (sign_queue.Y round) (sign_queue.PartySelf round)
           (sign_queue.Secret round) (sign_queue.e round)
           (sign_queue.d round)
           (sign_queue.Parties round') (sign_queue.R round')
           (sign_queue.C round'))
  ∧ (∀ (order1 order2 : list Z) (round : sign.base),
       sign.readyForNextRound round = false →
       order1 ≡ₚ (map_to_list (sign.Parties round)).*1 →
       order2 ≡ₚ (map_to_list (sign.Parties round)).*1 →
       (∀ i, i ∈ sign.AllParties round → is_Some (sign.Parties round !! i)) →
       is_Some (sign.Parties round !! sign.PartySelf round) →
       (∀ i, is_Some (sign.Parties round !! i) → i ≠ sign.PartySelf round →
             is_Some (sign.msgs1 round !! i)) →
       ∃ round',
         sign.ProcessRound order1 order2 round
         = Return (round',
                   [messages.NewSign2 (sign.PartySelf round)
                      (Zi_of (sign.Parties round') (sign.PartySelf round))],
                   None)
         ∧ round1_computes (sign.AllParties round)
             (received_parties round) (sign.Message round)
             (sign.Y round) (sign.PartySelf round)
             (sign.Secret round) (sign.e round) (sign.d round)
             (sign.Parties round') (sign.R round') (sign.C round')).
Proof.
  split.
  - intros order round Hflag Ho Hall Hself.
    destruct (order_keys _ _ Ho) as [Hnd Hdom].
    eexists. split.
    + by apply sign_queue_ProcessRound_returns.
    + cbn [sign_queue.finish_round sign_queue.Parties sign_queue.R
           sign_queue.C].
      by apply round1_closed_form_computes.
  - intros order1 order2 round Hflag Ho1 Ho2 Hall Hself Hms.
    rewrite (sign_ProcessRound_returns order1 order2 round) by done.
    match goal with
    | |- ∃ _, Return (?r, _, _) = _ ∧ _ => exists r
    end.
    split; [reflexivity|].
    + cbn [sign.finish_round sign.Parties sign.R sign.C].
      apply round1_closed_form_computes.
      * intros i Hi. apply received_parties_is_Some. by apply Hall.
      * by apply received_parties_is_Some.
Qed.

(** ** A signing session of two parties, on the group [DLog] *)

Lemma example_parties_keys :
  [2; 1] ≡ₚ (map_to_list example_parties).*1.
Proof.
  unfold example_parties. rewrite map_to_list_insert by done.
  rewrite map_to_list_singleton. apply perm_swap.
Qed.

Lemma example_parties_lookup (i : Z) :
  i ∈ [1; 2] → is_Some (example_parties !! i).
Proof.
  intros Hi. apply elem_of_cons in Hi as [->|Hi]; [by eexists|].
  apply list_elem_of_singleton in Hi as ->. by eexists.
Qed.

Section SignWitness.
#[local] Existing Instance DLog.curve.
#[local] Existing Instance DLog.digest.
#[local] Existing Instance DLog_queue.

Lemma C1_round1_ProcessRound_witness :
  ∃ round',
    sign_queue.ProcessRound [2; 1] example_sign_queue = Return (round', None)
    ∧ round1_computes [1; 2] example_parties [104; 105] 99 1 7 6 5
        (sign_queue.Parties round') (sign_queue.R round')
        (sign_queue.C round').
Proof.
  apply (proj1 (C1_round1_ProcessRound (H := DLog.curve) (H0 := DLog.digest)
                  (Q := DLog_queue)) [2; 1] example_sign_queue).
  - reflexivity.
  - exact example_parties_keys.
  - exact example_parties_lookup.
  - by eexists.
Defined.

(** C7 does not hold of [round1.go].  With three signers, the local party
    being 1, and no [Sign1] message received yet, the count of messages (0)
    differs from the number of peers (2), the loop that looks for each
    peer's message is skipped, and [CanProcess] answers [true] although the
    messages of peers 2 and 3 are missing; [ProcessRound] then panics on
    the missing message.  The same holds of every round whose count of
    messages differs from the number of peers. *)
Theorem C7_CanProcess_without_messages :
  sign.CanProcess [1; 2; 3] (example_sign false) = true
  ∧ sign.msgs1 (example_sign false) !! 2 = None
  ∧ sign.msgs1 (example_sign false) !! 3 = None
  ∧ sign.ProcessRound [1; 2; 3] [1; 2; 3] (example_sign false)
    = Panic "nil pointer dereference"
  ∧ (∀ (order : list Z) (round : sign.base),
       sign.readyForNextRound round = false →
       Z.of_nat (size (sign.msgs1 round))
       ≠ Z.of_nat (length (sign.AllParties round)) - 1 →
       sign.CanProcess order round = true).
Proof.
  split; [reflexivity|]. split; [reflexivity|]. split; [reflexivity|].
  split; [reflexivity|].
  intros order round Hflag Hsize. unfold sign.CanProcess.
  rewrite Hflag. by rewrite decide_False.
Qed.

End SignWitness.

(** ** The nonces after round 1 *)

Section SignNonces.
Import edwards25519 sign.
Context `{Curve} `{Sha512} `{Q : messages.QueueAPI messages.Message}.

Lemma bind_Return_inv {A B} (m : outcome A) (f : A → outcome B) (b : B) :
  m ≫= f = Return b → ∃ a, m = Return a ∧ f a = Return b.
Proof. destruct m as [a|r]; [by exists a|done]. Qed.

Lemma sign_queue_ProcessRound_keeps (order : list Z)
    (round round' : sign_queue.base) (err : option error) :
  sign_queue.ProcessRound order round = Return (round', err) →
  sign_queue.d round' = sign_queue.d round
  ∧ sign_queue.e round' = sign_queue.e round
  ∧ sign_queue.Secret round' = sign_queue.Secret round.
Proof.
  unfold sign_queue.ProcessRound.
  destruct (sign_queue.roundProcessed round).
  { intros [= <- _]. done. }
  intros Hrun.
  apply bind_Return_inv in Hrun as (B & _ & Hrun).
  apply bind_Return_inv in Hrun as (st & _ & Hrun).
  apply bind_Return_inv in Hrun as (c & _ & Hrun).
  destruct (st.1 !! sign_queue.PartySelf round); [|done].
  by injection Hrun as <- _.
Qed.

Lemma sign_ProcessRound_keeps (order1 order2 : list Z)
    (round round' : base) (msgs : list messages.Message)
    (err : option error) :
  ProcessRound order1 order2 round = Return (round', msgs, err) →
  d round' = d round ∧ e round' = e round ∧ Secret round' = Secret round.
Proof.
  unfold ProcessRound.
  destruct (readyForNextRound round).
  { intros [= <- _ _]. done. }
  intros Hrun.
  apply bind_Return_inv in Hrun as (r & Hr & Hrun).
  unfold ProcessMessages in Hr.
  apply bind_Return_inv in Hr as (st0 & _ & Hr).
  injection Hr as <-. cbn [fst snd] in Hrun.
  apply bind_Return_inv in Hrun as (B & _ & Hrun).
  apply bind_Return_inv in Hrun as (st & _ & Hrun).
  cbn [with_Parties_msgs1 PartySelf] in Hrun.
  destruct (st.1 !! PartySelf round); [|done].
  apply bind_Return_inv in Hrun as (c & _ & Hrun).
  by injection Hrun as <- _.
Qed.

End SignNonces.

(** C9 (as the code has it).  When [ProcessRound] of signing round 1
    returns, in either revision of the file, the nonce scalars [d] and [e]
    are in the round as they were before the call: the call does not erase
    them (nor the secret share). *)
Theorem C9_nonces_are_kept
    `{edwards25519.Curve} `{Sha512}
    `{Q : messages.QueueAPI messages.Message} :
  (∀ (order : list Z) (round round' : sign_queue.base) (err : option error),
     sign_queue.ProcessRound order round = Return (round', err) →
     sign_queue.d round' = sign_queue.d round
     ∧ sign_queue.e round' = sign_queue.e round)
  ∧ (∀ (order1 order2 : list Z) (round round' : sign.base)
       (msgs : list messages.Message) (err : option error),
       sign.ProcessRound order1 order2 round = Return (round', msgs, err) →
       sign.d round' = sign.d round ∧ sign.e round' = sign.e round).
Proof.
  split.
  - intros order round round' err Hrun.
    destruct (sign_queue_ProcessRound_keeps _ _ _ _ Hrun) as (? & ? & _).
    by split.
  - intros order1 order2 round round' msgs err Hrun.
    destruct (sign_ProcessRound_keeps _ _ _ _ _ _ Hrun) as (? & ? & _).
    by split.
Qed.

Section NoncesWitness.
#[local] Existing Instance DLog.curve.
#[local] Existing Instance DLog.digest.
#[local] Existing Instance DLog_queue.

Lemma example_sign_queue_returns :
  ∃ round',
    sign_queue.ProcessRound [2; 1] example_sign_queue = Return (round', None).
Proof.
  eexists. apply sign_queue_ProcessRound_returns.
  - reflexivity.
  - apply (order_keys example_parties), example_parties_keys.
  - apply (order_keys example_parties), example_parties_keys.
  - exact example_parties_lookup.
  - by eexists.
Qed.

(** Against C9: the round of the example is processed successfully, and
    afterwards [d] is still 5 and [e] is still 6, not zero. *)
Lemma C9_counterexample :
  ∃ round',
    sign_queue.ProcessRound [2; 1] example_sign_queue = Return (round', None)
    ∧ sign_queue.d round' = 5 ∧ sign_queue.e round' = 6
    ∧ edwards25519.NewScalar = 0.
Proof.
  destruct example_sign_queue_returns as [round' Hrun].
  exists round'. split; [exact Hrun|].
  destruct (sign_queue_ProcessRound_keeps _ _ _ _ Hrun) as (-> & -> & _).
  by repeat split.
Qed.

Lemma C9_nonces_are_kept_witness :
  ∃ round',
    sign_queue.ProcessRound [2; 1] example_sign_queue = Return (round', None)
    ∧ sign_queue.d round' = sign_queue.d example_sign_queue
    ∧ sign_queue.e round' = sign_queue.e example_sign_queue.
Proof.
  destruct example_sign_queue_returns as [round' Hrun].
  exists round'. split; [exact Hrun|].
  exact (proj1 C9_nonces_are_kept [2; 1] example_sign_queue round' None Hrun).
Defined.

End NoncesWitness.

(** ** Determinism of the transcript *)

Section Transcript.
Import edwards25519 sign.
Context `{Curve} `{Sha512}.

Lemma nonce_points_is_Some (ps1 ps2 : gmap Z Party) (i : Z) :
  nonce_points ps1 i = nonce_points ps2 i →
  is_Some (ps1 !! i) ↔ is_Some (ps2 !! i).
Proof.
  unfold nonce_points. intros Heq.
  rewrite <- (fmap_is_Some (λ party, (Di party, Ei party)) (ps1 !! i)).
  rewrite Heq. apply fmap_is_Some.
Qed.

Lemma triple_nonce_points (ps1 ps2 : gmap Z Party) (i : Z) :
  nonce_points ps1 i = nonce_points ps2 i → triple ps1 i = triple ps2 i.
Proof.
  unfold nonce_points, triple.
  destruct (ps1 !! i) as [p1|], (ps2 !! i) as [p2|]; cbn; try done.
  by intros [= -> ->].
Qed.

Lemma round1_B_nonce_points all (ps1 ps2 : gmap Z Party) :
  (∀ i, nonce_points ps1 i = nonce_points ps2 i) →
  round1_B all ps1 = round1_B all ps2.
Proof.
  intros Heq. unfold round1_B. f_equal. apply list_fmap_ext.
  intros _ i _. by apply triple_nonce_points.
Qed.

Lemma Ri_of_bound_nonce_points message B (ps1 ps2 : gmap Z Party) (i : Z) :
  nonce_points ps1 i = nonce_points ps2 i →
  Ri_of (bound_parties message B ps1) i
  = Ri_of (bound_parties message B ps2) i.
Proof.
  unfold nonce_points, Ri_of. rewrite !lookup_bound_parties.
  destruct (ps1 !! i) as [p1|], (ps2 !! i) as [p2|]; cbn; try done.
  by intros [= -> ->].
Qed.

Lemma round1_R_nonce_points all (ps1 ps2 : gmap Z Party) message :
  (∀ i, nonce_points ps1 i = nonce_points ps2 i) →
  round1_R all ps1 message = round1_R all ps2 message.
Proof.
  intros Heq.
  rewrite (round1_R_order all ps2 message (map_to_list ps1).*1).
  - unfold round1_R. f_equal.
    rewrite (round1_B_nonce_points all ps1 ps2 Heq).
    apply list_fmap_ext. intros _ i _. by apply Ri_of_bound_nonce_points.
  - apply NoDup_fst_map_to_list.
  - intros i. rewrite <- (nonce_points_is_Some ps1 ps2 i (Heq i)).
    by apply (order_keys ps1).
Qed.

Lemma round1_c_nonce_points all (ps1 ps2 : gmap Z Party) message Ykey :
  (∀ i, nonce_points ps1 i = nonce_points ps2 i) →
  round1_c all ps1 message Ykey = round1_c all ps2 message Ykey.
Proof.
  intros Heq. unfold round1_c.
  by rewrite (round1_R_nonce_points all ps1 ps2 message Heq).
Qed.

(** [ρ_i] in the parties at the end of the round. *)
Lemma round1_parties_Pi all (parties : gmap Z Party) message Ykey self
    secret e_ d_ (i : Z) :
  Pi <$> round1_parties all parties message Ykey self secret e_ d_ !! i
  = (λ _, rho message (round1_B all parties) i) <$> parties !! i.
Proof.
  unfold round1_parties. cbv zeta.
  destruct (bound_parties message (round1_B all parties) parties !! self)
    as [selfParty|] eqn:Hself.
  - destruct (decide (i = self)) as [->|Hne].
    + rewrite lookup_insert_eq. rewrite lookup_bound_parties in Hself.
      destruct (parties !! self) as [p|]; [|done].
      by injection Hself as <-.
    + rewrite lookup_insert_ne by done. rewrite lookup_bound_parties.
      by destruct (parties !! i).
  - rewrite lookup_bound_parties. by destruct (parties !! i).
Qed.

Lemma round1_parties_Pi_nonce_points all (ps1 ps2 : gmap Z Party) message
    Y1 Y2 self1 self2 s1 s2 e1 e2 d1 d2 (i : Z) :
  (∀ i, nonce_points ps1 i = nonce_points ps2 i) →
  Pi <$> round1_parties all ps1 message Y1 self1 s1 e1 d1 !! i
  = Pi <$> round1_parties all ps2 message Y2 self2 s2 e2 d2 !! i.
Proof.
  intros Heq. rewrite !round1_parties_Pi.
  rewrite (round1_B_nonce_points all ps1 ps2 Heq).
  pose proof (nonce_points_is_Some ps1 ps2 i (Heq i)) as Hiff.
  destruct (ps1 !! i) as [p1|] eqn:E1, (ps2 !! i) as [p2|] eqn:E2;
    try done.
  - destruct (proj1 Hiff) as [? ?]; [by eexists|done].
  - destruct (proj2 Hiff) as [? ?]; [by eexists|done].
Qed.

End Transcript.

Section TranscriptRuns.
Import edwards25519.
Context `{Curve} `{Sha512} `{Q : messages.QueueAPI messages.Message}.

Lemma queue_round_ready_returns order round :
  queue_round_ready order round →
  sign_queue.ProcessRound order round
  = Return
      (sign_queue.finish_round
         (round1_parties (sign_queue.AllParties round)
            (sign_queue.Parties round) (sign_queue.Message round)
            (sign_queue.Y round) (sign_queue.PartySelf round)
            (sign_queue.Secret round) (sign_queue.e round)
            (sign_queue.d round))
         (round1_R (sign_queue.AllParties round) (sign_queue.Parties round)
            (sign_queue.Message round))
         (round1_c (sign_queue.AllParties round) (sign_queue.Parties round)
            (sign_queue.Message round) (sign_queue.Y round))
         round,
       None)
  ∧ sign.compute_B (sign_queue.AllParties round) (sign_queue.Parties round)
    = Return (round1_B (sign_queue.AllParties round)
                (sign_queue.Parties round)).
Proof.
  intros (Hflag & Ho & Hall & Hself).
  destruct (order_keys _ _ Ho) as [Hnd Hdom]. split.
  - by apply sign_queue_ProcessRound_returns.
  - by apply compute_B_returns.
Qed.

Lemma direct_round_ready_returns order1 order2 round :
  direct_round_ready order1 order2 round →
  sign.ProcessRound order1 order2 round
  = Return
      (sign.finish_round
         (round1_parties (sign.AllParties round) (received_parties round)
            (sign.Message round) (sign.Y round) (sign.PartySelf round)
            (sign.Secret round) (sign.e round) (sign.d round))
         (round1_R (sign.AllParties round) (received_parties round)
            (sign.Message round))
         (round1_c (sign.AllParties round) (received_parties round)
            (sign.Message round) (sign.Y round))
         (sign.with_Parties_msgs1 (received_parties round)
            (remaining_msgs1 round) round),
       [messages.NewSign2 (sign.PartySelf round)
          (Zi_of (round1_parties (sign.AllParties round)
                    (received_parties round) (sign.Message round)
                    (sign.Y round) (sign.PartySelf round)
                    (sign.Secret round) (sign.e round) (sign.d round))
                 (sign.PartySelf round))],
       None)
  ∧ sign.compute_B (sign.AllParties round) (received_parties round)
    = Return (round1_B (sign.AllParties round) (received_parties round)).
Proof.
  intros (Hflag & Ho1 & Ho2 & Hall & Hself & Hms). split.
  - by apply sign_ProcessRound_returns.
  - apply compute_B_returns. intros i Hi.
    apply received_parties_is_Some. by apply Hall.
Qed.

End TranscriptRuns.

(** C4.  Determinism of the transcript.  Take two runs of [ProcessRound]
    of signing round 1 (two parties of a session, each with its own local
    ID, secrets and order of visit of the map of parties) on rounds with
    the same signer list, the same message and the same nonce points
    [(D_i, E_i)] for every party.  Both runs return, and they compute the
    same bytes [B], the same [ρ_i] for every party [i] and the same [R];
    each computes its challenge [c] from [(R, Y, M)], so that the
    challenges are the same under the group key [Y] of the session.  In
    particular, the result of [ProcessRound] on a round does not depend on
    the order in which the loops over the map visit its keys.  This holds
    of both revisions of the file; in [round1.go] the nonce points are
    those in the parties after the peers' messages have been taken in. *)
Theorem C4_transcript_is_deterministic
    `{edwards25519.Curve} `{Sha512}
    `{Q : messages.QueueAPI messages.Message} :
  (∀ (order1 order2 : list Z) (r1 r2 : sign_queue.base),
     queue_round_ready order1 r1 → queue_round_ready order2 r2 →
     sign_queue.AllParties r1 = sign_queue.AllParties r2 →
     sign_queue.Message r1 = sign_queue.Message r2 →
     (∀ i, nonce_points (sign_queue.Parties r1) i
           = nonce_points (sign_queue.Parties r2) i) →
     ∃ r1' r2' B,
       sign_queue.ProcessRound order1 r1 = Return (r1', None)
       ∧ sign_queue.ProcessRound order2 r2 = Return (r2', None)
       ∧ sign.compute_B (sign_queue.AllParties r1) (sign_queue.Parties r1)
         = Return B
       ∧ sign.compute_B (sign_queue.AllParties r2) (sign_queue.Parties r2)
         = Return B
       ∧ (∀ i, sign.Pi <$> sign_queue.Parties r1' !! i
               = sign.Pi <$> sign_queue.Parties r2' !! i)
       ∧ sign_queue.R r1' = sign_queue.R r2'
       ∧ eddsa.ComputeChallenge (sign_queue.Message r1) (sign_queue.Y r1)
           (sign_queue.R r1') = Return (sign_queue.C r1')
       ∧ eddsa.ComputeChallenge (sign_queue.Message r2) (sign_queue.Y r2)
           (sign_queue.R r2') = Return (sign_queue.C r2')
       ∧ (sign_queue.Y r1 = sign_queue.Y r2 →
          sign_queue.C r1' = sign_queue.C r2'))
  ∧ (∀ (o1 o1' o2 o2' : list Z) (r1 r2 : sign.base),
       direct_round_ready o1 o1' r1 → direct_round_ready o2 o2' r2 →
       sign.AllParties r1 = sign.AllParties r2 →
       sign.Message r1 = sign.Message r2 →
       (∀ i, nonce_points (received_parties r1) i
             = nonce_points (received_parties r2) i) →
       ∃ r1' r2' m1 m2 B,
         sign.ProcessRound o1 o1' r1 = Return (r1', m1, None)
         ∧ sign.ProcessRound o2 o2' r2 = Return (r2', m2, None)
         ∧ sign.compute_B (sign.AllParties r1) (received_parties r1)
           = Return B
         ∧ sign.compute_B (sign.AllParties r2) (received_parties r2)
           = Return B
         ∧ (∀ i, sign.Pi <$> sign.Parties r1' !! i
                 = sign.Pi <$> sign.Parties r2' !! i)
         ∧ sign.R r1' = sign.R r2'
         ∧ eddsa.ComputeChallenge (sign.Message r1) (sign.Y r1)
             (sign.R r1') = Return (sign.C r1')
         ∧ eddsa.ComputeChallenge (sign.Message r2) (sign.Y r2)
             (sign.R r2') = Return (sign.C r2')
         ∧ (sign.Y r1 = sign.Y r2 → sign.C r1' = sign.C r2'))
  ∧ (∀ (order1 order2 : list Z) (round : sign_queue.base),
       queue_round_ready order1 round → queue_round_ready order2 round →
       sign_queue.ProcessRound order1 round
       = sign_queue.ProcessRound order2 round)
  ∧ (∀ (o1 o1' o2 o2' : list Z) (round : sign.base),
       direct_round_ready o1 o1' round → direct_round_ready o2 o2' round →
       sign.ProcessRound o1 o1' round = sign.ProcessRound o2 o2' round).
Proof.
  split; [|split; [|split]].
  - intros order1 order2 r1 r2 H1 H2 Hall Hmsg Hnonce.
    destruct (queue_round_ready_returns _ _ H1) as [-> ->].
    destruct (queue_round_ready_returns _ _ H2) as [-> ->].
    eexists _, _, _. split; [done|]. split; [done|]. split; [done|].
    cbn [sign_queue.finish_round sign_queue.Parties sign_queue.R
         sign_queue.C].
    rewrite <- Hall, <- Hmsg.
    split; [by rewrite (round1_B_nonce_points _ _ _ Hnonce)|].
    split; [|split; [|split; [|split]]].
    + intros i. by apply round1_parties_Pi_nonce_points.
    + by apply round1_R_nonce_points.
    + apply SetUniformBytes_digest.
    + apply SetUniformBytes_digest.
    + intros <-. by apply round1_c_nonce_points.
  - intros o1 o1' o2 o2' r1 r2 H1 H2 Hall Hmsg Hnonce.
    destruct (direct_round_ready_returns _ _ _ H1) as [-> ->].
    destruct (direct_round_ready_returns _ _ _ H2) as [-> ->].
    eexists _, _, _, _, _. split; [done|]. split; [done|]. split; [done|].
    cbn [sign.finish_round sign.Parties sign.R sign.C].
    rewrite <- Hall, <- Hmsg.
    split; [by rewrite (round1_B_nonce_points _ _ _ Hnonce)|].
    split; [|split; [|split; [|split]]].
    + intros i. by apply round1_parties_Pi_nonce_points.
    + by apply round1_R_nonce_points.
    + apply SetUniformBytes_digest.
    + apply SetUniformBytes_digest.
    + intros <-. by apply round1_c_nonce_points.
  - intros order1 order2 round H1 H2.
    destruct (queue_round_ready_returns _ _ H1) as [-> _].
    by destruct (queue_round_ready_returns _ _ H2) as [-> _].
  - intros o1 o1' o2 o2' round H1 H2.
    destruct (direct_round_ready_returns _ _ _ H1) as [-> _].
    by destruct (direct_round_ready_returns _ _ _ H2) as [-> _].
Qed.

Section TranscriptWitness.
#[local] Existing Instance DLog.curve.
#[local] Existing Instance DLog.digest.
#[local] Existing Instance DLog_queue.

Lemma example_sign_queue_ready :
  queue_round_ready [2; 1] example_sign_queue.
Proof.
  split; [reflexivity|]. split; [exact example_parties_keys|].
  split; [exact example_parties_lookup|]. by eexists.
Qed.

Lemma example_sign_queue_of_2_ready :
  queue_round_ready [1; 2] example_sign_queue_of_2.
Proof.
  split; [reflexivity|]. split; [|split].
  - cbn [sign_queue.Parties example_sign_queue_of_2].
    unfold example_parties_of_2. rewrite map_to_list_insert by done.
    by rewrite map_to_list_singleton.
  - intros i Hi. apply elem_of_cons in Hi as [->|Hi]; [by eexists|].
    apply list_elem_of_singleton in Hi as ->. by eexists.
  - by eexists.
Qed.

Lemma example_nonce_points (i : Z) :
  nonce_points example_parties i = nonce_points example_parties_of_2 i.
Proof.
  unfold nonce_points, example_parties, example_parties_of_2.
  destruct (decide (i = 1)) as [->|H1].
  - by rewrite !lookup_insert_eq.
  - by rewrite !lookup_insert_ne.
Qed.

Lemma C4_transcript_is_deterministic_witness :
  ∃ r1' r2',
    sign_queue.ProcessRound [2; 1] example_sign_queue = Return (r1', None)
    ∧ sign_queue.ProcessRound [1; 2] example_sign_queue_of_2
      = Return (r2', None)
    ∧ sign_queue.R r1' = sign_queue.R r2'
    ∧ sign_queue.C r1' = sign_queue.C r2'.
Proof.
  destruct (proj1 C4_transcript_is_deterministic [2; 1] [1; 2]
              example_sign_queue example_sign_queue_of_2
              example_sign_queue_ready example_sign_queue_of_2_ready
              eq_refl eq_refl example_nonce_points)
    as (r1' & r2' & B & H1 & H2 & _ & _ & _ & HR & _ & _ & HC).
  exists r1', r2'. split; [exact H1|]. split; [exact H2|].
  split; [exact HR|]. exact (HC eq_refl).
Defined.

End TranscriptWitness.

(** * Further properties of the code *)

(** ** Package [party]: the encodings of an ID *)

Lemma lor_high_low (hi lo : Z) :
  0 ≤ hi → 0 ≤ lo < 256 → Z.lor lo (hi * 256) = hi * 256 + lo.
Proof.
  intros Hhi Hlo.
  assert (Hland : Z.land lo (hi * 256) = 0).
  { apply Z.bits_inj'. intros n Hn. rewrite Z.land_spec, Z.bits_0.
    destruct (Z.lt_ge_cases n 8) as [Hlt|Hge].
    - change 256 with (2 ^ 8). rewrite Z.mul_pow2_bits_low by lia.
      apply andb_false_r.
    - rewrite <- (Z.mod_small lo (2 ^ 8)) by (change (2 ^ 8) with 256; lia).
      by rewrite Z.mod_pow2_bits_high by lia. }
  rewrite <- Z.lxor_lor by done.
  rewrite <- Z.add_nocarry_lxor by done. lia.
Qed.

Lemma BigEndian_Uint16_value (b0 b1 : Z) (rest : list Z) :
  0 ≤ b0 < 256 → 0 ≤ b1 < 256 →
  BigEndian_Uint16 (b0 :: b1 :: rest) = Return (b0 * 256 + b1).
Proof.
  intros H0 H1. unfold BigEndian_Uint16.
  rewrite (uint16_id b1), (uint16_id b0) by (unfold is_uint16; lia).
  rewrite Z.shiftl_mul_pow2 by lia. change (2 ^ 8) with 256.
  rewrite (uint16_id (b0 * 256)) by (unfold is_uint16; lia).
  by rewrite lor_high_low by lia.
Qed.

Lemma Bytes_value (p : party.ID) :
  is_uint16 p → party.Bytes p = [p / 256; p mod 256].
Proof.
  intros Hp. unfold party.Bytes. rewrite (uint16_id p Hp), !uint8_mod.
  rewrite Z.shiftr_div_pow2 by lia. change (2 ^ 8) with 256.
  rewrite (Z.mod_small (p / 256)); [done|].
  unfold is_uint16 in Hp. split; [apply Z.div_pos; lia|].
  apply Z.div_lt_upper_bound; lia.
Qed.

(** Decoding the two bytes of an ID gives the ID back. *)
Lemma FromBytes_Bytes (p : party.ID) (rest : list Z) :
  is_uint16 p → party.FromBytes (party.Bytes p ++ rest) = Return p.
Proof.
  intros Hp. rewrite (Bytes_value p Hp). unfold party.FromBytes.
  cbn [app]. rewrite BigEndian_Uint16_value.
  - rewrite bind_Return.
    assert (p / 256 * 256 + p mod 256 = p) as ->
      by (pose proof (Z.div_mod p 256); lia).
    by rewrite uint16_id.
  - unfold is_uint16 in Hp. split; [apply Z.div_pos; lia|].
    apply Z.div_lt_upper_bound; lia.
  - apply Z.mod_pos_bound. lia.
Qed.

(** Encoding the ID read from two bytes gives the two bytes back. *)
Lemma Bytes_FromBytes (b0 b1 : Z) (rest : list Z) :
  0 ≤ b0 < 256 → 0 ≤ b1 < 256 →
  ∃ p, party.FromBytes (b0 :: b1 :: rest) = Return p
       ∧ is_uint16 p ∧ party.Bytes p = [b0; b1].
Proof.
  intros H0 H1. exists (b0 * 256 + b1).
  assert (Hp : is_uint16 (b0 * 256 + b1)) by (unfold is_uint16; lia).
  split; [|split; [done|]].
  - unfold party.FromBytes. rewrite BigEndian_Uint16_value by done.
    by rewrite bind_Return, uint16_id.
  - rewrite (Bytes_value _ Hp). f_equal; [|f_equal].
    + rewrite Z.div_add_l by lia. rewrite Z.div_small by lia. lia.
    + rewrite Z.add_comm, Z.mod_add by lia. apply Z.mod_small. lia.
Qed.

(** X1.  [Bytes] and [FromBytes] are inverse to each other: an ID is two
    bytes, the high byte first, from which (whatever follows them)
    [FromBytes] reads the ID back; and the ID read from two bytes encodes
    as these bytes. *)
Theorem X1_Bytes_FromBytes_round_trip :
  (∀ (p : party.ID) (rest : list Z),
     is_uint16 p →
     Z.of_nat (length (party.Bytes p)) = party.ByteSize
     ∧ party.Bytes p = [p / 256; p mod 256]
     ∧ Forall (λ b, 0 ≤ b < 256) (party.Bytes p)
     ∧ party.FromBytes (party.Bytes p ++ rest) = Return p)
  ∧ (∀ (b0 b1 : Z) (rest : list Z),
       0 ≤ b0 < 256 → 0 ≤ b1 < 256 →
       ∃ p, party.FromBytes (b0 :: b1 :: rest) = Return p
            ∧ is_uint16 p ∧ party.Bytes p = [b0; b1]).
Proof.
  split.
  - intros p rest Hp. split; [done|]. split; [by apply Bytes_value|]. split.
    + unfold party.Bytes. rewrite !uint8_mod.
      repeat constructor; apply Z.mod_pos_bound; lia.
    + by apply FromBytes_Bytes.
  - apply Bytes_FromBytes.
Qed.

(** X2.  [FromBytes] panics on a slice of fewer than [ByteSize] bytes, and
    never otherwise; it ignores everything after the first two bytes. *)
Theorem X2_FromBytes_short_input (b : list Z) :
  (Z.of_nat (length b) < party.ByteSize ↔
   party.FromBytes b = Panic "index out of range")
  ∧ (party.ByteSize ≤ Z.of_nat (length b) →
     party.FromBytes b = party.FromBytes (take 2 b)
     ∧ ∃ p, party.FromBytes b = Return p ∧ is_uint16 p).
Proof.
  unfold party.ByteSize. destruct b as [|b0 [|b1 rest]]; cbn [length].
  - split; [split; [done|lia]|lia].
  - split; [split; [done|lia]|lia].
  - split.
    + split; [lia|done].
    + intros _. split; [done|].
      eexists. split; [done|]. unfold uint16, is_uint16.
      change 65535 with (Z.ones 16). rewrite Z.land_ones by lia.
      apply Z.mod_pos_bound. lia.
Qed.

(** ** Package [party]: an ID as text *)

Section DecimalText.
Import strconv.

Lemma digit_pretty_N_char (d : N) :
  (d < 10)%N → digit (pretty_N_char d) = Some (Z.of_N d).
Proof.
  intros Hd.
  assert (d = 0 ∨ d = 1 ∨ d = 2 ∨ d = 3 ∨ d = 4 ∨ d = 5 ∨ d = 6 ∨ d = 7
          ∨ d = 8 ∨ d = 9)%N as Hcases by lia.
  repeat (destruct Hcases as [->|Hcases]; [reflexivity|]).
  by subst.
Qed.

Lemma digit_range (c : ascii) (d : Z) : digit c = Some d → 0 ≤ d ≤ 9.
Proof.
  unfold digit. destruct (_ && _) eqn:E; [|done].
  intros [= <-]. apply andb_true_iff in E as [E1 E2]. lia.
Qed.

(** Reading the digits that [pretty] wrote for [x] leaves the value [x],
    as long as [x] fits. *)
Lemma ParseUint_loop_pretty (maxVal : Z) (x : N) (s : string) :
  Z.of_N x ≤ maxVal →
  ParseUint_loop maxVal (list_ascii_of_string (pretty_N_go x s)) 0
  = ParseUint_loop maxVal (list_ascii_of_string s) (Z.of_N x).
Proof.
  revert s. induction (N.lt_wf_0 x) as [x _ IH]. intros s Hx.
  destruct (decide (x = 0%N)) as [->|Hpos]; [done|].
  rewrite pretty_N_go_step by lia.
  rewrite IH.
  - cbn [list_ascii_of_string ParseUint_loop].
    rewrite digit_pretty_N_char by (apply N.mod_lt; lia).
    assert (Z.of_N (x `div` 10) * 10 + Z.of_N (x `mod` 10) = Z.of_N x) as ->.
    { pose proof (N.div_mod x 10). lia. }
    by rewrite decide_False by lia.
  - apply N.div_lt; lia.
  - pose proof (N.Div0.div_le_upper_bound x 10 x). lia.
Qed.

(** The digits of a number that does not fit are refused with a range
    error. *)
Lemma ParseUint_loop_pretty_range (maxVal : Z) (x : N) (s : string) :
  0 ≤ maxVal < Z.of_N x →
  ParseUint_loop maxVal (list_ascii_of_string (pretty_N_go x s)) 0
  = (maxVal, Some ErrRange).
Proof.
  revert s. induction (N.lt_wf_0 x) as [x _ IH]. intros s Hx.
  rewrite pretty_N_go_step by lia.
  destruct (decide (maxVal < Z.of_N (x `div` 10))) as [Hbig|Hfits].
  - apply IH; [apply N.div_lt; lia|lia].
  - rewrite ParseUint_loop_pretty by lia.
    cbn [list_ascii_of_string ParseUint_loop].
    rewrite digit_pretty_N_char by (apply N.mod_lt; lia).
    assert (Z.of_N (x `div` 10) * 10 + Z.of_N (x `mod` 10) = Z.of_N x) as ->.
    { pose proof (N.div_mod x 10). lia. }
    by rewrite decide_True by lia.
Qed.

Lemma ParseUint_loop_bound (maxVal : Z) (cs : list ascii) (n v : Z) :
  0 ≤ n ≤ maxVal → ParseUint_loop maxVal cs n = (v, None) → 0 ≤ v ≤ maxVal.
Proof.
  revert n. induction cs as [|c cs IH]; intros n Hn; cbn [ParseUint_loop].
  - by intros [= <-].
  - destruct (digit c) as [d|] eqn:Hd; [|done].
    apply digit_range in Hd.
    destruct (decide _); [done|]. apply IH. lia.
Qed.

Lemma pretty_N_chars (x : N) :
  list_ascii_of_string (pretty x) ≠ [].
Proof.
  unfold pretty, pretty_N. destruct (decide (x = 0%N)) as [->|Hx]; [done|].
  rewrite pretty_N_go_step by lia.
  intros Hnil.
  pose proof (ParseUint_loop_pretty (Z.of_N (x `div` 10)) (x `div` 10)
                (String (pretty_N_char (x `mod` 10)) "")
                ltac:(lia)) as Hloop.
  rewrite Hnil in Hloop. cbn [list_ascii_of_string ParseUint_loop] in Hloop.
  rewrite digit_pretty_N_char in Hloop by (apply N.mod_lt; lia).
  destruct (decide _); [done|]. cbn in Hloop.
  injection Hloop as Hloop. pose proof (N.div_mod x 10). lia.
Qed.

Lemma ParseUint_pretty (x : N) (bitSize : Z) :
  Z.of_N x ≤ Z.shiftl 1 bitSize - 1 →
  ParseUint (pretty x) bitSize = (Z.of_N x, None).
Proof.
  intros Hx. unfold ParseUint.
  destruct (list_ascii_of_string (pretty x)) as [|c cs] eqn:Hcs.
  { by destruct (pretty_N_chars x). }
  rewrite <- Hcs. unfold pretty, pretty_N.
  destruct (decide (x = 0%N)) as [->|Hpos].
  - cbn [list_ascii_of_string ParseUint_loop].
    change (digit "0") with (Some 0). cbv iota beta.
    rewrite decide_False; [done|]. change (Z.of_N 0) with 0 in Hx. lia.
  - by rewrite ParseUint_loop_pretty.
Qed.

Lemma ParseUint_pretty_range (x : N) (bitSize : Z) :
  0 ≤ Z.shiftl 1 bitSize - 1 < Z.of_N x →
  ParseUint (pretty x) bitSize
  = (Z.shiftl 1 bitSize - 1, Some (rangeError "ParseUint" (pretty x))).
Proof.
  intros Hx. unfold ParseUint.
  destruct (list_ascii_of_string (pretty x)) as [|c cs] eqn:Hcs.
  { by destruct (pretty_N_chars x). }
  rewrite <- Hcs. unfold pretty at 1, pretty_N.
  destruct (decide (x = 0%N)) as [->|Hpos]; [lia|].
  by rewrite ParseUint_loop_pretty_range.
Qed.

End DecimalText.

(** X3.  [String] and [IDFromString] round trip: the text of an ID reads
    back as that ID, without error.  Whatever [IDFromString] accepts is an
    ID (below 2¹⁶); the decimal text of a number above [MAX] and the empty
    text are refused, with ID 0 and a range or a syntax error. *)
Theorem X3_String_IDFromString_round_trip :
  (∀ p : party.ID, is_uint16 p → party.IDFromString (party.String p) = (p, None))
  ∧ (∀ (str : string) (p : party.ID),
       party.IDFromString str = (p, None) → is_uint16 p)
  ∧ (∀ x : N,
       party.MAX < Z.of_N x →
       party.IDFromString (pretty x)
       = (0, Some (strconv.rangeError "ParseUint" (pretty x))))
  ∧ party.IDFromString "" = (0, Some (strconv.syntaxError "ParseUint" "")).
Proof.
  split; [|split; [|split]].
  - intros p Hp. unfold party.IDFromString, party.String, strconv.FormatUint.
    rewrite (uint16_id p Hp).
    rewrite ParseUint_pretty.
    + unfold is_uint16 in Hp. rewrite Z2N.id by lia. by rewrite uint16_id.
    + unfold is_uint16 in Hp. rewrite Z2N.id by lia.
      change (Z.shiftl 1 16 - 1) with 65535. lia.
  - intros str p. unfold party.IDFromString, strconv.ParseUint.
    destruct (list_ascii_of_string str) as [|c cs]; [done|].
    destruct (strconv.ParseUint_loop _ _ _) as [v [[]|]] eqn:Hloop;
      [done..|].
    intros [= <-].
    apply ParseUint_loop_bound in Hloop; [|by vm_compute].
    change (Z.shiftl 1 16 - 1) with 65535 in Hloop.
    rewrite uint16_id; unfold is_uint16; lia.
  - intros x Hx. unfold party.IDFromString.
    rewrite ParseUint_pretty_range; [done|].
    change (Z.shiftl 1 16 - 1) with 65535.
    change party.MAX with 65535 in Hx. lia.
  - reflexivity.
Qed.

(** ** Command [keygen] *)

Lemma append_IDs_eq (count : nat) (id : Z) (partyIDs : list party.ID) :
  cmd_keygen.append_IDs count id partyIDs
  = partyIDs ++ ((λ i, uint16 (42 + i)) <$> seqZ id (Z.of_nat count)).
Proof.
  revert id partyIDs. induction count as [|count IH]; intros id partyIDs.
  - cbn. by rewrite app_nil_r.
  - cbn [cmd_keygen.append_IDs]. rewrite IH.
    rewrite Nat2Z.inj_succ.
    rewrite (seqZ_cons id (Z.succ (Z.of_nat count))) by lia.
    rewrite Z.pred_succ, <- app_assoc. done.
Qed.

Lemma IDs_from_42 (n : Z) :
  0 ≤ n ≤ 100 →
  (λ i, uint16 (42 + i)) <$> seqZ 0 n = (λ i, 42 + i) <$> seqZ 0 n.
Proof.
  intros Hn. apply list_fmap_ext. intros k i Hi.
  apply lookup_seqZ in Hi as [-> Hk].
  apply uint16_id. unfold is_uint16. lia.
Qed.

(** X4.  [main] of the [keygen] command, once both arguments parse as
    integers [t] and [n].  When [n > 100] or [t ≥ n] it prints the usage
    line and builds nothing.  Otherwise, when [n] is negative it panics in
    [make]; and when [0 ≤ n ≤ 100] it prints nothing and builds the [n]
    party IDs [42, 43, …, 41 + n], which are non-zero, at most [MAX] and
    pairwise distinct.  The guard lets through [n = 100] and any [t < n],
    zero and negative [t] included. *)
Theorem X4_keygen_main (arg0 a1 a2 : string) (t n : Z) :
  strconv.Atoi a1 = (t, None) →
  strconv.Atoi a2 = (n, None) →
  (cmd_keygen.maxN < n ∨ n ≤ t →
   cmd_keygen.main [arg0; a1; a2]
   = Return ([cmd_keygen.Printf_usage arg0], None))
  ∧ (t < n < 0 →
     cmd_keygen.main [arg0; a1; a2] = Panic "makeslice: cap out of range")
  ∧ (t < n → 0 ≤ n ≤ cmd_keygen.maxN →
     ∃ partyIDs,
       cmd_keygen.main [arg0; a1; a2] = Return ([], Some partyIDs)
       ∧ partyIDs = (λ i, 42 + i) <$> seqZ 0 n
       ∧ Z.of_nat (length partyIDs) = n
       ∧ NoDup partyIDs
       ∧ Forall (λ id, 0 < id ≤ party.MAX) partyIDs).
Proof.
  intros Ht Hn. unfold cmd_keygen.main. rewrite Ht, Hn.
  unfold cmd_keygen.maxN. split; [|split].
  - intros Hguard.
    assert (bool_decide (100 < n) || bool_decide (n ≤ t) = true) as ->; [|done].
    apply orb_true_iff. destruct Hguard; [left|right];
      by apply bool_decide_eq_true.
  - intros Hneg.
    rewrite (bool_decide_eq_false_2 (100 < n)) by lia.
    rewrite (bool_decide_eq_false_2 (n ≤ t)) by lia.
    cbn [orb]. by rewrite decide_True by lia.
  - intros Hlt Hrange.
    rewrite (bool_decide_eq_false_2 (100 < n)) by lia.
    rewrite (bool_decide_eq_false_2 (n ≤ t)) by lia.
    cbn [orb]. rewrite decide_False by lia.
    eexists. split; [done|].
    rewrite append_IDs_eq, app_nil_l, Z2Nat.id by lia.
    rewrite IDs_from_42 by lia.
    split; [done|]. split; [|split].
    + rewrite length_fmap, length_seqZ. lia.
    + apply NoDup_fmap_2; [|apply NoDup_seqZ]. intros i j. lia.
    + apply Forall_fmap, Forall_forall. intros i Hi.
      apply elem_of_seqZ in Hi. cbn. change party.MAX with 65535. lia.
Qed.

Lemma X4_keygen_main_witness :
  ∃ partyIDs,
    cmd_keygen.main ["keygen"; "-3"; "100"]%string
    = Return ([], Some partyIDs)
    ∧ Z.of_nat (length partyIDs) = 100
    ∧ NoDup partyIDs.
Proof.
  destruct (X4_keygen_main "keygen" "-3" "100" (-3) 100 eq_refl eq_refl)
    as (_ & _ & Hbuilt).
  destruct Hbuilt as (partyIDs & Hmain & _ & Hlen & Hnd & _);
    [lia|unfold cmd_keygen.maxN; lia|].
  exists partyIDs. by repeat split.
Defined.

(** ** The round life cycle of [base.go], further *)

Section LifeCycle.
Import rounds.
Context {Msg : Type} `{Q : messages.QueueAPI Msg}.

Lemma NewBaseRound_life_cycle_inv self ids types (b : BaseRound) :
  NewBaseRound self ids types = inl b → life_cycle_inv b.
Proof.
  intros Hb.
  destruct (NewBaseRound_fields _ _ _ _ Hb) as (He & Hd & Hs & _).
  unfold life_cycle_inv, terminal, named_state.
  rewrite He, Hd, Hs. split; [by right; left|]. split; [|done].
  split; [done|]. by intros [?|?].
Qed.

Lemma exec_life_cycle_inv (c : call) (b : BaseRound) :
  life_cycle_inv b → life_cycle_inv (exec c b).1.
Proof.
  unfold life_cycle_inv, terminal, named_state.
  intros (Hname & Hdone & Herr). destruct c; cbn [exec fst].
  - unfold PrepareNextRound. destruct (decide _) as [Hs|Hs]; [|done].
    cbn. split; [by left|]. split.
    + rewrite Hdone, Hs. split; by intros [?|?].
    + intros Hf. specialize (Herr Hf). by rewrite Hs in Herr.
  - unfold Abort. cbn [finalError set_state].
    destruct (finalError b) eqn:E.
    + cbn. split; [by do 5 right|]. split; [|done].
      rewrite Hdone, (Herr ltac:(done)). split; intros _; by right.
    + split; [rewrite close_done_state; by do 5 right|].
      rewrite close_done_closed, close_done_state. cbn.
      split; [|done]. split; intros _; [by right|done].
  - unfold Finish.
    destruct (bool_decide (state b = Abort_)) eqn:E1; [done|].
    destruct (bool_decide (state b = Finished)) eqn:E2; [done|].
    cbn [orb]. rewrite close_done_closed, close_done_state,
      close_done_finalError. cbn.
    apply bool_decide_eq_false in E1.
    split; [by do 4 right; left|]. split.
    + split; intros _; [by left|done].
    + intros Hf. by destruct E1; apply Herr.
  - unfold CanProcessMessages.
    destruct (isProcessingStep b); [done|]. by destruct (_ && _).
  - unfold CanProcessRound.
    destruct (isProcessingStep b); [done|]. by destruct (bool_decide _).
  - unfold CanGenerateMessages.
    destruct (isProcessingStep b); [done|]. by destruct (bool_decide _).
  - unfold NextStep. destruct (decide _) as [Hs|Hs].
    + cbn. rewrite Hs. split; [by right; left|]. split.
      * rewrite Hdone, Hs. split; by intros [?|?].
      * intros Hf. specialize (Herr Hf). by rewrite Hs in Herr.
    + destruct (bool_decide (state b = ProcessRound)) eqn:E1.
      { apply bool_decide_eq_true in E1. cbn. rewrite E1.
        split; [by do 2 right; left|]. split.
        - rewrite Hdone, E1. split; by intros [?|?].
        - intros Hf. specialize (Herr Hf). by rewrite E1 in Herr. }
      destruct (bool_decide (state b = GenerateMessages)) eqn:E2; [|done].
      apply bool_decide_eq_true in E2. cbn. rewrite E2.
      split; [by do 3 right; left|]. split.
      * rewrite Hdone, E2. split; by intros [?|?].
      * intros Hf. specialize (Herr Hf). by rewrite E2 in Herr.
  - unfold StoreMessage. by destruct (messages.Store _ _).
Qed.

Lemma after_life_cycle_inv (cs : list call) (b : BaseRound) :
  life_cycle_inv b → life_cycle_inv (after cs b).
Proof.
  revert b. induction cs as [|c cs IH]; intros b Hb; [done|].
  apply (IH (exec c b).1). by apply exec_life_cycle_inv.
Qed.

(** Only [Abort] and [Finish] touch the channel [done]. *)
Lemma exec_done_unchanged (c : call) (b : BaseRound) :
  (∀ culprit err, c ≠ CallAbort culprit err) → c ≠ CallFinish →
  done (exec c b).1 = done b.
Proof.
  intros Hc1 Hc2. destruct c; cbn [exec fst]; try done.
  - unfold PrepareNextRound. by destruct (decide _).
  - by destruct (Hc1 culprit err).
  - unfold CanProcessMessages.
    destruct (isProcessingStep b); [done|]. by destruct (_ && _).
  - unfold CanProcessRound.
    destruct (isProcessingStep b); [done|]. by destruct (bool_decide _).
  - unfold CanGenerateMessages.
    destruct (isProcessingStep b); [done|]. by destruct (bool_decide _).
  - unfold NextStep. destruct (decide _); [done|]. by destruct (_ || _).
  - unfold StoreMessage. by destruct (messages.Store _ _).
Qed.

Lemma after_done_unchanged (cs : list call) (b : BaseRound) :
  first_Abort cs = None → CallFinish ∉ cs → done (after cs b) = done b.
Proof.
  revert b. induction cs as [|c cs IH]; intros b Hab Hfin; [done|].
  apply not_elem_of_cons in Hfin as [Hc Hfin].
  change (after (c :: cs) b) with (after cs (exec c b).1).
  destruct c; cbn [first_Abort] in Hab; try done;
    (rewrite IH by done; by apply exec_done_unchanged).
Qed.

Lemma after_error_recorded (cs : list call) (b : BaseRound) :
  done_inv b → finalError b = None →
  finalError (after cs b) = None ↔ first_Abort cs = None.
Proof.
  intros Hinv Hb. pose proof (after_records cs b Hinv Hb) as Hrec.
  destruct (first_Abort cs) as [[culprit err]|].
  - destruct Hrec as (final & -> & _). done.
  - by destruct Hrec as [-> _].
Qed.

Lemma Abort_panics_iff culprit err (b : BaseRound) :
  (Abort culprit err b).2 = Panicked "close of closed channel"
  ↔ finalError b = None ∧ done b = ChanClosed.
Proof.
  unfold Abort, close_done. cbn [finalError set_state done set_finalError].
  destruct (finalError b).
  { split; [done|]. by intros [? _]. }
  destruct (done b); cbn.
  - split; [done|]. by intros [_ ?].
  - by split.
Qed.

End LifeCycle.

Section LifeCycleClosing.
Import rounds.
Context {Msg : Type} `{Q : messages.QueueAPI Msg}.

(** Without [Abort], the channel can only have been closed by [Finish]. *)
Lemma after_closed_by_Finish (cs : list call) (b : BaseRound) :
  done b = ChanOpen → first_Abort cs = None →
  done (after cs b) = ChanClosed → CallFinish ∈ cs.
Proof.
  revert b. induction cs as [|c cs IH]; intros b Hopen Hab Hclosed.
  - cbn in Hclosed. congruence.
  - change (after (c :: cs) b) with (after cs (exec c b).1) in Hclosed.
    assert (Hcase : c = CallFinish
              ∨ (c ≠ CallFinish ∧ ∀ culprit err, c ≠ CallAbort culprit err)).
    { destruct c; try (by right); by left. }
    destruct Hcase as [->|[Hc1 Hc2]]; [by left|]. right.
    apply (IH (exec c b).1); [|by destruct c|done].
    by rewrite exec_done_unchanged.
Qed.

Lemma after_Finish_closed self ids types (b0 : BaseRound) (cs : list call) :
  NewBaseRound self ids types = inl b0 →
  first_Abort cs = None →
  done (after cs b0) = ChanClosed ↔ CallFinish ∈ cs.
Proof.
  intros Hnew Hab.
  destruct (NewBaseRound_fields _ _ _ _ Hnew) as (Herr & Hopen & _).
  split.
  - by apply after_closed_by_Finish.
  - intros Hin.
    pose proof (after_records cs b0 (NewBaseRound_done_inv _ _ _ _ Hnew) Herr)
      as Hrec.
    rewrite Hab in Hrec. destruct Hrec as [_ Hwait].
    specialize (Hwait (or_intror Hin)). unfold WaitForFinish in Hwait.
    by destruct (done (after cs b0)).
Qed.

End LifeCycleClosing.

(** X5.  On a round built by [NewBaseRound], after any calls: [Abort]
    panics, closing a channel that is already closed, exactly when
    [Finish] has been called and [Abort] has not been called before; even
    then it has set the state to [Abort] and recorded its error.  [Finish]
    never panics. *)
Theorem X5_Abort_after_Finish_panics
    {Msg : Type} `{Q : messages.QueueAPI Msg}
    (self : Z) (ids : list Z) (types : list messages.MessageType)
    (b0 : rounds.BaseRound) (cs : list rounds.call)
    (culprit : Z) (err : option error) :
  rounds.NewBaseRound self ids types = inl b0 →
  ((rounds.Abort culprit err (rounds.after cs b0)).2
   = rounds.Panicked "close of closed channel"
   ↔ rounds.first_Abort cs = None ∧ rounds.CallFinish ∈ cs)
  ∧ (rounds.first_Abort cs = None →
     rounds.finalError (rounds.Abort culprit err (rounds.after cs b0)).1
     = Some (Errorf_abort "" culprit err))
  ∧ rounds.state (rounds.Abort culprit err (rounds.after cs b0)).1
    = rounds.Abort_
  ∧ (rounds.Finish (rounds.after cs b0)).2 = rounds.Returned ().
Proof.
  intros Hnew.
  pose proof (NewBaseRound_done_inv _ _ _ _ Hnew) as Hinv.
  destruct (NewBaseRound_fields _ _ _ _ Hnew) as (Herr & Hopen & _).
  split; [|split; [|split]].
  - rewrite Abort_panics_iff, (after_error_recorded cs b0 Hinv Herr).
    split.
    + intros [Hab Hclosed]. split; [done|].
      by apply (after_Finish_closed self ids types b0 cs).
    + intros [Hab Hfin]. split; [done|].
      by apply (after_Finish_closed self ids types b0 cs).
  - intros Hab. apply Abort_first.
    by apply (after_error_recorded cs b0 Hinv Herr).
  - apply Abort_state.
  - pose proof (after_life_cycle_inv cs b0
                  (NewBaseRound_life_cycle_inv _ _ _ _ Hnew))
      as (_ & Hdone & _).
    unfold rounds.Finish.
    destruct (bool_decide (rounds.state (rounds.after cs b0) = rounds.Abort_))
      eqn:E1; [done|].
    destruct (bool_decide (rounds.state (rounds.after cs b0)
                           = rounds.Finished)) eqn:E2; [done|].
    apply bool_decide_eq_false in E1, E2. cbn [orb].
    unfold rounds.close_done. cbn [rounds.done rounds.set_state].
    destruct (rounds.done (rounds.after cs b0)) eqn:Ed; [done|].
    destruct (proj1 Hdone eq_refl); done.
Qed.

Lemma X5_Abort_after_Finish_panics_witness :
  ∃ b0,
    rounds.NewBaseRound (Q := DLog_queue) 1 [1; 2; 3] [] = inl b0
    ∧ (rounds.Abort 2 None
         (rounds.after [rounds.CallCanProcessRound; rounds.CallFinish] b0)).2
      = rounds.Panicked "close of closed channel".
Proof.
  eexists. split; [reflexivity|].
  apply (X5_Abort_after_Finish_panics (Q := DLog_queue) 1 [1; 2; 3] [] _
           [rounds.CallCanProcessRound; rounds.CallFinish] 2 None eq_refl).
  split; [reflexivity|]. right. left.
Defined.

(** X6.  On a round built by [NewBaseRound], [WaitForFinish] is still
    blocked after a sequence of calls exactly when the sequence contains
    neither [Abort] nor [Finish]: no other method closes the channel. *)
Theorem X6_WaitForFinish_blocks
    {Msg : Type} `{Q : messages.QueueAPI Msg}
    (self : Z) (ids : list Z) (types : list messages.MessageType)
    (b0 : rounds.BaseRound) (cs : list rounds.call) :
  rounds.NewBaseRound self ids types = inl b0 →
  rounds.WaitForFinish (rounds.after cs b0) = None
  ↔ rounds.first_Abort cs = None ∧ rounds.CallFinish ∉ cs.
Proof.
  intros Hnew.
  pose proof (NewBaseRound_done_inv _ _ _ _ Hnew) as Hinv.
  destruct (NewBaseRound_fields _ _ _ _ Hnew) as (Herr & Hopen & _).
  pose proof (after_records cs b0 Hinv Herr) as Hrec.
  split.
  - intros Hwait.
    destruct (rounds.first_Abort cs) as [[culprit err]|] eqn:Hab.
    { destruct Hrec as (final & _ & _ & Hw). congruence. }
    split; [done|]. intros Hin. destruct Hrec as [_ Hw].
    specialize (Hw (or_intror Hin)). congruence.
  - intros [Hab Hfin]. unfold rounds.WaitForFinish.
    by rewrite after_done_unchanged, Hopen.
Qed.

Lemma X6_WaitForFinish_blocks_witness :
  ∃ b0,
    rounds.NewBaseRound (Q := DLog_queue) 1 [1; 2; 3] [] = inl b0
    ∧ rounds.WaitForFinish
        (rounds.after [rounds.CallCanProcessRound; rounds.CallNextStep] b0)
      = None.
Proof.
  eexists. split; [reflexivity|].
  apply (X6_WaitForFinish_blocks (Q := DLog_queue) 1 [1; 2; 3] [] _
           [rounds.CallCanProcessRound; rounds.CallNextStep] eq_refl).
  split; [reflexivity|].
  intros Hin. apply elem_of_cons in Hin as [?|Hin]; [done|].
  by apply list_elem_of_singleton in Hin.
Defined.

(** X7.  On a round built by [NewBaseRound], after any calls: the state is
    one of the six named states ([NextStep] never shifts it past them),
    the channel [done] is closed exactly when the state is [Finished] or
    [Abort], and an error is recorded only in state [Abort]. *)
Theorem X7_life_cycle_invariant
    {Msg : Type} `{Q : messages.QueueAPI Msg}
    (self : Z) (ids : list Z) (types : list messages.MessageType)
    (b0 : rounds.BaseRound) (cs : list rounds.call) :
  rounds.NewBaseRound self ids types = inl b0 →
  named_state (rounds.state (rounds.after cs b0))
  ∧ (rounds.done (rounds.after cs b0) = rounds.ChanClosed
     ↔ rounds.state (rounds.after cs b0) = rounds.Finished
       ∨ rounds.state (rounds.after cs b0) = rounds.Abort_)
  ∧ (rounds.finalError (rounds.after cs b0) ≠ None →
     rounds.state (rounds.after cs b0) = rounds.Abort_).
Proof.
  intros Hnew.
  apply (after_life_cycle_inv cs b0).
  by eapply NewBaseRound_life_cycle_inv.
Qed.

Lemma X7_life_cycle_invariant_witness :
  ∃ b0,
    rounds.NewBaseRound (Q := DLog_queue) 1 [1; 2; 3] [] = inl b0
    ∧ named_state
        (rounds.state
           (rounds.after [rounds.CallNextStep; rounds.CallNextStep;
                          rounds.CallNextStep; rounds.CallNextStep] b0)).
Proof.
  eexists. split; [reflexivity|].
  apply (X7_life_cycle_invariant (Q := DLog_queue) 1 [1; 2; 3] [] _
           [rounds.CallNextStep; rounds.CallNextStep;
            rounds.CallNextStep; rounds.CallNextStep] eq_refl).
Defined.

Section StepReservation.
Import rounds.
Context {Msg : Type} `{Q : messages.QueueAPI Msg}.

(** A predicate that grants its step was called in its own state, with no
    step in progress, and it marks the step as in progress. *)
Lemma Can_granted (c : call) (b : BaseRound) :
  is_Can c = true → (exec c b).2 = ReplyBool true →
  state b = state_of_Can c ∧ isProcessingStep b = false
  ∧ (c = CallCanProcessMessages → messages.ReceivedAll (messages b) = true)
  ∧ isProcessingStep (exec c b).1 = true
  ∧ state (exec c b).1 = state b
  ∧ messages (exec c b).1 = messages b.
Proof.
  intros Hc. destruct c; try done; cbn [exec fst snd state_of_Can].
  - unfold CanProcessMessages. destruct (isProcessingStep b); [done|].
    destruct (bool_decide _) eqn:E1; [|done]. cbn [andb].
    destruct (messages.ReceivedAll _) eqn:E2; [|done].
    apply bool_decide_eq_true in E1. by intros _.
  - unfold CanProcessRound. destruct (isProcessingStep b); [done|].
    destruct (bool_decide _) eqn:E1; [|done].
    apply bool_decide_eq_true in E1. by intros _.
  - unfold CanGenerateMessages. destruct (isProcessingStep b); [done|].
    destruct (bool_decide _) eqn:E1; [|done].
    apply bool_decide_eq_true in E1. by intros _.
Qed.

(** While a step is in progress, only [NextStep] can end it, and no
    predicate grants a step. *)
Lemma exec_step_in_progress (c : call) (b : BaseRound) :
  isProcessingStep b = true → c ≠ CallNextStep →
  isProcessingStep (exec c b).1 = true
  ∧ (is_Can c = true → (exec c b).2 = ReplyBool false).
Proof.
  intros Hb Hc. destruct c; cbn [exec fst snd is_Can]; try done.
  - unfold PrepareNextRound. by destruct (decide _).
  - unfold Abort. cbn [finalError set_state].
    destruct (finalError b); [done|]. unfold close_done.
    by destruct (done _).
  - unfold Finish. destruct (_ || _); [done|]. unfold close_done.
    by destruct (done _).
  - unfold CanProcessMessages. by rewrite Hb.
  - unfold CanProcessRound. by rewrite Hb.
  - unfold CanGenerateMessages. by rewrite Hb.
  - unfold StoreMessage. by destruct (messages.Store _ _).
Qed.

Lemma run_step_in_progress (cs : list call) (b : BaseRound) :
  isProcessingStep b = true → CallNextStep ∉ cs →
  Forall (λ x, is_Can x.1.1 = true → x.2 = ReplyBool false) (run cs b)
  ∧ isProcessingStep (after cs b) = true.
Proof.
  revert b. induction cs as [|c cs IH]; intros b Hb Hcs; [by split|].
  apply not_elem_of_cons in Hcs as [Hc Hcs].
  destruct (exec_step_in_progress c b Hb) as [Hb' Hr]; [done|].
  destruct (IH _ Hb' Hcs) as [IH1 IH2].
  cbn [run]. split; [|done]. by constructor.
Qed.

(** [int] additions that stay below 2⁶³ do not wrap. *)
Lemma int_incr_small (n : Z) : 0 ≤ n < 2 ^ 63 - 1 → int_incr n = n + 1.
Proof.
  intros Hn. unfold int_incr.
  rewrite Z.mod_small; [lia|].
  change (2 ^ 64) with (2 * 2 ^ 63). lia.
Qed.

Lemma exec_roundNumber (c : call) (b : BaseRound) :
  roundNumber (exec c b).1
  = if is_advance (c, (exec c b).1, (exec c b).2)
    then int_incr (roundNumber b) else roundNumber b.
Proof.
  destruct c; cbn [exec fst snd is_advance]; try done.
  - unfold PrepareNextRound. by destruct (decide _).
  - unfold Abort. cbn [finalError set_state].
    destruct (finalError b); [done|]. unfold close_done.
    by destruct (done _).
  - unfold Finish. destruct (_ || _); [done|]. unfold close_done.
    by destruct (done _).
  - unfold CanProcessMessages.
    destruct (isProcessingStep b); [done|]. by destruct (_ && _).
  - unfold CanProcessRound.
    destruct (isProcessingStep b); [done|]. by destruct (bool_decide _).
  - unfold CanGenerateMessages.
    destruct (isProcessingStep b); [done|]. by destruct (bool_decide _).
  - unfold NextStep. destruct (decide _); [done|]. by destruct (_ || _).
  - unfold StoreMessage. by destruct (messages.Store _ _).
Qed.

Lemma after_roundNumber (cs : list call) (b : BaseRound) :
  0 ≤ roundNumber b →
  roundNumber b + Z.of_nat (length cs) < 2 ^ 63 →
  roundNumber (after cs b)
  = roundNumber b + Z.of_nat (length (filter is_advance (run cs b))).
Proof.
  revert b. induction cs as [|c cs IH]; intros b H0 Hlen.
  - cbn. lia.
  - cbn [length] in Hlen.
    change (after (c :: cs) b) with (after cs (exec c b).1).
    cbn [run]. rewrite filter_cons.
    pose proof (exec_roundNumber c b) as Hc.
    destruct (is_advance (c, (exec c b).1, (exec c b).2)) eqn:E.
    + rewrite int_incr_small in Hc by lia.
      rewrite decide_True by done.
      rewrite IH by lia. rewrite Hc. cbn [length]. lia.
    + rewrite decide_False by (by intros ?).
      rewrite IH by lia. by rewrite Hc.
Qed.

End StepReservation.

(** X8.  The three predicates reserve the step.  A predicate that answers
    [true] was called in its own state, with no step in progress (and,
    for [CanProcessMessages], with all messages received); it marks the
    step as being processed and changes nothing else of state and queue.
    From then on, whatever is called except [NextStep], every call of a
    predicate answers [false]. *)
Theorem X8_step_is_reserved {Msg : Type} `{Q : messages.QueueAPI Msg}
    (b : rounds.BaseRound) (c : rounds.call) (cs : list rounds.call) :
  rounds.is_Can c = true →
  (rounds.exec c b).2 = rounds.ReplyBool true →
  rounds.state b = state_of_Can c
  ∧ rounds.isProcessingStep b = false
  ∧ (c = rounds.CallCanProcessMessages →
     messages.ReceivedAll (rounds.messages b) = true)
  ∧ rounds.isProcessingStep (rounds.exec c b).1 = true
  ∧ rounds.state (rounds.exec c b).1 = rounds.state b
  ∧ rounds.messages (rounds.exec c b).1 = rounds.messages b
  ∧ (rounds.CallNextStep ∉ cs →
     Forall (λ x, rounds.is_Can x.1.1 = true → x.2 = rounds.ReplyBool false)
            (rounds.run cs (rounds.exec c b).1)).
Proof.
  intros Hc Hgrant.
  destruct (Can_granted c b Hc Hgrant) as (H1 & H2 & H3 & H4 & H5 & H6).
  repeat (split; [done|]).
  intros Hcs. by apply run_step_in_progress.
Qed.

Lemma X8_step_is_reserved_witness :
  ∃ b0,
    rounds.NewBaseRound (Q := DLog_queue) 1 [1; 2; 3] [] = inl b0
    ∧ Forall (λ x, rounds.is_Can x.1.1 = true → x.2 = rounds.ReplyBool false)
        (rounds.run [rounds.CallCanProcessRound; rounds.CallCanGenerateMessages]
           (rounds.exec rounds.CallCanProcessRound b0).1).
Proof.
  eexists. split; [reflexivity|].
  match goal with
  | |- Forall _ (rounds.run _ (rounds.exec _ ?b).1) =>
      apply (X8_step_is_reserved (Q := DLog_queue) b
               rounds.CallCanProcessRound
               [rounds.CallCanProcessRound; rounds.CallCanGenerateMessages]
               eq_refl eq_refl)
  end.
  intros Hin. apply elem_of_cons in Hin as [?|Hin]; [done|].
  by apply list_elem_of_singleton in Hin.
Defined.

(** X9.  On a round built by [NewBaseRound], as long as fewer than 2⁶³
    calls have been made, [RoundNumber] is the number of calls of
    [PrepareNextRound] that answered [true]: no other method changes it. *)
Theorem X9_RoundNumber_counts_rounds
    {Msg : Type} `{Q : messages.QueueAPI Msg}
    (self : Z) (ids : list Z) (types : list messages.MessageType)
    (b0 : rounds.BaseRound) (cs : list rounds.call) :
  rounds.NewBaseRound self ids types = inl b0 →
  Z.of_nat (length cs) < 2 ^ 63 →
  rounds.RoundNumber (rounds.after cs b0)
  = Z.of_nat (length (filter is_advance (rounds.run cs b0))).
Proof.
  intros Hnew Hlen. unfold rounds.RoundNumber.
  assert (Hzero : rounds.roundNumber b0 = 0).
  { unfold rounds.NewBaseRound in Hnew.
    destruct (decide (self = 0)); [done|].
    destruct (rounds.collectPartyIDs _ _ _ _ _) as [[[found all] others]|];
      [|done].
    destruct (negb found); [done|].
    destruct (messages.NewMessageQueue _ _ _); [|done].
    by injection Hnew as <-. }
  rewrite after_roundNumber; rewrite Hzero; lia.
Qed.

Lemma X9_RoundNumber_counts_rounds_witness :
  ∃ b0,
    rounds.NewBaseRound (Q := DLog_queue) 1 [1; 2; 3] [] = inl b0
    ∧ rounds.RoundNumber
        (rounds.after [rounds.CallNextStep; rounds.CallNextStep;
                       rounds.CallPrepareNextRound;
                       rounds.CallPrepareNextRound] b0) = 1.
Proof.
  eexists. split; [reflexivity|].
  rewrite (X9_RoundNumber_counts_rounds (Q := DLog_queue) 1 [1; 2; 3] [] _
             [rounds.CallNextStep; rounds.CallNextStep;
              rounds.CallPrepareNextRound; rounds.CallPrepareNextRound]
             eq_refl).
  - reflexivity.
  - cbn [length]. lia.
Defined.

(** X10.  One round of the life cycle.  From state [ProcessRound] with no
    step in progress (where [NewBaseRound] starts), the calls
    [CanProcessRound], [NextStep], [CanGenerateMessages], [NextStep],
    [PrepareNextRound] answer [true], –, [true], –, [true] and lead to
    state [ProcessMessages] of the next round, the queue untouched.  There
    [CanProcessMessages] answers whether all messages are received; when
    they are, [NextStep] leads back to [ProcessRound] and moves the queue
    to its next round, once. *)
Theorem X10_one_round_of_the_life_cycle
    {Msg : Type} `{Q : messages.QueueAPI Msg} (b : rounds.BaseRound) :
  rounds.state b = rounds.ProcessRound →
  rounds.isProcessingStep b = false →
  (rounds.run [rounds.CallCanProcessRound; rounds.CallNextStep;
               rounds.CallCanGenerateMessages; rounds.CallNextStep;
               rounds.CallPrepareNextRound] b).*2
  = [rounds.ReplyBool true; rounds.ReplyDone; rounds.ReplyBool true;
     rounds.ReplyDone; rounds.ReplyBool true]
  ∧ rounds.after [rounds.CallCanProcessRound; rounds.CallNextStep;
                  rounds.CallCanGenerateMessages; rounds.CallNextStep;
                  rounds.CallPrepareNextRound] b
    = rounds.set_roundNumber (rounds.int_incr (rounds.roundNumber b))
        (rounds.set_state rounds.ProcessMessages b)
  ∧ (rounds.CanProcessMessages
       (rounds.set_roundNumber (rounds.int_incr (rounds.roundNumber b))
          (rounds.set_state rounds.ProcessMessages b))).2
    = messages.ReceivedAll (rounds.messages b)
  ∧ (messages.ReceivedAll (rounds.messages b) = true →
     rounds.after [rounds.CallCanProcessRound; rounds.CallNextStep;
                   rounds.CallCanGenerateMessages; rounds.CallNextStep;
                   rounds.CallPrepareNextRound;
                   rounds.CallCanProcessMessages; rounds.CallNextStep] b
     = rounds.set_messages (messages.NextRound (rounds.messages b))
         (rounds.set_roundNumber (rounds.int_incr (rounds.roundNumber b)) b)).
Proof.
  intros Hstate Hstep. destruct b as [all others ferr q rn dn self st step].
  cbn in Hstate, Hstep. subst st step.
  split; [reflexivity|]. split; [reflexivity|]. split.
  - unfold rounds.CanProcessMessages. cbn.
    by destruct (messages.ReceivedAll q).
  - cbn [rounds.messages]. intros Hall.
    match goal with
    | |- rounds.after _ ?b = _ =>
        change (rounds.after
                  [rounds.CallCanProcessMessages; rounds.CallNextStep]
                  (rounds.set_roundNumber
                     (rounds.int_incr (rounds.roundNumber b))
                     (rounds.set_state rounds.ProcessMessages b))
                = rounds.set_messages (messages.NextRound q)
                    (rounds.set_roundNumber
                       (rounds.int_incr (rounds.roundNumber b)) b))
    end.
    unfold rounds.after. cbn [foldl rounds.exec fst].
    unfold rounds.CanProcessMessages.
    cbn [rounds.set_roundNumber rounds.set_state rounds.isProcessingStep
         rounds.state rounds.messages rounds.roundNumber].
    rewrite Hall. reflexivity.
Qed.

Lemma X10_one_round_of_the_life_cycle_witness :
  ∃ b0,
    rounds.NewBaseRound (Q := DLog_queue) 1 [1; 2; 3] [] = inl b0
    ∧ rounds.state
        (rounds.after [rounds.CallCanProcessRound; rounds.CallNextStep;
                       rounds.CallCanGenerateMessages; rounds.CallNextStep;
                       rounds.CallPrepareNextRound] b0)
      = rounds.ProcessMessages.
Proof.
  eexists. split; [reflexivity|].
  match goal with
  | |- rounds.state (rounds.after _ ?b) = _ =>
      rewrite (proj1 (proj2 (X10_one_round_of_the_life_cycle
                               (Q := DLog_queue) b eq_refl eq_refl)))
  end.
  reflexivity.
Defined.

(** ** Signing, round 1 of [round1.go]: when the round can be processed *)

Section SignCanProcess.
Import edwards25519 sign.
Context `{Curve} `{Sha512}.

Lemma CanProcess_loop_true (round : base) (order : list Z) :
  CanProcess_loop round order = true
  ↔ ∀ i, i ∈ order → i ≠ PartySelf round → is_Some (msgs1 round !! i).
Proof.
  induction order as [|id rest IH]; cbn [CanProcess_loop].
  - split; [|done]. intros _ i Hi. by apply elem_of_nil in Hi.
  - destruct (decide (id = PartySelf round)) as [->|Hne].
    + rewrite IH. split.
      * intros Hrest i Hi Hs.
        apply elem_of_cons in Hi as [->|Hi]; [done|]. by apply Hrest.
      * intros Hall i Hi. apply Hall. by right.
    + destruct (msgs1 round !! id) eqn:E.
      * rewrite IH. split.
        -- intros Hrest i Hi Hs.
           apply elem_of_cons in Hi as [->|Hi]; [by rewrite E|].
           by apply Hrest.
        -- intros Hall i Hi. apply Hall. by right.
      * split; [done|]. intros Hall.
        destruct (Hall id) as [m Hm]; [by left|done|congruence].
Qed.

Lemma CanProcess_true (order : list Z) (round : base) :
  order ≡ₚ (map_to_list (Parties round)).*1 →
  CanProcess order round = true
  ↔ readyForNextRound round = false
    ∧ (Z.of_nat (size (msgs1 round))
       = Z.of_nat (length (AllParties round)) - 1 →
       ∀ i, is_Some (Parties round !! i) → i ≠ PartySelf round →
            is_Some (msgs1 round !! i)).
Proof.
  intros Ho. destruct (order_keys _ _ Ho) as [_ Hdom].
  unfold CanProcess. destruct (readyForNextRound round); [naive_solver|].
  destruct (decide _) as [Hsize|Hsize].
  - destruct (CanProcess_loop round order) eqn:E.
    + pose proof (proj1 (CanProcess_loop_true round order) E) as Hloop.
      split; [|done]. intros _.
      split; [done|]. intros _ i Hi. apply Hloop. by apply Hdom.
    + split; [done|]. intros [_ Hall].
      rewrite <- E. apply CanProcess_loop_true.
      intros i Hi. apply (Hall Hsize). by apply Hdom.
  - split; [|done]. intros _. split; [done|]. by intros ?.
Qed.

(** The peers are as many as the signers but one. *)
Lemma size_peers (round : base) :
  NoDup (AllParties round) →
  (∀ i, i ∈ AllParties round ↔ is_Some (Parties round !! i)) →
  is_Some (Parties round !! PartySelf round) →
  Z.of_nat (size (dom (Parties round) ∖ {[PartySelf round]}))
  = Z.of_nat (length (AllParties round)) - 1.
Proof.
  intros Hnd Hall Hself.
  rewrite size_difference by (apply singleton_subseteq_l; by apply elem_of_dom).
  rewrite size_singleton.
  assert (dom (Parties round) = list_to_set (AllParties round)) as ->.
  { apply set_eq. intros i.
    by rewrite elem_of_dom, elem_of_list_to_set, Hall. }
  rewrite size_list_to_set by done.
  assert (AllParties round ≠ []).
  { intros Hnil. apply Hall in Hself. rewrite Hnil in Hself.
    by apply elem_of_nil in Hself. }
  destruct (AllParties round); [done|]. cbn [length]. lia.
Qed.

Lemma CanProcess_vacuous (order : list Z) (round : base) :
  order ≡ₚ (map_to_list (Parties round)).*1 →
  NoDup (AllParties round) →
  (∀ i, i ∈ AllParties round ↔ is_Some (Parties round !! i)) →
  is_Some (Parties round !! PartySelf round) →
  (∀ i, is_Some (msgs1 round !! i) →
        is_Some (Parties round !! i) ∧ i ≠ PartySelf round) →
  CanProcess order round = negb (readyForNextRound round).
Proof.
  intros Ho Hnd Hall Hself Hfrom.
  destruct (readyForNextRound round) eqn:Hready.
  { unfold CanProcess. by rewrite Hready. }
  apply (CanProcess_true order round Ho). split; [done|].
  intros Hsize i Hi Hne.
  assert (Hsub : dom (msgs1 round)
                 ⊆ dom (Parties round) ∖ {[PartySelf round]}).
  { intros j Hj. apply elem_of_dom in Hj.
    destruct (Hfrom j Hj) as [Hp Hs].
    apply elem_of_difference. split; [by apply elem_of_dom|].
    by rewrite elem_of_singleton. }
  apply set_subseteq_size_equiv in Hsub.
  - apply elem_of_dom. apply Hsub. apply elem_of_difference.
    split; [by apply elem_of_dom|]. by rewrite elem_of_singleton.
  - pose proof (size_peers round Hnd Hall Hself) as Hpeers.
    rewrite size_dom. lia.
Qed.

End SignCanProcess.

Lemma example_sign_keys (received : bool) :
  [3; 2; 1] ≡ₚ (map_to_list (sign.Parties (example_sign received))).*1.
Proof.
  cbn [example_sign sign.Parties].
  rewrite map_to_list_insert by done. cbn [fmap list_fmap fst].
  apply perm_skip, example_parties_keys.
Qed.

Lemma example_sign_lookup (received : bool) (i : Z) :
  i ∈ [1; 2; 3] ↔ is_Some (sign.Parties (example_sign received) !! i).
Proof.
  pose proof (order_keys _ _ (example_sign_keys received)) as [_ Hdom].
  rewrite <- Hdom. rewrite !elem_of_cons, !elem_of_nil. naive_solver.
Qed.

(** X11.  [CanProcess] of [round1.go], whatever the order in which its loop
    visits the map of parties.  It answers [true] exactly when the round
    has not been processed and, in case the number of messages held is the
    number of signers less one, every peer has a message.  So, when the
    signers are listed once each and the messages held are from peers, it
    never answers [false] before the round is processed: as many messages
    as peers are then one from each peer, and with fewer the peers are not
    looked at. *)
Theorem X11_CanProcess_answer `{edwards25519.Curve} `{Sha512}
    (order : list Z) (round : sign.base) :
  order ≡ₚ (map_to_list (sign.Parties round)).*1 →
  (sign.CanProcess order round = true
   ↔ sign.readyForNextRound round = false
     ∧ (Z.of_nat (size (sign.msgs1 round))
        = Z.of_nat (length (sign.AllParties round)) - 1 →
        ∀ i, is_Some (sign.Parties round !! i) → i ≠ sign.PartySelf round →
             is_Some (sign.msgs1 round !! i)))
  ∧ (NoDup (sign.AllParties round) →
     (∀ i, i ∈ sign.AllParties round ↔ is_Some (sign.Parties round !! i)) →
     is_Some (sign.Parties round !! sign.PartySelf round) →
     (∀ i, is_Some (sign.msgs1 round !! i) →
           is_Some (sign.Parties round !! i) ∧ i ≠ sign.PartySelf round) →
     sign.CanProcess order round = negb (sign.readyForNextRound round)).
Proof.
  intros Ho. split.
  - by apply CanProcess_true.
  - by apply CanProcess_vacuous.
Qed.

Lemma X11_CanProcess_answer_witness :
  sign.CanProcess [3; 2; 1] (example_sign false)
  = negb (sign.readyForNextRound (example_sign false)).
Proof.
  apply (X11_CanProcess_answer (H := DLog.curve) (H0 := DLog.digest)
           [3; 2; 1] (example_sign false) (example_sign_keys false)).
  - cbn [example_sign sign.AllParties].
    repeat (apply NoDup_cons; split;
            [rewrite ?elem_of_cons, elem_of_nil; lia|]).
    apply NoDup_nil_2.
  - apply example_sign_lookup.
  - apply example_sign_lookup. cbn [example_sign sign.PartySelf]. by left.
  - intros i [m Hm]. cbn [example_sign sign.msgs1] in Hm.
    by rewrite lookup_empty in Hm.
Defined.

(** ** Signing, round 1 of [round1.go]: the round is processed once *)

Section SignOnce.
Import edwards25519 sign.
Context `{Curve} `{Sha512}.

Lemma nonce_points_round1_parties all (parties : gmap Z Party) message Ykey
    self secret e_ d_ (i : Z) :
  nonce_points
    (round1_parties all parties message Ykey self secret e_ d_) i
  = nonce_points parties i.
Proof.
  unfold round1_parties, nonce_points. cbv zeta.
  rewrite lookup_bound_parties.
  destruct (parties !! self) as [selfParty|] eqn:Hself;
    cbn [fmap option_fmap option_map].
  - destruct (decide (i = self)) as [->|Hne].
    + by rewrite lookup_insert_eq, Hself.
    + rewrite lookup_insert_ne, lookup_bound_parties by done.
      by destruct (parties !! i).
  - rewrite lookup_bound_parties. by destruct (parties !! i).
Qed.

Lemma nonce_points_received_parties (round : base) (i : Z) :
  nonce_points (received_parties round) i
  = (λ party,
       let party' := receive (PartySelf round) (msgs1 round) i party in
       (Di party', Ei party')) <$> Parties round !! i.
Proof.
  unfold nonce_points. rewrite lookup_received_parties.
  by destruct (Parties round !! i).
Qed.

Lemma lookup_remaining_msgs1 (round : base) (i : Z) :
  remaining_msgs1 round !! i
  = if bool_decide (is_Some (Parties round !! i) ∧ i ≠ PartySelf round)
    then None else msgs1 round !! i.
Proof.
  unfold remaining_msgs1. case_bool_decide as Hi.
  - apply map_lookup_filter_None. right. intros m _ [Hc|Hc]; cbn in Hc.
    + destruct Hi as [[p Hp] _]. congruence.
    + by destruct Hi.
  - destruct (msgs1 round !! i) as [m|] eqn:E.
    + apply map_lookup_filter_Some. split; [done|]. cbn.
      destruct (decide (i = PartySelf round)); [by right|]. left.
      destruct (Parties round !! i) eqn:E'; [|done].
      exfalso. apply Hi. split; [by eexists|done].
    + apply map_lookup_filter_None. by left.
Qed.

End SignOnce.

(** X12.  [round1.go] processes the round once.  On a round that is ready,
    [ProcessRound] returns one [Sign2] message and no error; it has taken
    the nonce points of every peer from the peer's [Sign1] message and has
    kept the local party's, has deleted the peers' messages from [msgs1]
    and no other entry, and has set the flag: from then on [CanProcess]
    answers [false], a further [ProcessRound] returns [ErrRoundProcessed]
    with no message and the round as it is, and [NextRound] hands over to
    round 2 and clears the flag.  Before, [NextRound] stays in round 1. *)
Theorem X12_ProcessRound_once `{edwards25519.Curve} `{Sha512}
    (order1 order2 : list Z) (round : sign.base) :
  direct_round_ready order1 order2 round →
  ∃ round',
    sign.ProcessRound order1 order2 round
    = Return (round',
              [messages.NewSign2 (sign.PartySelf round)
                 (Zi_of (sign.Parties round') (sign.PartySelf round))],
              None)
    ∧ (∀ i m, is_Some (sign.Parties round !! i) →
              i ≠ sign.PartySelf round → sign.msgs1 round !! i = Some m →
              nonce_points (sign.Parties round') i
              = Some (messages.Di m, messages.Ei m))
    ∧ nonce_points (sign.Parties round') (sign.PartySelf round)
      = nonce_points (sign.Parties round) (sign.PartySelf round)
    ∧ (∀ i, sign.msgs1 round' !! i
            = if bool_decide (is_Some (sign.Parties round !! i)
                              ∧ i ≠ sign.PartySelf round)
              then None else sign.msgs1 round !! i)
    ∧ sign.readyForNextRound round' = true
    ∧ (∀ order, sign.CanProcess order round' = false)
    ∧ (∀ order1' order2',
         sign.ProcessRound order1' order2' round'
         = Return (round', [], Some frost.ErrRoundProcessed))
    ∧ sign.NextRound round' = (sign.set_readyForNextRound false round', true)
    ∧ sign.NextRound round = (round, false).
Proof.
  intros Hready.
  destruct (direct_round_ready_returns _ _ _ Hready) as [-> _].
  destruct Hready as (Hflag & _ & _ & _ & _ & _).
  match goal with
  | |- ∃ _, Return (?r, _, _) = _ ∧ _ => exists r
  end.
  cbn [sign.finish_round sign.with_Parties_msgs1 sign.Parties sign.msgs1
       sign.readyForNextRound sign.PartySelf].
  split; [reflexivity|]. split; [|split; [|split; [|split; [|split]]]].
  - intros i m [party Hparty] Hne Hm.
    rewrite nonce_points_round1_parties, nonce_points_received_parties.
    rewrite Hparty. cbn [fmap option_fmap option_map]. unfold receive.
    by rewrite decide_False, Hm by done.
  - rewrite nonce_points_round1_parties, nonce_points_received_parties.
    unfold nonce_points.
    destruct (sign.Parties round !! sign.PartySelf round); [|done].
    cbn [fmap option_fmap option_map]. unfold receive.
    by rewrite decide_True by done.
  - apply lookup_remaining_msgs1.
  - done.
  - done.
  - split; [done|]. split; [done|].
    unfold sign.NextRound. by rewrite Hflag.
Qed.

Section SignOnceWitness.
#[local] Existing Instance DLog.curve.
#[local] Existing Instance DLog.digest.

Lemma example_sign_ready :
  direct_round_ready [3; 2; 1] [3; 2; 1] (example_sign true).
Proof.
  split; [reflexivity|]. split; [apply example_sign_keys|].
  split; [apply example_sign_keys|]. split; [|split].
  - intros i Hi. by apply example_sign_lookup.
  - apply example_sign_lookup. by left.
  - intros i Hi Hne. apply example_sign_lookup in Hi.
    cbn [example_sign sign.PartySelf sign.msgs1] in Hne |- *.
    rewrite !elem_of_cons, elem_of_nil in Hi.
    destruct Hi as [->|[->|[->|[]]]]; [done|by eexists..].
Qed.

Lemma X12_ProcessRound_once_witness :
  ∃ round',
    sign.ProcessRound [3; 2; 1] [3; 2; 1] (example_sign true)
    = Return (round',
              [messages.NewSign2 1 (Zi_of (sign.Parties round') 1)], None)
    ∧ sign.msgs1 round' !! 2 = None
    ∧ sign.readyForNextRound round' = true.
Proof.
  destruct (X12_ProcessRound_once [3; 2; 1] [3; 2; 1] (example_sign true)
              example_sign_ready)
    as (round' & Hrun & _ & _ & Hmsgs & Hflag & _).
  exists round'. split; [exact Hrun|]. split; [|exact Hflag].
  rewrite Hmsgs, bool_decide_eq_true_2; [done|].
  split; [|done]. apply example_sign_lookup.
  rewrite !elem_of_cons. by (right; left).
Defined.

End SignOnceWitness.

(** ** Signing, round 1: the response verifies *)

Section ResponseVerifies.
Import edwards25519 sign.
Context `{Curve} `{Sha512}.

(** The scalars act on the points as the integers modulo [ell] do. *)
Hypothesis ScalarBaseMult_Add : ∀ a b,
  ScalarBaseMult (Add a b) = Point_Add (ScalarBaseMult a) (ScalarBaseMult b).
Hypothesis ScalarBaseMult_Multiply : ∀ a b,
  ScalarBaseMult (Multiply a b) = ScalarMult a (ScalarBaseMult b).

Lemma ScalarBaseMult_compute_z (party : Party) (secret c e_ d_ : Scalar) :
  ScalarBaseMult (compute_z party secret c e_ d_)
  = Point_Add
      (Point_Add (ScalarMult (Pi party) (ScalarBaseMult e_))
                 (ScalarBaseMult d_))
      (ScalarMult (Multiply (Lagrange party) c) (ScalarBaseMult secret)).
Proof.
  unfold compute_z.
  assert (MultiplyAdd e_ (Pi party)
            (Multiply (Multiply (Lagrange party) secret) c)
          = Add (Multiply (Pi party) e_)
                (Multiply (Multiply (Lagrange party) c) secret)) as ->.
  { unfold MultiplyAdd, Add, Multiply.
    trans ((Pi party * e_ + Lagrange party * secret * c) mod ell).
    - rewrite Z.mul_mod_idemp_l, Z.add_mod_idemp_r by done. f_equal. lia.
    - rewrite Z.mul_mod_idemp_l by done.
      rewrite Z.add_mod_idemp_l, Z.add_mod_idemp_r by done. f_equal. lia. }
  rewrite !ScalarBaseMult_Add, !ScalarBaseMult_Multiply.
  rewrite <- !Point_Add_assoc. f_equal. apply Point_Add_comm.
Qed.

End ResponseVerifies.

(** X13.  The response that round 1 sends verifies.  Let the scalars act
    on the base point as the integers modulo [ell] do (as they do in the
    library), and let the local party's nonce points be those of its
    nonces, [D = [d]B] and [E = [e]B].  Then the response [z] of the
    [Sign2] message that [ProcessRound] returns satisfies
    [[z]B = R_self + [λ_self·c]([s]B)], with [R_self] and [c] as the round
    has stored them: the equation a peer checks against the public share
    [[s]B] of the local party. *)
Theorem X13_response_verifies `{edwards25519.Curve} `{Sha512}
    (order1 order2 : list Z) (round : sign.base) (selfParty : sign.Party) :
  (∀ a b, edwards25519.ScalarBaseMult (edwards25519.Add a b)
          = edwards25519.Point_Add (edwards25519.ScalarBaseMult a)
              (edwards25519.ScalarBaseMult b)) →
  (∀ a b, edwards25519.ScalarBaseMult (edwards25519.Multiply a b)
          = edwards25519.ScalarMult a (edwards25519.ScalarBaseMult b)) →
  direct_round_ready order1 order2 round →
  sign.Parties round !! sign.PartySelf round = Some selfParty →
  sign.Di selfParty = edwards25519.ScalarBaseMult (sign.d round) →
  sign.Ei selfParty = edwards25519.ScalarBaseMult (sign.e round) →
  ∃ round' z,
    sign.ProcessRound order1 order2 round
    = Return (round', [messages.NewSign2 (sign.PartySelf round) z], None)
    ∧ edwards25519.ScalarBaseMult z
      = edwards25519.Point_Add
          (Ri_of (sign.Parties round') (sign.PartySelf round))
          (edwards25519.ScalarMult
             (edwards25519.Multiply (sign.Lagrange selfParty)
                (sign.C round'))
             (edwards25519.ScalarBaseMult (sign.Secret round))).
Proof.
  intros HAdd HMultiply Hready Hself HD HE.
  destruct (direct_round_ready_returns _ _ _ Hready) as [-> _].
  match goal with
  | |- ∃ _ _, Return (?r, [messages.NewSign2 _ ?z], _) = _ ∧ _ =>
      exists r, z
  end.
  split; [reflexivity|].
  cbn [sign.finish_round sign.Parties sign.C].
  assert (Hrecv : received_parties round !! sign.PartySelf round
                  = Some selfParty).
  { rewrite lookup_received_parties, Hself.
    cbn [fmap option_fmap option_map]. unfold receive.
    by rewrite decide_True. }
  unfold Zi_of, Ri_of, round1_parties. cbv zeta.
  rewrite lookup_bound_parties, Hrecv. cbn [fmap option_fmap option_map].
  rewrite lookup_insert_eq.
  cbn [sign.set_Zi sign.Zi sign.Ri bind_party sign.set_Pi_Ri].
  rewrite (ScalarBaseMult_compute_z HAdd HMultiply).
  cbn [bind_party sign.set_Pi_Ri sign.Pi sign.Lagrange]. by rewrite HD, HE.
Qed.

Section ResponseWitness.
#[local] Existing Instance DLog.curve.
#[local] Existing Instance DLog.digest.

Lemma DLog_ScalarBaseMult_Add (a b : Z) :
  DLog.base_mult (edwards25519.Add a b)
  = DLog.add (DLog.base_mult a) (DLog.base_mult b).
Proof.
  unfold DLog.base_mult, DLog.add, edwards25519.Add.
  rewrite Z.mod_mod by done. apply Z.add_mod. done.
Qed.

Lemma DLog_ScalarBaseMult_Multiply (a b : Z) :
  DLog.base_mult (edwards25519.Multiply a b)
  = DLog.mult a (DLog.base_mult b).
Proof.
  unfold DLog.base_mult, DLog.mult, edwards25519.Multiply.
  rewrite Z.mod_mod by done. by rewrite Z.mul_mod_idemp_r.
Qed.

Lemma example_signer_ready :
  direct_round_ready [2; 1] [1; 2] example_signer.
Proof.
  assert (Hkeys : [2; 1] ≡ₚ (map_to_list (sign.Parties example_signer)).*1).
  { cbn [example_signer sign.Parties].
    rewrite map_to_list_insert by done.
    rewrite map_to_list_singleton. apply perm_swap. }
  pose proof (order_keys _ _ Hkeys) as [_ Hdom].
  split; [reflexivity|]. split; [done|].
  split; [by rewrite <- Hkeys; apply perm_swap|]. split; [|split].
  - intros i Hi. apply Hdom. cbn [example_signer sign.AllParties] in Hi.
    rewrite !elem_of_cons, elem_of_nil in Hi |- *. naive_solver.
  - by eexists.
  - intros i Hi Hne. apply Hdom in Hi.
    cbn [example_signer sign.PartySelf sign.msgs1] in Hne |- *.
    rewrite !elem_of_cons, elem_of_nil in Hi.
    destruct Hi as [->|[->|[]]]; [by eexists|done].
Qed.

Lemma X13_response_verifies_witness :
  ∃ round' z,
    sign.ProcessRound [2; 1] [1; 2] example_signer
    = Return (round', [messages.NewSign2 1 z], None)
    ∧ DLog.base_mult z
      = DLog.add (Ri_of (sign.Parties round') 1)
          (DLog.mult (edwards25519.Multiply 2 (sign.C round'))
             (DLog.base_mult 7)).
Proof.
  apply (X13_response_verifies (H := DLog.curve) (H0 := DLog.digest)
           [2; 1] [1; 2] example_signer example_signer_party
           DLog_ScalarBaseMult_Add DLog_ScalarBaseMult_Multiply
           example_signer_ready); reflexivity.
Defined.

End ResponseWitness.

(** ** Signing, round 1 reading the message queue: the three steps *)

Section SignQueueSteps.
Import edwards25519 sign.
Context `{Curve} `{Sha512} `{Q : messages.QueueAPI messages.Message}.

Lemma queue_step_self (self : Z) (msgs : gmap Z messages.Message)
    (ps : gmap Z Party) :
  sign_queue.ProcessMessages_step self msgs self ps = Return ps.
Proof. unfold sign_queue.ProcessMessages_step. by rewrite decide_True. Qed.

Lemma queue_step_peer (self id : Z) (msgs : gmap Z messages.Message)
    (ps : gmap Z Party) (party : Party) (m : messages.Message)
    (s : messages.Sign1Payload) :
  id ≠ self → ps !! id = Some party → msgs !! id = Some m →
  messages.Sign1 m = Some s →
  sign_queue.ProcessMessages_step self msgs id ps
  = Return (<[id := set_Di_Ei (messages.Di s) (messages.Ei s) party]> ps).
Proof.
  intros Hne Hparty Hm Hs. unfold sign_queue.ProcessMessages_step.
  by rewrite decide_False, Hparty, Hm, Hs by done.
Qed.

(** The loop of [ProcessMessages] over the signer list, in which an ID may
    occur more than once. *)
Lemma queue_ProcessMessages_loop (self : Z) (msgs : gmap Z messages.Message)
    (all : list Z) (ps : gmap Z Party) :
  (∀ i, i ∈ all → is_Some (ps !! i)) →
  (∀ i, i ∈ all → i ≠ self →
        ∃ m s, msgs !! i = Some m ∧ messages.Sign1 m = Some s) →
  ∃ ps',
    for_range (sign_queue.ProcessMessages_step self msgs) all ps = Return ps'
    ∧ (∀ i, i ∉ all ∨ i = self → ps' !! i = ps !! i)
    ∧ (∀ i m s, i ∈ all → i ≠ self →
                msgs !! i = Some m → messages.Sign1 m = Some s →
                ps' !! i
                = set_Di_Ei (messages.Di s) (messages.Ei s) <$> ps !! i).
Proof.
  revert ps. induction all as [|id rest IH]; intros ps Hin Hms.
  - exists ps. split; [done|]. split; [done|].
    intros i m s Hi. by apply elem_of_nil in Hi.
  - cbn [for_range].
    destruct (decide (id = self)) as [->|Hne].
    + rewrite queue_step_self, bind_Return.
      destruct (IH ps) as (ps' & Hloop & Hkeep & Hset).
      { intros i Hi. apply Hin. by right. }
      { intros i Hi. apply Hms. by right. }
      exists ps'. split; [done|]. split.
      * intros i Hi. apply Hkeep. rewrite not_elem_of_cons in Hi.
        naive_solver.
      * intros i m s Hi Hself. apply Hset; [|done].
        apply elem_of_cons in Hi as [->|Hi]; done.
    + destruct (Hin id) as [party Hparty]; [by left|].
      destruct (Hms id) as (m & s & Hm & Hs); [by left|done|].
      rewrite (queue_step_peer self id msgs ps party m s) by done.
      rewrite bind_Return.
      destruct (IH (<[id := set_Di_Ei (messages.Di s) (messages.Ei s)
                                      party]> ps))
        as (ps' & Hloop & Hkeep & Hset).
      { intros i Hi. destruct (decide (i = id)) as [->|Hi'].
        - rewrite lookup_insert_eq. by eexists.
        - rewrite lookup_insert_ne by done. apply Hin. by right. }
      { intros i Hi. apply Hms. by right. }
      exists ps'. split; [done|]. split.
      * intros i Hi. rewrite not_elem_of_cons in Hi.
        assert (i ≠ id) by naive_solver.
        rewrite Hkeep by naive_solver. by rewrite lookup_insert_ne.
      * intros i m' s' Hi Hself Hm' Hs'.
        destruct (decide (i = id)) as [->|Hi'].
        -- assert (m' = m) as -> by congruence.
           assert (s' = s) as -> by congruence.
           rewrite Hparty. cbn [fmap option_fmap option_map].
           destruct (decide (id ∈ rest)) as [Hr|Hr].
           ++ rewrite (Hset id m s Hr Hself Hm Hs), lookup_insert_eq.
              done.
           ++ rewrite Hkeep by by left. by rewrite lookup_insert_eq.
        -- apply elem_of_cons in Hi as [->|Hi]; [done|].
           rewrite (Hset i m' s' Hi Hself Hm' Hs').
           by rewrite lookup_insert_ne.
Qed.

End SignQueueSteps.

(** X14.  Round 1 in the revision that reads the message queue, step by
    step.  Take a round that is ready, whose queue holds a [Sign1] message
    of every other signer.  Before the steps, and after [ProcessMessages]
    alone, [GenerateMessages] returns [ErrRoundNotProcessed] and no
    message.  [ProcessMessages] takes the nonce points of every other
    signer from its message, keeps the local party's, and moves the queue
    to its next round; called again it does nothing.  Then [ProcessRound]
    returns without error, and [GenerateMessages] returns one [Sign2]
    message, from the local party, with the response that [ProcessRound]
    stored; [ProcessRound] called again returns [ErrRoundProcessed], and
    [NextRound] hands over to round 2 and clears both flags. *)
Theorem X14_queue_round1_steps
    `{edwards25519.Curve} `{Sha512}
    `{Q : messages.QueueAPI messages.Message}
    (order : list Z) (round : sign_queue.base) :
  queue_round_ready order round →
  sign_queue.messagesProcessed round = false →
  (∀ i, i ∈ sign_queue.AllParties round → i ≠ sign_queue.PartySelf round →
        ∃ m s, messages.Messages (sign_queue.messages_ round) !! i = Some m
               ∧ messages.Sign1 m = Some s) →
  ∃ round1 round2,
    sign_queue.GenerateMessages round
    = Return ([], Some frost.ErrRoundNotProcessed)
    ∧ sign_queue.ProcessMessages round = Return (round1, None)
    ∧ (∀ i m s, i ∈ sign_queue.AllParties round →
                i ≠ sign_queue.PartySelf round →
                messages.Messages (sign_queue.messages_ round) !! i = Some m →
                messages.Sign1 m = Some s →
                nonce_points (sign_queue.Parties round1) i
                = Some (messages.Di s, messages.Ei s))
    ∧ nonce_points (sign_queue.Parties round1) (sign_queue.PartySelf round)
      = nonce_points (sign_queue.Parties round) (sign_queue.PartySelf round)
    ∧ sign_queue.messages_ round1
      = messages.NextRound (sign_queue.messages_ round)
    ∧ sign_queue.ProcessMessages round1 = Return (round1, None)
    ∧ sign_queue.GenerateMessages round1
      = Return ([], Some frost.ErrRoundNotProcessed)
    ∧ sign_queue.ProcessRound order round1 = Return (round2, None)
    ∧ sign_queue.GenerateMessages round2
      = Return ([messages.NewSign2 (sign_queue.PartySelf round)
                   (Zi_of (sign_queue.Parties round2)
                      (sign_queue.PartySelf round))], None)
    ∧ sign_queue.messages_ round2
      = messages.NextRound (sign_queue.messages_ round)
    ∧ sign_queue.ProcessRound order round2
      = Return (round2, Some frost.ErrRoundProcessed)
    ∧ sign_queue.NextRound round2
      = (sign_queue.with_flags (sign_queue.messages_ round2) false false
           round2, true).
Proof.
  intros (Hflag & Ho & Hall & Hself) Hmp Hms.
  destruct (order_keys _ _ Ho) as [Hnd Hdom].
  destruct (queue_ProcessMessages_loop (sign_queue.PartySelf round)
              (messages.Messages (sign_queue.messages_ round))
              (sign_queue.AllParties round) (sign_queue.Parties round)
              Hall Hms)
    as (ps' & Hloop & Hkeep & Hset).
  set (round1 :=
         sign_queue.with_flags
           (messages.NextRound (sign_queue.messages_ round)) true
           (sign_queue.roundProcessed round)
           (sign_queue.with_Parties ps' round)).
  assert (Hsome : ∀ i, is_Some (ps' !! i)
                       ↔ is_Some (sign_queue.Parties round !! i)).
  { intros i.
    destruct (decide (i ∈ sign_queue.AllParties round
                      ∧ i ≠ sign_queue.PartySelf round)) as [[Hi Hne]|Hi].
    - destruct (Hms i Hi Hne) as (m & s & Hm & Hs).
      rewrite (Hset i m s Hi Hne Hm Hs). apply fmap_is_Some.
    - rewrite Hkeep; [done|].
      destruct (decide (i = sign_queue.PartySelf round)); [by right|].
      left. naive_solver. }
  assert (Hready1 : sign_queue.ProcessRound order round1
            = Return
                (sign_queue.finish_round
                   (round1_parties (sign_queue.AllParties round) ps'
                      (sign_queue.Message round) (sign_queue.Y round)
                      (sign_queue.PartySelf round) (sign_queue.Secret round)
                      (sign_queue.e round) (sign_queue.d round))
                   (round1_R (sign_queue.AllParties round) ps'
                      (sign_queue.Message round))
                   (round1_c (sign_queue.AllParties round) ps'
                      (sign_queue.Message round) (sign_queue.Y round))
                   round1, None)).
  { apply (sign_queue_ProcessRound_returns order round1); cbn; try done.
    - intros i. by rewrite Hsome.
    - intros i Hi. apply Hsome. by apply Hall.
    - by apply Hsome. }
  eexists round1, _.
  split; [|split; [|split; [|split; [|split; [|split; [|split; [|split]]]]]]].
  - unfold sign_queue.GenerateMessages. by rewrite Hflag.
  - unfold sign_queue.ProcessMessages. rewrite Hmp, Hloop. done.
  - intros i m s Hi Hne Hm Hs. unfold nonce_points. cbn.
    rewrite (Hset i m s Hi Hne Hm Hs).
    destruct (Hall i Hi) as [party ->]. done.
  - unfold nonce_points. cbn. rewrite Hkeep by by right. done.
  - done.
  - done.
  - unfold sign_queue.GenerateMessages. cbn. by rewrite Hflag.
  - exact Hready1.
  - cbn. split; [|done].
    unfold sign_queue.GenerateMessages. cbn.
    destruct (proj2 (Hsome _) Hself) as [selfParty Hself'].
    unfold round1_parties, Zi_of. cbv zeta.
    rewrite lookup_bound_parties, Hself'.
    cbn [fmap option_fmap option_map]. by rewrite lookup_insert_eq.
Qed.

Section SignQueueStepsWitness.
#[local] Existing Instance DLog.curve.
#[local] Existing Instance DLog.digest.
#[local] Existing Instance DLog_queue.

Lemma example_sign_queue_start_ready :
  queue_round_ready [2; 1] example_sign_queue_start.
Proof.
  split; [reflexivity|]. split; [exact example_parties_keys|].
  split; [exact example_parties_lookup|]. by eexists.
Qed.

Lemma example_sign_queue_start_messages (i : Z) :
  i ∈ sign_queue.AllParties example_sign_queue_start →
  i ≠ sign_queue.PartySelf example_sign_queue_start →
  ∃ m s,
    messages.Messages (sign_queue.messages_ example_sign_queue_start) !! i
    = Some m
    ∧ messages.Sign1 m = Some s.
Proof.
  cbn [example_sign_queue_start sign_queue.AllParties sign_queue.PartySelf].
  intros Hi Hne. rewrite !elem_of_cons, elem_of_nil in Hi.
  destruct Hi as [->|[->|[]]]; [done|].
  by exists example_Sign1, example_Sign1_payload.
Qed.

Lemma X14_queue_round1_steps_witness :
  ∃ round1 round2,
    sign_queue.ProcessMessages example_sign_queue_start
    = Return (round1, None)
    ∧ nonce_points (sign_queue.Parties round1) 2 = Some (31, 41)
    ∧ sign_queue.ProcessRound [2; 1] round1 = Return (round2, None)
    ∧ sign_queue.GenerateMessages round2
      = Return ([messages.NewSign2 1 (Zi_of (sign_queue.Parties round2) 1)],
                None).
Proof.
  destruct (X14_queue_round1_steps [2; 1] example_sign_queue_start
              example_sign_queue_start_ready eq_refl
              example_sign_queue_start_messages)
    as (round1 & round2 & _ & Hpm & Hnonce & _ & _ & _ & _ & Hpr & Hgm & _).
  exists round1, round2. split; [exact Hpm|]. split; [|by split].
  apply (Hnonce 2 example_Sign1 example_Sign1_payload).
  - cbn [example_sign_queue_start sign_queue.AllParties].
    rewrite !elem_of_cons. by (right; left).
  - done.
  - done.
  - done.
Defined.

End SignQueueStepsWitness.

(** ** Key generation, round 2: the shares add up *)

Section KeygenShares.
Import edwards25519 keygen.
Context `{Curve}.

Lemma ProcessMessage_valid (round : round2) (msg : messages.Message) :
  is_uint16 (state.SelfID (BaseRound round)) →
  valid_share round msg →
  ProcessMessage round msg
  = Return (set_Secret (Add (Secret round) (share_of msg)) round,
            set_Share NewScalar msg, None).
Proof.
  intros Hself (payload & commitment & Hpayload & Hcommit & Hcheck).
  unfold ProcessMessage, share_of. rewrite Hpayload.
  rewrite (Scalar_returns _ Hself), bind_Return, Hcommit.
  rewrite decide_False; [done|].
  intros Hne. apply Hne. by apply Point_Equal_1.
Qed.

Lemma process_shares_valid (round : round2) (msgs : list messages.Message) :
  is_uint16 (state.SelfID (BaseRound round)) →
  Forall (valid_share round) msgs →
  process_shares round msgs
  = Return (set_Secret (foldl Add (Secret round) (share_of <$> msgs)) round,
            set_Share NewScalar <$> msgs, None).
Proof.
  revert round. induction msgs as [|msg rest IH]; intros round Hself Hvalid.
  - by destruct round.
  - apply Forall_cons in Hvalid as [Hmsg Hrest].
    cbn [process_shares]. rewrite (ProcessMessage_valid round msg Hself Hmsg).
    rewrite bind_Return. cbn [fst snd].
    rewrite (IH (set_Secret (Add (Secret round) (share_of msg)) round));
      [done|done|].
    eapply Forall_impl; [exact Hrest|]. by intros m Hm.
Qed.

Lemma foldl_Add_shares (s0 : Scalar) (shares : list Scalar) :
  shares ≠ [] →
  foldl Add s0 shares = (s0 + foldr Z.add 0 shares) mod ell.
Proof.
  intros Hne. destruct shares as [|s1 rest]; [done|]. clear Hne.
  revert s0 s1. induction rest as [|s2 rest IH]; intros s0 s1.
  - cbn. unfold Add. f_equal. lia.
  - change (foldl Add s0 (s1 :: s2 :: rest))
      with (foldl Add (Add s0 s1) (s2 :: rest)).
    rewrite IH. unfold Add. rewrite Z.add_mod_idemp_l by done.
    f_equal. cbn. lia.
Qed.

Lemma foldr_add_Permutation (l1 l2 : list Z) :
  l1 ≡ₚ l2 → foldr Z.add 0 l1 = foldr Z.add 0 l2.
Proof. induction 1; cbn; lia. Qed.

End KeygenShares.

(** X15.  The shares add up.  When [ProcessMessage] is called in turn on
    [KeyGen2] messages whose shares all pass the check, no call returns an
    error, the share of every message is overwritten with zero, and the
    accumulated secret has become the sum, modulo [ell], of what it was
    and of the shares; nothing else of the round changes.  The result does
    not depend on the order in which the messages are processed. *)
Theorem X15_shares_add_up `{edwards25519.Curve}
    (round : keygen.round2) (msgs : list messages.Message) :
  is_uint16 (state.SelfID (keygen.BaseRound round)) →
  Forall (valid_share round) msgs →
  msgs ≠ [] →
  ∃ round',
    process_shares round msgs
    = Return (round', keygen.set_Share edwards25519.NewScalar <$> msgs, None)
    ∧ round'
      = keygen.set_Secret
          ((keygen.Secret round + foldr Z.add 0 (share_of <$> msgs))
           mod edwards25519.ell) round
    ∧ Forall (λ msg, share_of msg = 0)
        (keygen.set_Share edwards25519.NewScalar <$> msgs)
    ∧ ∀ msgs2,
        msgs2 ≡ₚ msgs →
        process_shares round msgs2
        = Return (round',
                  keygen.set_Share edwards25519.NewScalar <$> msgs2, None).
Proof.
  intros Hself Hvalid Hne.
  assert (Hsum : ∀ l, l ≡ₚ msgs →
            foldl edwards25519.Add (keygen.Secret round) (share_of <$> l)
            = (keygen.Secret round + foldr Z.add 0 (share_of <$> msgs))
              mod edwards25519.ell).
  { intros l Hl. rewrite foldl_Add_shares.
    - by rewrite (foldr_add_Permutation _ _ (fmap_Permutation share_of _ _ Hl)).
    - intros Hnil. apply fmap_nil_inv in Hnil. subst l.
      by apply Permutation_nil_l in Hl. }
  eexists. split; [|split; [reflexivity|split]].
  - rewrite (process_shares_valid round msgs Hself Hvalid).
    by rewrite (Hsum msgs).
  - apply Forall_fmap, Forall_forall. by intros msg _.
  - intros msgs2 Hperm.
    rewrite (process_shares_valid round msgs2 Hself).
    + by rewrite (Hsum msgs2 Hperm).
    + by rewrite Hperm.
Qed.

Section KeygenSharesWitness.
#[local] Existing Instance DLog.curve.

Lemma example_KeyGen2_valid : valid_share example_round2 (example_KeyGen2 8).
Proof.
  exists {| messages.Share := 8 |},
         (@polynomial.Build_Exponent DLog.curve [5; 3]).
  split; [reflexivity|]. split; reflexivity.
Qed.

Lemma X15_shares_add_up_witness :
  ∃ round',
    process_shares example_round2 [example_KeyGen2 8; example_KeyGen2 8]
    = Return (round', [example_KeyGen2 0; example_KeyGen2 0], None)
    ∧ keygen.Secret round' = 27.
Proof.
  destruct (X15_shares_add_up example_round2
              [example_KeyGen2 8; example_KeyGen2 8])
    as (round' & Hrun & Hround & _).
  - unfold is_uint16. simpl. lia.
  - repeat constructor; apply example_KeyGen2_valid.
  - done.
  - exists round'. split; [exact Hrun|]. rewrite Hround. reflexivity.
Defined.

End KeygenSharesWitness.

(** ** [NewBaseRound] on any list of IDs *)

Section AnyPartyList.
Import rounds.
Context {Msg : Type} `{Q : messages.QueueAPI Msg}.

Lemma occurrences_app (id : Z) (l1 l2 : list Z) :
  occurrences id (l1 ++ l2) = (occurrences id l1 + occurrences id l2)%nat.
Proof. unfold occurrences. by rewrite filter_app, length_app. Qed.

Lemma occurrences_cons (id x : Z) (l : list Z) :
  occurrences id (x :: l)
  = ((if decide (x = id) then 1 else 0) + occurrences id l)%nat.
Proof.
  unfold occurrences. destruct (decide (x = id)) as [Hx|Hx].
  - by rewrite filter_cons_True.
  - by rewrite filter_cons_False.
Qed.

Lemma occurrences_snoc (id x : Z) (l : list Z) :
  occurrences id (l ++ [x])
  = (occurrences id l + if decide (x = id) then 1 else 0)%nat.
Proof.
  rewrite occurrences_app, occurrences_cons.
  assert (occurrences id [] = 0%nat) as -> by done. lia.
Qed.

Lemma occurrences_pos (id : Z) (l : list Z) :
  (0 < occurrences id l)%nat ↔ id ∈ l.
Proof.
  induction l as [|x l IH].
  - cbn. rewrite elem_of_nil. lia.
  - rewrite occurrences_cons, elem_of_cons.
    destruct (decide (x = id)) as [->|Hx]; [split; [by left|lia]|].
    cbn. rewrite IH. naive_solver.
Qed.

Lemma occurrences_zero (id : Z) (l : list Z) :
  occurrences id l = 0%nat ↔ id ∉ l.
Proof. rewrite <- occurrences_pos. lia. Qed.

Lemma NoDup_occurrences (l : list Z) :
  NoDup l ↔ ∀ id, (occurrences id l ≤ 1)%nat.
Proof.
  induction l as [|x l IH].
  - split; [intros _ id; cbn; lia|constructor].
  - rewrite NoDup_cons, IH. split.
    + intros [Hx Hl] id. rewrite occurrences_cons.
      destruct (decide (x = id)) as [->|Hne]; [|apply Hl].
      apply occurrences_zero in Hx. lia.
    + intros Hall. split.
      * apply occurrences_zero. specialize (Hall x).
        rewrite occurrences_cons, decide_True in Hall by done. lia.
      * intros id. specialize (Hall id). rewrite occurrences_cons in Hall.
        lia.
Qed.

(** The loop of [NewBaseRound] over a list in two parts. *)
Lemma collectPartyIDs_app self l1 l2 found all others :
  collectPartyIDs self (l1 ++ l2) found all others
  = match collectPartyIDs self l1 found all others with
    | inl (found', all', others') =>
        collectPartyIDs self l2 found' all' others'
    | inr err => inr err
    end.
Proof.
  revert found all others.
  induction l1 as [|id rest IH]; intros found all others; [done|].
  cbn [app collectPartyIDs].
  destruct (decide (id = 0)); [done|].
  destruct (bool_decide (id = self) && negb found); [apply IH|].
  destruct (others !! id); apply IH.
Qed.

Lemma occurrences_snoc_same (id : Z) (l : list Z) :
  occurrences id (l ++ [id]) = S (occurrences id l).
Proof. rewrite occurrences_snoc, decide_True by done. lia. Qed.

Lemma occurrences_snoc_other (id x : Z) (l : list Z) :
  x ≠ id → occurrences id (l ++ [x]) = occurrences id l.
Proof. intros Hx. rewrite occurrences_snoc, decide_False by done. lia. Qed.

Lemma collected_step self read id st :
  id ≠ 0 → collected self read st →
  ∃ st', collectPartyIDs self [id] st.1.1 st.1.2 st.2 = inl st'
         ∧ collected self (read ++ [id]) st'.
Proof.
  destruct st as [[found all] others]. cbn [fst snd].
  intros Hid (Hfound & Hsub & Hocc & Hothers & Hlen). cbn [fst snd] in *.
  cbn [collectPartyIDs]. rewrite decide_False by done.
  assert (Hin : ∀ x, x ∈ read ++ [id] ↔ x ∈ read ∨ x = id).
  { intros x. rewrite elem_of_app, list_elem_of_singleton. done. }
  destruct (decide (id = self)) as [->|Hne].
  - rewrite bool_decide_eq_true_2 by done. cbn [andb].
    destruct found; cbn [negb].
    + symmetry in Hfound. apply bool_decide_eq_true in Hfound.
      pose proof (proj2 (occurrences_pos self read) Hfound) as Hpos.
      rewrite (Hothers self).
      destruct (decide _) as [Htwice|Hnot].
      * (* a third or later occurrence of [self] *)
        destruct Htwice as [[? _]|[_ Htwice]]; [done|].
        eexists. split; [done|]. unfold collected. cbn [fst snd].
        split; [by rewrite bool_decide_eq_true_2 by (apply Hin; by left)|].
        split; [by apply sublist_inserts_r|]. split; [|split; [|done]].
        -- intros x. rewrite Hocc.
           destruct (decide (x = self)) as [->|Hx].
           ++ rewrite occurrences_snoc_same. lia.
           ++ by rewrite occurrences_snoc_other by done.
        -- intros x. rewrite Hothers, occurrences_snoc_same.
           apply decide_ext. rewrite Hin. split.
           ++ intros [[? ?]|[? ?]]; [left; by auto|right; split; [done|lia]].
           ++ intros [[? [?|?]]|[? ?]]; [left; by auto|done|].
              right. split; [done|lia].
      * (* the second occurrence of [self] *)
        assert (Hone : occurrences self read = 1%nat).
        { destruct (decide (2 ≤ occurrences self read)%nat); [|lia].
          exfalso. apply Hnot. by right. }
        eexists. split; [done|]. unfold collected. cbn [fst snd].
        split; [by rewrite bool_decide_eq_true_2 by (apply Hin; by left)|].
        split; [by apply sublist_app|]. split; [|split].
        -- intros x. destruct (decide (x = self)) as [->|Hx].
           ++ rewrite !occurrences_snoc_same, Hocc, decide_True by done. lia.
           ++ rewrite !occurrences_snoc_other, Hocc by done.
              by rewrite decide_False by done.
        -- intros x. rewrite occurrences_snoc_same, Hone.
           destruct (decide (x = self)) as [->|Hx].
           ++ rewrite lookup_insert_eq. rewrite decide_True; [done|].
              right. split; [done|]. lia.
           ++ rewrite lookup_insert_ne, Hothers by done.
              apply decide_ext. rewrite Hin. naive_solver.
        -- rewrite length_app, Hlen. cbn [length].
           rewrite map_size_insert_None; [lia|].
           rewrite Hothers. by rewrite decide_False by naive_solver.
    + (* the first occurrence of [self] *)
      symmetry in Hfound. apply bool_decide_eq_false in Hfound.
      pose proof (proj2 (occurrences_zero self read) Hfound) as Hzero.
      eexists. split; [done|]. unfold collected. cbn [fst snd].
      split; [by rewrite bool_decide_eq_true_2 by (apply Hin; by right)|].
      split; [by apply sublist_app|]. split; [|split].
      * intros x. destruct (decide (x = self)) as [->|Hx].
        -- rewrite !occurrences_snoc_same, Hocc, decide_True by done. lia.
        -- rewrite !occurrences_snoc_other, Hocc by done.
           by rewrite decide_False by done.
      * intros x. rewrite Hothers, occurrences_snoc_same, Hzero.
        apply decide_ext. rewrite Hin. split.
        -- intros [[? ?]|[? ?]]; [left; by auto|lia].
        -- intros [[? [?|?]]|[? ?]]; [left; by auto|done|lia].
      * rewrite length_app, Hlen. cbn [length]. lia.
  - rewrite bool_decide_eq_false_2 by done. cbn [andb].
    rewrite (Hothers id).
    destruct (decide _) as [Hseen|Hnew].
    + (* a peer seen before *)
      destruct Hseen as [[_ Hseen]|[? _]]; [|done].
      pose proof (proj2 (occurrences_pos id read) Hseen) as Hpos.
      eexists. split; [done|]. unfold collected. cbn [fst snd].
      split; [|split; [by apply sublist_inserts_r|split; [|split; [|done]]]].
      * rewrite Hfound. apply bool_decide_ext. rewrite Hin. naive_solver.
      * intros x. rewrite Hocc.
        destruct (decide (x = self)) as [->|Hx].
        -- by rewrite occurrences_snoc_other by done.
        -- destruct (decide (id = x)) as [->|Hx'].
           ++ rewrite occurrences_snoc_same. lia.
           ++ by rewrite occurrences_snoc_other by done.
      * intros x. rewrite Hothers, occurrences_snoc_other by done.
        apply decide_ext. rewrite Hin. naive_solver.
    + (* a new peer *)
      assert (Hfresh : id ∉ read) by (intros ?; apply Hnew; by left).
      pose proof (proj2 (occurrences_zero id read) Hfresh) as Hzero.
      eexists. split; [done|]. unfold collected. cbn [fst snd].
      split; [|split; [by apply sublist_app|split; [|split]]].
      * rewrite Hfound. apply bool_decide_ext. rewrite Hin. naive_solver.
      * intros x. destruct (decide (x = self)) as [->|Hx].
        -- rewrite !occurrences_snoc_other, Hocc by done.
           by rewrite decide_True by done.
        -- destruct (decide (id = x)) as [->|Hx'].
           ++ rewrite !occurrences_snoc_same, Hocc, decide_False by done.
              lia.
           ++ rewrite !occurrences_snoc_other, Hocc by done.
              by rewrite decide_False by done.
      * intros x. rewrite occurrences_snoc_other by done.
        destruct (decide (x = id)) as [->|Hx].
        -- rewrite lookup_insert_eq. rewrite decide_True; [done|].
           left. split; [done|]. apply Hin. by right.
        -- rewrite lookup_insert_ne, Hothers by done.
           apply decide_ext. rewrite Hin. naive_solver.
      * rewrite length_app, Hlen. cbn [length].
        rewrite map_size_insert_None; [lia|].
        rewrite Hothers. by rewrite decide_False.
Qed.

Lemma collectPartyIDs_collected self ids :
  0 ∉ ids →
  ∃ st, collectPartyIDs self ids false [] ∅ = inl st
        ∧ collected self ids st.
Proof.
  induction ids as [|id read IH] using rev_ind; intros Hz.
  - exists (false, [], ∅). split; [done|]. unfold collected. cbn [fst snd].
    split; [by rewrite bool_decide_eq_false_2 by apply not_elem_of_nil|].
    split; [done|]. split; [|split; [|done]].
    + intros id. by destruct (decide (id = self)).
    + intros id. rewrite lookup_empty, decide_False; [done|].
      intros [[_ Hin]|[_ Hin]]; [by apply elem_of_nil in Hin|].
      cbn in Hin. lia.
  - rewrite not_elem_of_app, list_elem_of_singleton in Hz.
    destruct Hz as [Hread Hid].
    destruct (IH Hread) as (st & Hrun & Hst).
    destruct (collected_step self read id st) as (st' & Hstep & Hst');
      [by intros ->|done|].
    exists st'. split; [|done].
    rewrite collectPartyIDs_app, Hrun. by destruct st as [[found all] others].
Qed.

End AnyPartyList.

(** X16.  [NewBaseRound] on any list of IDs.  When it returns a round, the
    local ID is not 0, no ID of the list is 0 and the local ID is in the
    list.  [AllPartyIDs] keeps the order of the list; it holds every other
    party of the list once, and the local party once, or twice when the
    list names it more than once: only the first occurrence of the local
    ID is set apart, a second one is entered like a peer, in [AllPartyIDs]
    and in [OtherPartyIDs].  So [AllPartyIDs] is free of duplicates exactly
    when the list names the local party once, and [N] is always one more
    than the number of entries of [OtherPartyIDs]. *)
Theorem X16_NewBaseRound_any_list {Msg : Type} `{Q : messages.QueueAPI Msg}
    (self : Z) (ids : list Z) (types : list messages.MessageType)
    (b : rounds.BaseRound) :
  rounds.NewBaseRound self ids types = inl b →
  self ≠ 0 ∧ (0 ∉ ids) ∧ self ∈ ids
  ∧ rounds.ID b = self
  ∧ (rounds.AllPartyIDs b `sublist_of` ids)
  ∧ (∀ id, occurrences id (rounds.AllPartyIDs b)
           = if decide (id = self) then Nat.min 2 (occurrences id ids)
             else Nat.min 1 (occurrences id ids))
  ∧ (∀ id, rounds.OtherPartyIDs b !! id
           = if decide ((id ≠ self ∧ id ∈ ids)
                        ∨ (id = self ∧ (2 ≤ occurrences self ids)%nat))
             then Some true else None)
  ∧ (NoDup (rounds.AllPartyIDs b) ↔ occurrences self ids = 1%nat)
  ∧ (Z.of_nat (length ids) < 2 ^ 32 →
     rounds.N b = Z.of_nat (size (rounds.OtherPartyIDs b)) + 1).
Proof.
  intros Hnew. unfold rounds.NewBaseRound in Hnew.
  destruct (decide (self = 0)) as [|Hself]; [done|].
  destruct (decide (0 ∈ ids)) as [Hz|Hz].
  { by rewrite (collectPartyIDs_zero _ _ _ _ _ Hz) in Hnew. }
  destruct (collectPartyIDs_collected self ids Hz)
    as ([[found all] others] & Hrun & Hfound & Hsub & Hocc & Hothers & Hlen).
  cbn [fst snd] in *. rewrite Hrun in Hnew.
  destruct found; cbn [negb] in Hnew; [|done].
  destruct (messages.NewMessageQueue self others types) as [q|]; [|done].
  injection Hnew as <-.
  cbn [rounds.AllPartyIDs rounds.OtherPartyIDs rounds.ID rounds.selfPartyID].
  symmetry in Hfound. apply bool_decide_eq_true in Hfound.
  do 7 (split; [done|]). split.
  - rewrite NoDup_occurrences. split.
    + intros Hall. specialize (Hall self).
      rewrite Hocc, decide_True in Hall by done.
      apply occurrences_pos in Hfound. lia.
    + intros Hone id. rewrite Hocc.
      destruct (decide (id = self)) as [->|_]; lia.
  - intros Hsize. unfold rounds.N. cbn [rounds.AllPartyIDs].
    apply sublist_length in Hsub.
    unfold uint32. change 4294967295 with (Z.ones 32).
    rewrite Z.land_ones, Z.mod_small by lia. lia.
Qed.

Lemma X16_NewBaseRound_any_list_witness :
  ∃ b,
    rounds.NewBaseRound (Q := DLog_queue) 1 [1; 2; 1; 2; 1] [] = inl b
    ∧ rounds.OtherPartyIDs b !! 1 = Some true
    ∧ rounds.AllPartyIDs b = [1; 2; 1].
Proof.
  eexists. split; [reflexivity|]. split; [|reflexivity].
  destruct (X16_NewBaseRound_any_list (Q := DLog_queue) 1 [1; 2; 1; 2; 1] []
              _ eq_refl) as (_ & _ & _ & _ & _ & _ & Hothers & _).
  rewrite Hothers. apply decide_True. right. split; [done|].
  vm_compute. lia.
Defined.

(** ** Signing, round 1 of [round1.go]: a missing message *)

Section SignMissingMessage.
Import edwards25519 sign.
Context `{Curve} `{Sha512}.

(** The loop of [ProcessMessages] panics as soon as a party it visits, not
    the local one, has no message. *)
Lemma ProcessMessages_loop_panics (self : Z) (order : list Z)
    (cur : gmap Z Party) (ms : gmap Z messages.Sign1Payload) (i : Z) :
  i ∈ order → i ≠ self → is_Some (cur !! i) → ms !! i = None →
  for_range (ProcessMessages_step self) order (cur, ms)
  = Panic "nil pointer dereference".
Proof.
  revert cur ms. induction order as [|id rest IH];
    intros cur ms Hin Hne Hparty Hmsg.
  { by apply elem_of_nil in Hin. }
  cbn [for_range].
  assert (Hstep :
    ProcessMessages_step self id (cur, ms) = Panic "nil pointer dereference"
    ∨ ∃ cur' ms',
        ProcessMessages_step self id (cur, ms) = Return (cur', ms')
        ∧ i ∈ rest ∧ is_Some (cur' !! i) ∧ ms' !! i = None).
  { unfold ProcessMessages_step. cbn [fst snd].
    assert (Hrest : i ≠ id → i ∈ rest).
    { intros Hi. apply elem_of_cons in Hin as [?|?]; done. }
    destruct (cur !! id) as [party|] eqn:Hid.
    - destruct (decide (id ≠ self)) as [Hpeer|Hself].
      + destruct (ms !! id) as [m|] eqn:Hm; [|by left].
        right. eexists _, _. split; [done|].
        assert (i ≠ id) by (intros ->; congruence).
        split; [by apply Hrest|].
        by rewrite lookup_insert_ne, lookup_delete_ne by done.
      + right. exists cur, ms. split; [done|]. split; [|done].
        apply Hrest. intros ->. by apply Hself.
    - right. exists cur, ms. split; [done|]. split; [|done].
      apply Hrest. intros ->. rewrite Hid in Hparty. by destruct Hparty. }
  destruct Hstep as [->|(cur' & ms' & -> & Hin' & Hparty' & Hmsg')]; [done|].
  rewrite bind_Return. by apply IH.
Qed.

Lemma ProcessRound_panics (order1 order2 : list Z) (round : base) (i : Z) :
  readyForNextRound round = false →
  order1 ≡ₚ (map_to_list (Parties round)).*1 →
  is_Some (Parties round !! i) → i ≠ PartySelf round →
  msgs1 round !! i = None →
  ProcessRound order1 order2 round = Panic "nil pointer dereference".
Proof.
  intros Hflag Ho Hparty Hne Hmsg.
  destruct (order_keys _ _ Ho) as [_ Hdom].
  unfold ProcessRound, ProcessMessages. rewrite Hflag.
  rewrite (ProcessMessages_loop_panics (PartySelf round) order1
             (Parties round) (msgs1 round) i); [done| |done..].
  by apply Hdom.
Qed.

End SignMissingMessage.

(** X17.  [CanProcess] of [round1.go] does not guard [ProcessRound].  In a
    round not yet processed, whose signers are listed once each and whose
    messages are from peers, as soon as the [Sign1] message of one peer is
    missing, [CanProcess] answers [true] and [ProcessRound] panics on the
    nil message, whatever the orders in which the loops visit the map. *)
Theorem X17_missing_message_panics `{edwards25519.Curve} `{Sha512}
    (order order1 order2 : list Z) (round : sign.base) (i : Z) :
  sign.readyForNextRound round = false →
  order ≡ₚ (map_to_list (sign.Parties round)).*1 →
  order1 ≡ₚ (map_to_list (sign.Parties round)).*1 →
  is_Some (sign.Parties round !! i) → i ≠ sign.PartySelf round →
  sign.msgs1 round !! i = None →
  sign.ProcessRound order1 order2 round = Panic "nil pointer dereference"
  ∧ (NoDup (sign.AllParties round) →
     (∀ j, j ∈ sign.AllParties round ↔ is_Some (sign.Parties round !! j)) →
     is_Some (sign.Parties round !! sign.PartySelf round) →
     (∀ j, is_Some (sign.msgs1 round !! j) →
           is_Some (sign.Parties round !! j) ∧ j ≠ sign.PartySelf round) →
     sign.CanProcess order round = true).
Proof.
  intros Hflag Ho Ho1 Hparty Hne Hmsg. split.
  - by apply (ProcessRound_panics order1 order2 round i).
  - intros Hnd Hall Hself Hfrom.
    rewrite (CanProcess_vacuous order round) by done. by rewrite Hflag.
Qed.

Section MissingMessageWitness.
#[local] Existing Instance DLog.curve.
#[local] Existing Instance DLog.digest.

Lemma X17_missing_message_panics_witness :
  sign.ProcessRound [3; 2; 1] [1; 2; 3] (example_sign false)
  = Panic "nil pointer dereference".
Proof.
  apply (X17_missing_message_panics (H := DLog.curve) (H0 := DLog.digest)
           [3; 2; 1] [3; 2; 1] [1; 2; 3] (example_sign false) 2).
  - reflexivity.
  - apply example_sign_keys.
  - apply example_sign_keys.
  - apply example_sign_lookup. rewrite !elem_of_cons. by (right; left).
  - done.
  - done.
Defined.

End MissingMessageWitness.

(** ** Package [party]: random IDs *)


